(** * Mobility and wireless range core: a shallow embedding of
      [daemon/core/mobility.py]

    The first part follows the source file class by class:
    - [BasicRangeModel]: distance computation, the link/unlink rule and
      the batch update;
    - [MobilityManager]: the fan-out of a batch update to the networks;
    - [Heapq]: the binary heap of Python's [heapq] module, on which the
      waypoint queue is built;
    - [WayPointMobility]: the waypoint scheduler;
    - [Binary64]: the coordinates of one move on IEEE 754 binary64;
    - [PyStr]: the string methods the trace reader uses;
    - [Ns2ScriptedMobility]: the node map and the ns-2 trace reader;
    - [WayPointRun]: the rounds of the scheduler, with the clock and the
      event queue.
    The second part states and proves the properties.

    Python floats are idealised as real numbers ([R]); rounding, infinities
    and NaN are outside that model.  Where rounding decides, in the
    coordinates of a move, the arithmetic is taken on binary64
    ([Binary64]).  A Python exception that leaves a
    function is the [Err] result.  Logging is not modelled. *)

From Stdlib Require Import Reals Lra Lia ZArith List Ascii String.
From Stdlib Require Import Sorting.Sorted Sorting.Permutation.
From Stdlib Require Floats.
From stdpp Require Import gmap strings list fin_maps.

Set Warnings "-clear-no-such-hyp,-inexact-float".

(** ** Exceptions and results *)

Inductive exn : Type :=
| ValueError
| IndexError
| KeyError
| TypeError
| AttributeError.

Inductive result (A : Type) : Type :=
| Ok (a : A)
| Err (e : exn).
Arguments Ok {A} a.
Arguments Err {A} e.

#[global] Instance result_ret : MRet result := fun A a => Ok a.
#[global] Instance result_bind : MBind result := fun A B f m =>
  match m with
  | Ok a => f a
  | Err e => Err e
  end.

(** [for x in xs: st = body(st, x)], leaving the loop at the first
    exception. *)
Fixpoint for_each {S X : Type} (body : S → X → result S) (st : S) (xs : list X)
  : result S :=
  match xs with
  | [] => Ok st
  | x :: xs' => st' ← body st x ; for_each body st' xs'
  end.

(** ** Positions *)

(** A position as the code stores it: each axis is a number or [None]. *)
Abbreviation position := (option R * option R * option R)%type.

(** A position whose x and y are numbers; only z may be [None]. *)
Abbreviation point := (R * R * option R)%type.

Definition unplaced : position := (None, None, None).

Definition placed (p : position) : option point :=
  match p with
  | (Some x, Some y, z) => Some (x, y, z)
  | _ => None
  end.

Definition Rgtb (a b : R) : bool := if Rgt_dec a b then true else false.
Definition Rltb (a b : R) : bool := if Rlt_dec a b then true else false.
Definition Reqb (a b : R) : bool := if Req_dec_T a b then true else false.

(** ** BasicRangeModel *)

Module BasicRangeModel.

(** An interface object; Python 2 orders plain objects by identity, which
    the integer stands for. *)
Abbreviation NetIf := Z (only parsing).

Inductive MessageFlags : Type := ADD | DELETE.

(** [create_link_data]: the wireless link record that is broadcast.  The
    node ids of the record are those of the two interfaces' nodes, fixed
    attributes of the interfaces, which therefore stand for them here. *)
Record LinkData : Type := mkLinkData {
  message_type : MessageFlags;
  interface1 : NetIf;
  interface2 : NetIf
}.

(** The model instance together with what it reaches through [self.wlan]
    and [self.session]. *)
Record t : Type := mk {
  _netifs : gmap NetIf position;
  range : R;
  (** [self.wlan._linked], indexed by the ordered pair *)
  _linked : gmap (NetIf * NetIf) bool;
  (** records handed to [session.broadcast_link], most recent first *)
  events : list LinkData;
  (** every invocation of [calclink], most recent first *)
  calls : list (NetIf * NetIf)
}.

Definition set_netifs (st : t) (m : gmap NetIf position) : t :=
  mk m (range st) (_linked st) (events st) (calls st).
Definition set_linked (st : t) (l : gmap (NetIf * NetIf) bool) : t :=
  mk (_netifs st) (range st) l (events st) (calls st).
Definition add_event (st : t) (e : LinkData) : t :=
  mk (_netifs st) (range st) (_linked st) (e :: events st) (calls st).
Definition add_call (st : t) (c : NetIf * NetIf) : t :=
  mk (_netifs st) (range st) (_linked st) (events st) (c :: calls st).

Definition init (rng : R) : t := mk ∅ rng ∅ [] [].

(** Modelled from the spec: [wlan.linked], [wlan.link] and [wlan.unlink]
    live in the network class, outside this file.  The link state is one
    boolean per pair, kept under the ordered (min, max) key; a pair that
    was never linked reads as not linked. *)
Definition wlan_linked (st : t) (a b : NetIf) : bool :=
  default false (_linked st !! (a, b)).
Definition wlan_link (st : t) (a b : NetIf) : t :=
  set_linked st (<[(a, b) := true]> (_linked st)).
Definition wlan_unlink (st : t) (a b : NetIf) : t :=
  set_linked st (<[(a, b) := false]> (_linked st)).

Definition hypot (a b : R) : R := sqrt (a * a + b * b).

Definition calcdistance (p1 p2 : point) : R :=
  let '(x1, y1, z1) := p1 in
  let '(x2, y2, z2) := p2 in
  let a := (x1 - x2)%R in
  let b := (y1 - y2)%R in
  let c := match z1, z2 with
           | Some v1, Some v2 => (v1 - v2)%R
           | _, _ => 0%R
           end in
  hypot (hypot a b) c.

Definition sendlinkmsg (st : t) (a b : NetIf) (unlink : bool) : t :=
  add_event st (mkLinkData (if unlink then DELETE else ADD) a b).

Definition calclink (st : t) (netif netif2 : NetIf) : result t :=
  let st := add_call st (netif, netif2) in
  if decide (netif = netif2) then Ok st else
  match _netifs st !! netif, _netifs st !! netif2 with
  | Some (x, y, z), Some (x2, y2, z2) =>
    match x2, y2 with
    | Some x2', Some y2' =>
      match x, y with
      | Some x', Some y' =>
        let d := calcdistance (x', y', z) (x2', y2', z2) in
        let a := Z.min netif netif2 in
        let b := Z.max netif netif2 in
        let linked := wlan_linked st a b in
        if Rgtb d (range st) then
          if linked then Ok (sendlinkmsg (wlan_unlink st a b) a b true)
          else Ok st
        else
          if negb linked then Ok (sendlinkmsg (wlan_link st a b) a b false)
          else Ok st
      | _, _ => Err TypeError
      end
    | _, _ => Ok st
    end
  | _, _ => Ok st
  end.

(** The keys of [self._netifs] in iteration order. *)
Definition keys (st : t) : list NetIf := (map_to_list (_netifs st)).*1.

Definition set_position (st : t) (netif : NetIf) (x y z : option R) : result t :=
  let st := set_netifs st (<[netif := (x, y, z)]> (_netifs st)) in
  match x, y with
  | Some _, Some _ =>
    for_each (fun st netif2 => calclink st netif netif2) st (keys st)
  | _, _ => Ok st
  end.

(** [moved_netifs.pop()]: the last element and the list without it. *)
Definition pop {A : Type} (l : list A) : option (A * list A) :=
  match last l with
  | Some x => Some (x, removelast l)
  | None => None
  end.

(** The body of [for netif2 in self._netifs] in [update]. *)
Definition update_pair (netif : NetIf) (moved_netifs : list NetIf) (st : t)
    (netif2 : NetIf) : result t :=
  if decide (netif2 ∈ moved_netifs) then Ok st
  else calclink st netif netif2.

(** One turn of the [while] loop of [update], for the popped interface and
    the rest of the moved list. *)
Definition update_body (getposition : NetIf → position) (st : t)
    (netif : NetIf) (moved_netifs : list NetIf) : result t :=
  let st := if decide (is_Some (_netifs st !! netif))
            then set_netifs st (<[netif := getposition netif]> (_netifs st))
            else st in
  for_each (update_pair netif moved_netifs) st (keys st).

(** [while len(moved_netifs): ...]; every turn pops one element, so the
    length of the list bounds the number of turns. *)
Fixpoint update_loop (fuel : nat) (getposition : NetIf → position) (st : t)
    (moved_netifs : list NetIf) : result (t * list NetIf) :=
  match fuel with
  | O => Ok (st, moved_netifs)
  | S fuel' =>
    match pop moved_netifs with
    | None => Ok (st, moved_netifs)
    | Some (netif, rest) =>
      st' ← update_body getposition st netif rest ;
      update_loop fuel' getposition st' rest
    end
  end.

(** [update] returns the model and the caller's list as the pass left it;
    [getposition] reads [netif.node.getposition()]. *)
Definition update (getposition : NetIf → position) (st : t)
    (moved_netifs : list NetIf) : result (t * list NetIf) :=
  update_loop (length moved_netifs) getposition st moved_netifs.

(** [get_position]; a missing interface is a [KeyError]. *)
Definition get_position (st : t) (netif : NetIf) : result position :=
  match _netifs st !! netif with
  | Some p => Ok p
  | None => Err KeyError
  end.


End BasicRangeModel.

(** ** MobilityManager *)

Module MobilityManager.
Import BasicRangeModel.

(** [updatewlans] over networks that run the basic range model: every
    model is handed the same list object, so each [update] starts from
    what the one before left of it. *)
Fixpoint updatewlans (getposition : NetIf → position) (models : list t)
    (moved_netifs : list NetIf) : result (list t * list NetIf) :=
  match models with
  | [] => Ok ([], moved_netifs)
  | model :: models' =>
    r ← update getposition model moved_netifs;
    r' ← updatewlans getposition models' r.2;
    Ok (r.1 :: r'.1, r'.2)
  end.

End MobilityManager.

(** ** heapq *)

(** Python's [heapq] on a list, for an element type with a "less than"
    test.  An index that the Python code never takes out of range reads
    as [None] here and ends the loop. *)
Module Heapq.
Section Heapq.
Context {A : Type} (lt : A → A → bool).

(** The [while pos > startpos] loop of [_siftdown]; [pos] decreases at
    every turn, so [pos] turns are enough. *)
Fixpoint siftdown_loop (fuel : nat) (heap : list A) (startpos pos : nat)
    (newitem : A) : list A :=
  match fuel with
  | O => <[pos := newitem]> heap
  | S fuel' =>
    if decide (startpos < pos)%nat then
      let parentpos := ((pos - 1) / 2)%nat in
      match heap !! parentpos with
      | Some parent =>
        if lt newitem parent
        then siftdown_loop fuel' (<[pos := parent]> heap) startpos parentpos newitem
        else <[pos := newitem]> heap
      | None => <[pos := newitem]> heap
      end
    else <[pos := newitem]> heap
  end.

Definition _siftdown (heap : list A) (startpos pos : nat) : list A :=
  match heap !! pos with
  | Some newitem => siftdown_loop pos heap startpos pos newitem
  | None => heap
  end.

(** The [while childpos < endpos] loop of [_siftup]: the smaller child
    moves up until the hole is at a leaf; it returns the heap and the
    final [pos]. *)
Fixpoint siftup_loop (fuel : nat) (heap : list A) (pos : nat) : list A * nat :=
  match fuel with
  | O => (heap, pos)
  | S fuel' =>
    let endpos := length heap in
    let childpos := (2 * pos + 1)%nat in
    if decide (childpos < endpos)%nat then
      let rightpos := (childpos + 1)%nat in
      let childpos :=
        match heap !! childpos, heap !! rightpos with
        | Some l, Some r => if negb (lt l r) then rightpos else childpos
        | _, _ => childpos
        end in
      match heap !! childpos with
      | Some c => siftup_loop fuel' (<[pos := c]> heap) childpos
      | None => (heap, pos)
      end
    else (heap, pos)
  end.

Definition _siftup (heap : list A) (pos : nat) : list A :=
  match heap !! pos with
  | Some newitem =>
    let '(heap', pos') := siftup_loop (length heap) heap pos in
    _siftdown (<[pos' := newitem]> heap') pos pos'
  | None => heap
  end.

Definition heappush (heap : list A) (item : A) : list A :=
  _siftdown (heap ++ [item]) 0 (length heap).

(** [heappop]: [None] is the [IndexError] of popping an empty list. *)
Definition heappop (heap : list A) : option (A * list A) :=
  match last heap with
  | None => None
  | Some lastelt =>
    match removelast heap with
    | [] => Some (lastelt, [])
    | returnitem :: rest =>
      Some (returnitem, _siftup (lastelt :: rest) 0)
    end
  end.

(** Popping until the heap is empty, in the order the items come out. *)
Fixpoint drain_loop (fuel : nat) (heap : list A) : list A :=
  match fuel with
  | O => []
  | S fuel' =>
    match heappop heap with
    | Some (x, heap') => x :: drain_loop fuel' heap'
    | None => []
    end
  end.

Definition drain (heap : list A) : list A := drain_loop (length heap) heap.

(** *** The heap invariant *)

Definition parent (i : nat) : nat := ((i - 1) / 2)%nat.

(** [x] does not come after [y]: [y < x] is false. *)
Definition le (x y : A) : Prop := lt y x = false.

(** The invariant of [heapq]: no item is less than its parent. *)
Definition is_heap (heap : list A) : Prop :=
  ∀ i x p, (0 < i)%nat → heap !! i = Some x → heap !! parent i = Some p → le p x.

(** The heap during [_siftdown], with [newitem] in hand and a hole at
    [pos]: the heap order holds away from the hole, and the items below
    the hole come after [newitem] and after the item above the hole. *)
Record hole_rising (heap : list A) (pos : nat) (newitem : A) : Prop := {
  rising_bound : (pos < length heap)%nat;
  rising_away : ∀ i x p, (0 < i)%nat → i ≠ pos → parent i ≠ pos →
    heap !! i = Some x → heap !! parent i = Some p → le p x;
  rising_below : ∀ c x, (0 < c)%nat → parent c = pos →
    heap !! c = Some x → le newitem x;
  rising_across : ∀ c x g, (0 < c)%nat → parent c = pos → (0 < pos)%nat →
    heap !! c = Some x → heap !! parent pos = Some g → le g x
}.

(** The heap during the loop of [_siftup], with a hole at [pos] that
    moves down: the heap order holds away from the hole, and the items
    below the hole come after the item above it. *)
Record hole_sinking (heap : list A) (pos : nat) : Prop := {
  sinking_bound : (pos < length heap)%nat;
  sinking_away : ∀ i x p, (0 < i)%nat → i ≠ pos → parent i ≠ pos →
    heap !! i = Some x → heap !! parent i = Some p → le p x;
  sinking_across : ∀ c x g, (0 < c)%nat → parent c = pos → (0 < pos)%nat →
    heap !! c = Some x → heap !! parent pos = Some g → le g x
}.

End Heapq.
End Heapq.

(** ** WayPointMobility *)

Module WayPointMobility.

Inductive State : Type := STATE_STOPPED | STATE_RUNNING | STATE_PAUSED.

(** The [speed] of a waypoint: a number, or a velocity vector of which the
    code reads the first two components. *)
Inductive Speed : Type :=
| Scalar (s : R)
| Vector (vx vy : R).

Record WayPoint : Type := mkWayPoint {
  time : R;
  nodenum : Z;
  coords : position;
  speed : Speed
}.

(** Python 2's [cmp] on numbers. *)
Definition cmp_R (a b : R) : comparison :=
  if Rltb a b then Lt else if Rltb b a then Gt else Eq.

(** [WayPoint.__cmp__] *)
Definition WayPoint_cmp (self other : WayPoint) : comparison :=
  match cmp_R (time self) (time other) with
  | Eq => Z.compare (nodenum self) (nodenum other)
  | tmp => tmp
  end.

(** How [heapq] tests [x < y] on objects that only have [__cmp__]:
    [not y <= x]. *)
Definition WayPoint_lt (x y : WayPoint) : bool :=
  match WayPoint_cmp y x with
  | Gt => true
  | _ => false
  end.

(** What [sendevent] broadcasts: the state and the two numbers that are
    formatted into the [start=] and [end=] fields. *)
Record EventData : Type := mkEventData {
  event_type : State;
  event_start : R;
  event_end : R
}.

(** The model instance and what it reaches through [self.wlan] and
    [self.session]. *)
Record t : Type := mk {
  state : State;
  queue : list WayPoint;
  queue_copy : list WayPoint;
  points : gmap Z WayPoint;
  initial : gmap Z WayPoint;
  lasttime : option R;
  endtime : option R;
  (** [None]: the attribute has not been assigned yet *)
  timezero : option R;
  loop : bool;
  (** [self.wlan.netifs()]: each interface with its node's [objid] *)
  wlan_netifs : list (Z * Z);
  (** the position of each node object, by [objid] *)
  nodepos : gmap Z position;
  (** [session.broadcast_node], most recent first *)
  node_events : list (Z * position);
  (** the arguments of [session.mobility.updatewlans], most recent first *)
  wlan_updates : list (list Z * list Z);
  (** [session.broadcast_event], most recent first *)
  mobility_events : list EventData
}.

Definition set_state (st : t) (v : State) : t :=
  mk v (queue st) (queue_copy st) (points st) (initial st) (lasttime st)
     (endtime st) (timezero st) (loop st) (wlan_netifs st) (nodepos st)
     (node_events st) (wlan_updates st) (mobility_events st).
Definition set_queue (st : t) (v : list WayPoint) : t :=
  mk (state st) v (queue_copy st) (points st) (initial st) (lasttime st)
     (endtime st) (timezero st) (loop st) (wlan_netifs st) (nodepos st)
     (node_events st) (wlan_updates st) (mobility_events st).
Definition set_queue_copy (st : t) (v : list WayPoint) : t :=
  mk (state st) (queue st) v (points st) (initial st) (lasttime st)
     (endtime st) (timezero st) (loop st) (wlan_netifs st) (nodepos st)
     (node_events st) (wlan_updates st) (mobility_events st).
Definition set_points (st : t) (v : gmap Z WayPoint) : t :=
  mk (state st) (queue st) (queue_copy st) v (initial st) (lasttime st)
     (endtime st) (timezero st) (loop st) (wlan_netifs st) (nodepos st)
     (node_events st) (wlan_updates st) (mobility_events st).
Definition set_initial (st : t) (v : gmap Z WayPoint) : t :=
  mk (state st) (queue st) (queue_copy st) (points st) v (lasttime st)
     (endtime st) (timezero st) (loop st) (wlan_netifs st) (nodepos st)
     (node_events st) (wlan_updates st) (mobility_events st).
Definition set_lasttime (st : t) (v : option R) : t :=
  mk (state st) (queue st) (queue_copy st) (points st) (initial st) v
     (endtime st) (timezero st) (loop st) (wlan_netifs st) (nodepos st)
     (node_events st) (wlan_updates st) (mobility_events st).
Definition set_endtime (st : t) (v : option R) : t :=
  mk (state st) (queue st) (queue_copy st) (points st) (initial st) (lasttime st)
     v (timezero st) (loop st) (wlan_netifs st) (nodepos st)
     (node_events st) (wlan_updates st) (mobility_events st).
Definition set_timezero (st : t) (v : option R) : t :=
  mk (state st) (queue st) (queue_copy st) (points st) (initial st) (lasttime st)
     (endtime st) v (loop st) (wlan_netifs st) (nodepos st)
     (node_events st) (wlan_updates st) (mobility_events st).
Definition set_nodepos (st : t) (v : gmap Z position) : t :=
  mk (state st) (queue st) (queue_copy st) (points st) (initial st) (lasttime st)
     (endtime st) (timezero st) (loop st) (wlan_netifs st) v
     (node_events st) (wlan_updates st) (mobility_events st).
Definition set_node_events (st : t) (v : list (Z * position)) : t :=
  mk (state st) (queue st) (queue_copy st) (points st) (initial st) (lasttime st)
     (endtime st) (timezero st) (loop st) (wlan_netifs st) (nodepos st)
     v (wlan_updates st) (mobility_events st).
Definition set_wlan_updates (st : t) (v : list (list Z * list Z)) : t :=
  mk (state st) (queue st) (queue_copy st) (points st) (initial st) (lasttime st)
     (endtime st) (timezero st) (loop st) (wlan_netifs st) (nodepos st)
     (node_events st) v (mobility_events st).
Definition set_mobility_events (st : t) (v : list EventData) : t :=
  mk (state st) (queue st) (queue_copy st) (points st) (initial st) (lasttime st)
     (endtime st) (timezero st) (loop st) (wlan_netifs st) (nodepos st)
     (node_events st) (wlan_updates st) v.

(** [__init__], for a network with the given interfaces and node
    positions. *)
Definition init (netifs : list (Z * Z)) (pos : gmap Z position) : t :=
  mk STATE_STOPPED [] [] ∅ ∅ None None None false netifs pos [] [] [].

(** [node.getposition()]; a node that was never placed has no coordinate. *)
Definition getposition (st : t) (node : Z) : position :=
  default unplaced (nodepos st !! node).

Definition setnodeposition (st : t) (node : Z) (p : position) : t :=
  let st := set_nodepos st (<[node := p]> (nodepos st)) in
  set_node_events st ((node, p) :: node_events st).

(** [math.atan2], from the arc tangent. *)
Definition atan2 (y x : R) : R :=
  if Rltb 0 x then atan (y / x)
  else if Rltb x 0 then
    (if Rltb y 0 then atan (y / x) - PI else atan (y / x) + PI)%R
  else if Rltb 0 y then (PI / 2)%R
  else if Rltb y 0 then (- PI / 2)%R
  else 0%R.

(** [speed == 0] *)
Definition speed_is_zero (s : Speed) : bool :=
  match s with
  | Scalar v => Reqb v 0
  | Vector _ _ => false
  end.

(** [a < b] of Python 2 where [a] may be [None], which is below every
    number. *)
Definition none_lt (a : option R) (b : R) : bool :=
  match a with
  | None => true
  | Some v => Rltb v b
  end.

(** [movenode], with the coordinates computed on real numbers: what it
    does to the tables, the end time and the broadcasts does not depend
    on rounding.  The coordinates themselves, as binary64 gives them, are
    in [Binary64.movenode]. *)
Definition movenode (st : t) (node : Z) (dt : R) : result (bool * t) :=
  match points st !! node with
  | None => Ok (false, st)
  | Some wp =>
    let '(x1, y1, z1) := getposition st node in
    let '(x2, y2, z2) := coords wp in
    if speed_is_zero (speed wp) then
      let st := setnodeposition st node (x2, y2, z2) in
      Ok (true, set_points st (delete node (points st)))
    else
      match x1, y1, x2, y2 with
      | Some x1, Some y1, Some x2, Some y2 =>
        let '(sx, sy) :=
          match speed wp with
          | Scalar s =>
            let alpha := atan2 (y2 - y1) (x2 - x1) in
            ((s * cos alpha)%R, (s * sin alpha)%R)
          | Vector vx vy => (vx, vy)
          end in
        let dx := (sx * dt)%R in
        let dy := (sy * dt)%R in
        let dx := if Rgtb (Rabs dx) (Rabs (x2 - x1)) then (x2 - x1)%R else dx in
        let dy := if Rgtb (Rabs dy) (Rabs (y2 - y1)) then (y2 - y1)%R else dy in
        if Reqb dx 0 && Reqb dy 0 then
          match timezero st, lasttime st with
          | None, _ => Err AttributeError
          | Some _, None => Err TypeError
          | Some tz, Some lt =>
            let st := if none_lt (endtime st) (lt - tz)
                      then set_endtime st (Some (lt - tz)%R) else st in
            Ok (false, set_points st (delete node (points st)))
          end
        else
          let dx := if Rltb (x1 + dx) 0 then (0 - x1)%R else dx in
          let dy := if Rltb (y1 + dy) 0 then (0 - y1)%R else dy in
          Ok (true, setnodeposition st node
                      (Some (x1 + dx)%R, Some (y1 + dy)%R, z1))
      | _, _, _, _ => Err TypeError
      end
  end.

(** The body of [for netif in self.wlan.netifs()] in
    [movenodesinitial], on the model and the two lists it fills. *)
Definition movenodesinitial_body (acc : t * list Z * list Z)
    (entry : Z * Z) : t * list Z * list Z :=
  let '(st, moved, moved_netifs) := acc in
  let '(netif, node) := entry in
  match initial st !! node with
  | None => acc
  | Some wp =>
    (setnodeposition st node (coords wp),
     moved ++ [node], moved_netifs ++ [netif])
  end.

Definition movenodesinitial (st : t) : t :=
  let '(st, moved, moved_netifs) :=
    foldl movenodesinitial_body (st, [], []) (wlan_netifs st) in
  set_wlan_updates st ((moved, moved_netifs) :: wlan_updates st).

Definition addwaypoint (st : t) (time : R) (nodenum : Z) (x y z : option R)
    (speed : Speed) : t :=
  let wp := mkWayPoint time nodenum (x, y, z) speed in
  set_queue st (Heapq.heappush WayPoint_lt (queue st) wp).

Definition addinitial (st : t) (nodenum : Z) (x y z : option R) : t :=
  let wp := mkWayPoint 0 nodenum (x, y, z) (Scalar 0) in
  set_initial st (<[nodenum := wp]> (initial st)).

(** The [while len(self.queue)] loop of [updatepoints]; every turn that
    goes on pops one waypoint. *)
Fixpoint updatepoints_loop (fuel : nat) (st : t) (now : R) : t :=
  match fuel with
  | O => st
  | S fuel' =>
    match queue st with
    | [] => st
    | first :: _ =>
      if Rgtb (time first) now then st
      else
        match Heapq.heappop WayPoint_lt (queue st) with
        | Some (wp, q) =>
          let st := set_queue st q in
          let st := set_points st (<[nodenum wp := wp]> (points st)) in
          updatepoints_loop fuel' st now
        | None => st
        end
    end
  end.

Definition updatepoints (st : t) (now : R) : t :=
  updatepoints_loop (length (queue st)) st now.

Definition copywaypoints (st : t) : t := set_queue_copy st (queue st).

Definition loopwaypoints (st : t) : bool * t :=
  (loop st, set_queue st (queue_copy st)).

Definition setendtime (st : t) : t :=
  match last (queue st) with
  | Some wp => set_endtime st (Some (time wp))
  | None => set_endtime st (Some 0%R)
  end.

(** [MobilityManager.sendevent]; [int(model.endtime)] needs a number. *)
Definition sendevent (st : t) : result t :=
  match timezero st, lasttime st, endtime st with
  | None, _, _ => Err AttributeError
  | Some tz, Some lt, Some e =>
    Ok (set_mobility_events st
          (mkEventData (state st) (lt - tz) e :: mobility_events st))
  | _, _, _ => Err TypeError
  end.

Definition stop (st : t) (move_initial : bool) : result t :=
  let st := set_state st STATE_STOPPED in
  let st := (loopwaypoints st).2 in
  let st := set_timezero st (Some 0%R) in
  let st := set_lasttime st (Some 0%R) in
  let st := if move_initial then movenodesinitial st else st in
  sendevent st.

(** [pause]; [now] is the reading of [time.time()]. *)
Definition pause (st : t) (now : R) : t :=
  let st := set_state st STATE_PAUSED in
  set_lasttime st (Some now).

End WayPointMobility.

(** ** The arithmetic of [movenode] on binary64 *)

(** The coordinates that [WayPointMobility.movenode] computes, on Python's
    floats (IEEE 754 binary64, the primitive floats of Rocq) instead of
    real numbers, for a node and a target that have x and y.  The
    bookkeeping around them (the table of targets, the end time, the
    broadcast) is in [WayPointMobility.movenode]. *)
Module Binary64.
Import PrimFloat.
Local Open Scope float_scope.

Inductive Speed : Type :=
| Scalar (s : float)
| Vector (vx vy : float).

(** What [movenode] does with the node. *)
Inductive Move : Type :=
(** [speed == 0]: the node is put on the target, which is removed *)
| Instant (x y : float) (z : option float)
(** [dx == 0.0 and dy == 0.0]: the target is removed, the node stays *)
| Arrived
(** [self.setnodeposition(node, x1 + dx, y1 + dy, z1)] *)
| Step (x y : float) (z : option float).

(** [speed == 0] *)
Definition speed_is_zero (s : Speed) : bool :=
  match s with
  | Scalar v => v =? 0
  | Vector _ _ => false
  end.

Section Math.
(** [math.atan2], [math.cos] and [math.sin] *)
Variables (atan2 : float → float → float) (cos sin : float → float).

Definition movenode (x1 y1 : float) (z1 : option float)
    (x2 y2 : float) (z2 : option float) (speed : Speed) (dt : float) : Move :=
  if speed_is_zero speed then Instant x2 y2 z2
  else
    let '(sx, sy) :=
      match speed with
      | Scalar s =>
        let alpha := atan2 (y2 - y1) (x2 - x1) in
        (s * cos alpha, s * sin alpha)
      | Vector vx vy => (vx, vy)
      end in
    let dx := sx * dt in
    let dy := sy * dt in
    let dx := if abs (x2 - x1) <? abs dx then x2 - x1 else dx in
    let dy := if abs (y2 - y1) <? abs dy then y2 - y1 else dy in
    if (dx =? 0) && (dy =? 0) then Arrived
    else
      let dx := if x1 + dx <? 0 then 0 - x1 else dx in
      let dy := if y1 + dy <? 0 then 0 - y1 else dy in
      Step (x1 + dx) (y1 + dy) z1.


End Math.

(** The two per-axis steps of [movenode]: the overshoot guard, then the
    clamp at zero. *)
Definition guarded (d remaining : float) : float :=
  if abs remaining <? abs d then remaining else d.

(** The math functions at the angle of a move along the positive x axis:
    the angle is 0, its cosine 1 and its sine 0. *)
Definition atan2_along_x (y x : float) : float := 0.
Definition cos_along_x (a : float) : float := 1.
Definition sin_along_x (a : float) : float := 0.

End Binary64.

(** ** Python strings *)

(** The [str] methods the trace reader uses, on [string]. *)
Module PyStr.

(** [string.whitespace] *)
Definition is_space (c : ascii) : bool :=
  let n := nat_of_ascii c in
  (n =? 32)%nat || ((9 <=? n)%nat && (n <=? 13)%nat).

Definition chars (s : string) : list ascii := list_ascii_of_string s.
Definition str (l : list ascii) : string := string_of_list_ascii l.

Fixpoint drop_while (p : ascii → bool) (l : list ascii) : list ascii :=
  match l with
  | [] => []
  | c :: l' => if p c then drop_while p l' else l
  end.

Definition strip_with (p : ascii → bool) (s : string) : string :=
  str (rev (drop_while p (rev (drop_while p (chars s))))).

(** [s.strip()] *)
Definition strip (s : string) : string := strip_with is_space s.

(** [s.strip(c)] for a one-character argument *)
Definition strip_char (c : ascii) (s : string) : string :=
  strip_with (Ascii.eqb c) s.

Fixpoint fields (sep : ascii) (acc : list ascii) (l : list ascii)
  : list string :=
  match l with
  | [] => [str (rev acc)]
  | c :: l' =>
    if Ascii.eqb c sep then str (rev acc) :: fields sep [] l'
    else fields sep (c :: acc) l'
  end.

(** [s.split(sep)] for a one-character separator *)
Definition split_on (sep : ascii) (s : string) : list string :=
  fields sep [] (chars s).

Fixpoint words (acc : list ascii) (l : list ascii) : list string :=
  match l with
  | [] => if acc is [] then [] else [str (rev acc)]
  | c :: l' =>
    if is_space c then
      (if acc is [] then words [] l' else str (rev acc) :: words [] l')
    else words (c :: acc) l'
  end.

(** [s.split()] *)
Definition split (s : string) : list string := words [] (chars s).

(** [s[:n]] *)
Definition prefix (n : nat) (s : string) : string := str (take n (chars s)).

(** [s[a:b]] for indices that are not negative *)
Definition slice (a b : nat) (s : string) : string :=
  str (take (b - a) (drop a (chars s))).

Fixpoint index_from (i : nat) (c : ascii) (l : list ascii) : result nat :=
  match l with
  | [] => Err ValueError
  | d :: l' => if Ascii.eqb d c then Ok i else index_from (S i) c l'
  end.

(** [s.index(c)] *)
Definition index (c : ascii) (s : string) : result nat :=
  index_from 0 c (chars s).

(** The character of a double quote *)
Definition dquote : ascii := ascii_of_nat 34.

(** [parts[i]] *)
Definition getitem (parts : list string) (i : nat) : result string :=
  match parts !! i with
  | Some p => Ok p
  | None => Err IndexError
  end.

Definition digit (c : ascii) : option Z :=
  let n := nat_of_ascii c in
  if (48 <=? n)%nat && (n <=? 57)%nat then Some (Z.of_nat (n - 48)) else None.

Fixpoint digits (acc : Z) (l : list ascii) : option Z :=
  match l with
  | [] => Some acc
  | c :: l' =>
    match digit c with
    | Some d => digits (10 * acc + d) l'
    | None => None
    end
  end.

Definition number (l : list ascii) : result Z :=
  match l with
  | [] => Err ValueError
  | _ => match digits 0 l with
         | Some v => Ok v
         | None => Err ValueError
         end
  end.

(** [int(s)] on a string: a decimal literal with an optional sign, blanks
    allowed around it; anything else is a [ValueError]. *)
Definition int (s : string) : result Z :=
  match chars (strip s) with
  | "-"%char :: l => v ← number l; Ok (- v)%Z
  | "+"%char :: l => number l
  | l => number l
  end.

End PyStr.

(** ** Ns2ScriptedMobility *)

Module Ns2ScriptedMobility.
Import WayPointMobility.

Record t : Type := mk {
  base : WayPointMobility.t;
  nodemap : gmap Z Z
}.

Definition set_base (self : t) (b : WayPointMobility.t) : t :=
  mk b (nodemap self).
Definition set_nodemap (self : t) (m : gmap Z Z) : t :=
  mk (base self) m.

(** The [for pair in mapstr.split(',')] loop of [parsemap], [entry]
    being the loop variable.  The body of
    the [try] can only raise [ValueError], on which the function
    returns. *)
Fixpoint parsemap_loop (nodemap : gmap Z Z) (pairs : list string)
  : gmap Z Z :=
  match pairs with
  | [] => nodemap
  | entry :: pairs' =>
    let parts := PyStr.split_on ":" entry in
    let body : result (gmap Z Z) :=
      match parts with
      | [p0; p1] =>
        v ← PyStr.int p1;
        k ← PyStr.int p0;
        Ok (<[k := v]> nodemap)
      | _ => Err ValueError
      end in
    match body with
    | Ok nodemap' => parsemap_loop nodemap' pairs'
    | Err _ => nodemap
    end
  end.

Definition parsemap (self : t) (mapstr : string) : t :=
  let self := set_nodemap self ∅ in
  if String.eqb (PyStr.strip mapstr) EmptyString then self
  else set_nodemap self (parsemap_loop (nodemap self) (PyStr.split_on "," mapstr)).

(** [map]; the argument is the node number as it stands in the trace, or
    [None]. *)
Definition map (self : t) (nodenum : option string) : result Z :=
  match nodenum with
  | None => Err TypeError
  | Some s =>
    n ← PyStr.int s;
    Ok (default n (nodemap self !! n))
  end.

(** The local variables of [readscriptfile] that live across lines. *)
Record locals : Type := mkLocals {
  ix : option R;
  iy : option R;
  iz : option R;
  inodenum : option string
}.

(** Statements of the loop body: they change the model and the locals,
    and may raise; what was changed before an exception stays changed. *)
Definition M (X : Type) : Type := t * locals → (t * locals) * result X.

#[global] Instance M_ret : MRet M := fun X x s => (s, Ok x).
#[global] Instance M_bind : MBind M := fun X Y f m s =>
  match m s with
  | (s', Ok x) => f x s'
  | (s', Err e) => (s', Err e)
  end.

Definition lift {X : Type} (r : result X) : M X := fun s => (s, r).

(** [try: body except ValueError: continue] *)
Definition except_ValueError (body : M unit) : M unit := fun s =>
  match body s with
  | (s', Err ValueError) => (s', Ok ())
  | r => r
  end.

(** [self.addinitial(self.map(nodenum), ix, iy, iz)] followed by
    [ix = iy = iz = None] *)
Definition commit_initial (nodenum : option string) : M unit := fun s =>
  let '(self, loc) := s in
  match map self nodenum with
  | Err e => (s, Err e)
  | Ok n =>
    (set_base self (addinitial (base self) n (ix loc) (iy loc) (iz loc)),
     mkLocals None None None (inodenum loc), Ok ())
  end.

(** [if ix is not None and iy is not None: ...] *)
Definition commit_pending : M unit := fun s =>
  match ix s.2, iy s.2 with
  | Some _, Some _ => commit_initial (inodenum s.2) s
  | _, _ => (s, Ok ())
  end.

Definition set_ix (v : option R) : M unit := fun s =>
  (s.1, mkLocals v (iy s.2) (iz s.2) (inodenum s.2), Ok ()).
Definition set_iy (v : option R) : M unit := fun s =>
  (s.1, mkLocals (ix s.2) v (iz s.2) (inodenum s.2), Ok ()).
Definition set_iz (v : option R) : M unit := fun s =>
  (s.1, mkLocals (ix s.2) (iy s.2) v (inodenum s.2), Ok ()).
Definition set_inodenum (v : option string) : M unit := fun s =>
  (s.1, mkLocals (ix s.2) (iy s.2) (iz s.2) v, Ok ()).

(** [self.addwaypoint(time, self.map(nodenum), x, y, z, speed)] *)
Definition add_mapped_waypoint (time : R) (nodenum : string) (x y : R)
    (speed : R) : M unit := fun s =>
  match map s.1 (Some nodenum) with
  | Err e => (s, Err e)
  | Ok n =>
    (set_base s.1 (addwaypoint (base s.1) time n (Some x) (Some y) None
                     (Scalar speed)), s.2, Ok ())
  end.

Section Reader.
(** The built-in [float] on a string; [ValueError] when the string is not
    a number. *)
Variable float : string → result R.

(** [part[1 + part.index('('):part.index(')')]] *)
Definition between_parens (part : string) : result string :=
  i ← PyStr.index "(" part;
  j ← PyStr.index ")" part;
  Ok (PyStr.slice (1 + i) j part).

(** The body of [for line in f] in [readscriptfile]. *)
Definition readline (line : string) : M unit :=
  if negb (String.eqb (PyStr.prefix 2 line) "$n") then mret ()
  else except_ValueError (
    if String.eqb (PyStr.prefix 8 line) "$ns_ at " then
      _ ← commit_pending;
      let parts := PyStr.split line in
      p2 ← lift (PyStr.getitem parts 2);
      time ← lift (float p2);
      p3 ← lift (PyStr.getitem parts 3);
      nodenum ← lift (between_parens p3);
      p5 ← lift (PyStr.getitem parts 5);
      x ← lift (float p5);
      p6 ← lift (PyStr.getitem parts 6);
      y ← lift (float p6);
      p7 ← lift (PyStr.getitem parts 7);
      speed ← lift (float (PyStr.strip_char PyStr.dquote p7));
      add_mapped_waypoint time nodenum x y speed
    else if String.eqb (PyStr.prefix 7 line) "$node_(" then
      let parts := PyStr.split line in
      p0 ← lift (PyStr.getitem parts 0);
      nodenum ← lift (between_parens p0);
      p2 ← lift (PyStr.getitem parts 2);
      _ ← (if String.eqb p2 "X_" then
             _ ← commit_pending;
             p3 ← lift (PyStr.getitem parts 3);
             v ← lift (float p3);
             set_ix (Some v)
           else if String.eqb p2 "Y_" then
             p3 ← lift (PyStr.getitem parts 3);
             v ← lift (float p3);
             set_iy (Some v)
           else if String.eqb p2 "Z_" then
             p3 ← lift (PyStr.getitem parts 3);
             v ← lift (float p3);
             _ ← set_iz (Some v);
             commit_initial (Some nodenum)
           else mret ());
      set_inodenum (Some nodenum)
    else lift (Err ValueError)).

(** [for line in f: ...]; an exception that the body lets through ends
    the loop and the function. *)
Fixpoint readlines (lines : list string) : M unit :=
  match lines with
  | [] => mret ()
  | line :: lines' => _ ← readline line; readlines lines'
  end.

(** [readscriptfile] on the content of the trace file, one string per
    line; [None] is a file that cannot be opened.  It returns the model and
    the exception that left the function, if any. *)
Definition readscriptfile (self : t) (file : option (list string))
  : t * result unit :=
  match file with
  | None => (self, Ok ())
  | Some lines =>
    let '(self', _, r) :=
      (_ ← readlines lines; commit_pending)
        (self, mkLocals None None None None) in
    (self', r)
  end.

End Reader.
End Ns2ScriptedMobility.

(** ** Vocabulary of the statements *)

Section Vocabulary.
Import BasicRangeModel.

(** *** Distance and link rule *)

(** The distance the specification describes: an absent z counts as 0 on
    its own side. *)
Definition claimed_distance (p1 p2 : point) : R :=
  let '(x1, y1, z1) := p1 in
  let '(x2, y2, z2) := p2 in
  let v1 := default 0%R z1 in
  let v2 := default 0%R z2 in
  sqrt ((x1 - x2) * (x1 - x2) + (y1 - y2) * (y1 - y2)
        + (v1 - v2) * (v1 - v2))%R.

(** What one evaluation of the rule does to a placed pair at distance
    [d]. *)
Definition link_step (st : t) (n1 n2 : NetIf) (d : R) : t :=
  let st0 := add_call st (n1, n2) in
  let a := Z.min n1 n2 in
  let b := Z.max n1 n2 in
  if Rgtb d (range st) then
    if wlan_linked st a b then sendlinkmsg (wlan_unlink st0 a b) a b true
    else st0
  else
    if wlan_linked st a b then st0
    else sendlinkmsg (wlan_link st0 a b) a b false.

(** The events after one evaluation of the pair [(a, b)] at distance
    [d]. *)
Definition link_events (st : t) (a b : NetIf) (d : R) : list LinkData :=
  if Rgtb d (range st) then
    if wlan_linked st a b then mkLinkData DELETE a b :: events st
    else events st
  else
    if wlan_linked st a b then events st
    else mkLinkData ADD a b :: events st.

(** Scenario A: interface 1 at the origin, interface 2 on the x axis,
    range 275. *)
Definition origin : position := (Some 0%R, Some 0%R, None).
Definition on_x_axis (x : R) : position := (Some x, Some 0%R, None).
Definition two_placed (x : R) : gmap Z position :=
  <[2%Z := on_x_axis x]> (<[1%Z := origin]> ∅).
Definition p2_moves (st : t) (x : R) : result t :=
  set_position st 2 (Some x) (Some 0%R) None.
Definition scenario_far : t := mk (two_placed 300) 275 ∅ [] [].

(** *** Batch update *)



(** Node positions for a pass over the two interfaces of scenario A. *)
Definition scenario_positions (n : NetIf) : position :=
  if decide (n = 1%Z) then origin else on_x_axis 200.

(** *** Waypoint queue *)

(** The order of the specification on waypoints: by time, ties by node
    id. *)
Definition WayPoint_le (w1 w2 : WayPointMobility.WayPoint) : Prop :=
  (WayPointMobility.time w1 < WayPointMobility.time w2)%R ∨
  (WayPointMobility.time w1 = WayPointMobility.time w2 ∧
   (WayPointMobility.nodenum w1 ≤ WayPointMobility.nodenum w2)%Z).

(** The arguments of one [addwaypoint] call, and the waypoint it makes. *)
Record addwaypoint_call : Type := mkCall {
  call_time : R;
  call_nodenum : Z;
  call_x : option R;
  call_y : option R;
  call_z : option R;
  call_speed : WayPointMobility.Speed
}.

Definition call_waypoint (c : addwaypoint_call) : WayPointMobility.WayPoint :=
  WayPointMobility.mkWayPoint (call_time c) (call_nodenum c)
    (call_x c, call_y c, call_z c) (call_speed c).

Definition addwaypoints (st : WayPointMobility.t) (cs : list addwaypoint_call)
  : WayPointMobility.t :=
  foldl (fun st c =>
           WayPointMobility.addwaypoint st (call_time c) (call_nodenum c)
             (call_x c) (call_y c) (call_z c) (call_speed c)) st cs.

(** The active-target table after the waypoints [ws] were promoted in
    this order. *)
Definition promote (points : gmap Z WayPointMobility.WayPoint)
    (ws : list WayPointMobility.WayPoint) : gmap Z WayPointMobility.WayPoint :=
  foldl (fun m w => <[WayPointMobility.nodenum w := w]> m) points ws.

(** *** Scheduler and movement *)

(** What [movenodesinitial] leaves alone. *)
Definition frame (st st' : WayPointMobility.t) : Prop :=
  WayPointMobility.state st' = WayPointMobility.state st ∧
  WayPointMobility.queue st' = WayPointMobility.queue st ∧
  WayPointMobility.queue_copy st' = WayPointMobility.queue_copy st ∧
  WayPointMobility.points st' = WayPointMobility.points st ∧
  WayPointMobility.lasttime st' = WayPointMobility.lasttime st ∧
  WayPointMobility.timezero st' = WayPointMobility.timezero st ∧
  WayPointMobility.endtime st' = WayPointMobility.endtime st.

(** A scheduler with an active target for node 7, an empty queue and an
    end time. *)
Definition stale_target : WayPointMobility.WayPoint :=
  WayPointMobility.mkWayPoint 1 7 (Some 5%R, Some 5%R, None)
    (WayPointMobility.Scalar 1).
Definition stale_state : WayPointMobility.t :=
  WayPointMobility.set_endtime
    (WayPointMobility.set_points (WayPointMobility.init [] ∅)
       {[ 7%Z := stale_target ]}) (Some 0%R).

(** The overshoot guard of [movenode] on one axis. *)
Definition guarded (d remaining : R) : R :=
  if Rgtb (Rabs d) (Rabs remaining) then remaining else d.

(** Node 7 at (0, 0) on its way to (5, 5) at speed 1. *)
Definition moving_state : WayPointMobility.t :=
  WayPointMobility.set_lasttime (WayPointMobility.set_timezero
    (WayPointMobility.set_points
       (WayPointMobility.init [(1%Z, 7%Z)] {[ 7%Z := (Some 0%R, Some 0%R, None) ]})
       {[ 7%Z := stale_target ]})
    (Some 0%R)) (Some 1%R).

(** *** Node map and trace *)

(** What the body of the [try] in [parsemap] makes of one entry: the pair
    it adds, or [None] when it raises. *)
Definition parse_entry (entry : string) : option (Z * Z) :=
  match PyStr.split_on ":" entry with
  | [p0; p1] =>
    match PyStr.int p1, PyStr.int p0 with
    | Ok v, Ok k => Some (k, v)
    | _, _ => None
    end
  | _ => None
  end.

(** The table after the pairs were entered in this order. *)
Definition entries_map (m : gmap Z Z) (ps : list (Z * Z)) : gmap Z Z :=
  foldl (fun m p => <[p.1 := p.2]> m) m ps.

(** A scripted model without waypoints and without a node map. *)
Definition empty_model : Ns2ScriptedMobility.t :=
  Ns2ScriptedMobility.mk (WayPointMobility.init [] ∅) ∅.

Definition newline : string := String (ascii_of_nat 10) EmptyString.

(** A scheduled-movement line that stops after ["at"]. *)
Definition short_line : string := "$ns_ at " +:+ newline.

(** Two lines that give node 1 its initial x and y. *)
Definition initial_lines : list string :=
  ["$node_(1) set X_ 10" +:+ newline; "$node_(1) set Y_ 20" +:+ newline].

(** [float] on the strings that are integer literals. *)
Definition float_of_int (s : string) : result R :=
  z ← PyStr.int s; Ok (IZR z).

(** *** Sequences of position reports *)

(** The two ways a position reaches the range model. *)
Inductive command : Type :=
| SetPosition (netif : NetIf) (x y z : option R)
| Update (getposition : NetIf → position) (moved_netifs : list NetIf).

Definition exec (st : t) (c : command) : result t :=
  match c with
  | SetPosition netif x y z => set_position st netif x y z
  | Update getposition moved_netifs =>
    r ← update getposition st moved_netifs; Ok r.1
  end.

Definition run_commands (st : t) (cs : list command) : result t :=
  for_each exec st cs.

(** An [Update] whose list of moved interfaces has no duplicates. *)
Definition duplicate_free (c : command) : Prop :=
  match c with
  | SetPosition _ _ _ _ => True
  | Update _ moved_netifs => NoDup moved_netifs
  end.

Definition pair_of (e : LinkData) : NetIf * NetIf :=
  (interface1 e, interface2 e).

(** The pairs an observer holds linked after the events, the most recent
    first, have reached it. *)
Fixpoint replay (evs : list LinkData) : gset (NetIf * NetIf) :=
  match evs with
  | [] => ∅
  | e :: older =>
    match message_type e with
    | ADD => {[ pair_of e ]} ∪ replay older
    | DELETE => replay older ∖ {[ pair_of e ]}
    end
  end.

(** Every event changes what the observer holds: a link is added only
    for a pair that is not linked, and deleted only for one that is. *)
Fixpoint alternating (evs : list LinkData) : Prop :=
  match evs with
  | [] => True
  | e :: older =>
    alternating older ∧
    match message_type e with
    | ADD => pair_of e ∉ replay older
    | DELETE => pair_of e ∈ replay older
    end
  end.

(** The link table and the events tell the same story, and the table is
    keyed by ordered pairs. *)
Definition consistent (st : t) : Prop :=
  (∀ p, p ∈ replay (events st) ↔ _linked st !! p = Some true) ∧
  alternating (events st) ∧
  (∀ a b v, _linked st !! (a, b) = Some v → (a < b)%Z).

(** The link state agrees with the geometry: two placed interfaces are
    linked exactly when their distance is within the range. *)
Definition agrees (st : t) : Prop :=
  ∀ a b xa ya za xb yb zb,
    a ≠ b →
    _netifs st !! a = Some (Some xa, Some ya, za) →
    _netifs st !! b = Some (Some xb, Some yb, zb) →
    wlan_linked st (Z.min a b) (Z.max a b)
    = negb (Rgtb (calcdistance (xa, ya, za) (xb, yb, zb)) (range st)).

End Vocabulary.

(** ** More scenarios *)

Section Scenarios.
Import WayPointMobility.
Local Open Scope R_scope.

(** Node 7 on its target (5, 5), which it approached at speed 1. *)
Definition arrived_state : t :=
  set_nodepos moving_state {[ 7%Z := (Some 5, Some 5, None) ]}.


End Scenarios.

(** ** The trace reader, statement by statement *)

Section ReaderVocabulary.
Import WayPointMobility Ns2ScriptedMobility.

(** The locals at the start of [readscriptfile]. *)
Definition no_locals : locals := mkLocals None None None None.

(** A line has the fields the reader indexes: eight words on a
    scheduled-movement line, four on an initial-position line. *)
Definition enough_fields (line : string) : Prop :=
  if String.eqb (PyStr.prefix 8 line) "$ns_ at "
  then (8 ≤ length (PyStr.split line))%nat
  else if String.eqb (PyStr.prefix 7 line) "$node_("
  then (4 ≤ length (PyStr.split line))%nat
  else True.

(** What reading a trace leaves alone in the scheduler: everything but
    the queue and the initial positions. *)
Definition reader_frame (b b' : WayPointMobility.t) : Prop :=
  state b' = state b ∧ queue_copy b' = queue_copy b ∧ points b' = points b ∧
  lasttime b' = lasttime b ∧ endtime b' = endtime b ∧ timezero b' = timezero b ∧
  loop b' = loop b ∧ wlan_netifs b' = wlan_netifs b ∧ nodepos b' = nodepos b ∧
  node_events b' = node_events b ∧ wlan_updates b' = wlan_updates b ∧
  mobility_events b' = mobility_events b.

(** A pending initial x or y comes with the node it was read for. *)
Definition pending_named (loc : locals) : Prop :=
  is_Some (ix loc) ∨ is_Some (iy loc) → is_Some (inodenum loc).

(** What holds of the model at every point of [readscriptfile], started
    on [self0]. *)
Definition kept (self0 : Ns2ScriptedMobility.t)
    (s : Ns2ScriptedMobility.t * locals) : Prop :=
  nodemap s.1 = nodemap self0 ∧
  reader_frame (base self0) (base s.1) ∧
  (Heapq.is_heap WayPoint_lt (queue (base self0)) →
   Heapq.is_heap WayPoint_lt (queue (base s.1))).

(** The state of the reader between two lines. *)
Definition reading (self0 : Ns2ScriptedMobility.t)
    (s : Ns2ScriptedMobility.t * locals) : Prop :=
  kept self0 s ∧ pending_named s.2.

(** A statement started in a state with [P] ends in a state with [Q], or
    raises [e] in a state with [E e]. *)
Definition triple {X : Type} (P : Ns2ScriptedMobility.t * locals → Prop)
    (m : M X) (Q : X → Ns2ScriptedMobility.t * locals → Prop)
    (E : exn → Ns2ScriptedMobility.t * locals → Prop) : Prop :=
  ∀ s, P s →
    match m s with
    | (s', Ok x) => Q x s'
    | (s', Err e) => E e s'
    end.

(** The exceptions of the loop body on [line], with the state they
    leave: a [ValueError], what [float] raises, or the [IndexError] of a
    line with too few fields. *)
Definition raised (float : string → result R)
    (self0 : Ns2ScriptedMobility.t) (line : string) (e : exn)
    (s : Ns2ScriptedMobility.t * locals) : Prop :=
  reading self0 s ∧
  (e = ValueError ∨ (∃ str, float str = Err e) ∨
   (e = IndexError ∧ ¬ enough_fields line)).

End ReaderVocabulary.

(** ** WayPointMobility: the rounds *)

(** [runround], [run], [start] and [pause] of [WayPointMobility], on the
    model together with what they read besides.  [self.run] and
    [self.stop] are the methods of [WayPointMobility] itself; the state
    scripts that [Ns2ScriptedMobility] runs after them are not modelled. *)
Module WayPointRun.
Import WayPointMobility.
Local Open Scope R_scope.

(** [clock i] is what call number [i] of [time.time()] returns; [evq]
    holds the delays given to [session.evq.add_event], each for a call of
    [runround], most recent first. *)
Record t : Type := mk {
  model : WayPointMobility.t;
  refresh_ms : Z;
  empty_queue_stop : bool;
  clock : nat → R;
  readings : nat;
  evq : list R
}.

Definition set_model (r : t) (m : WayPointMobility.t) : t :=
  mk m (refresh_ms r) (empty_queue_stop r) (clock r) (readings r) (evq r).

(** [time.time()] *)
Definition time_time (r : t) : R * t :=
  (clock r (readings r),
   mk (model r) (refresh_ms r) (empty_queue_stop r) (clock r)
      (S (readings r)) (evq r)).

(** [self.session.evq.add_event(delay, self.runround)] *)
Definition add_event (r : t) (delay : R) : t :=
  mk (model r) (refresh_ms r) (empty_queue_stop r) (clock r) (readings r)
     (delay :: evq r).

(** [0.001 * self.refresh_ms] *)
Definition period (r : t) : R := 0.001 * IZR (refresh_ms r).

(** The body of [for netif in self.wlan.netifs()] in [runround]. *)
Definition moveround_body (dt : R) (acc : WayPointMobility.t * list Z * list Z)
    (entry : Z * Z) : result (WayPointMobility.t * list Z * list Z) :=
  let '(st, moved, moved_netifs) := acc in
  let '(netif, node) := entry in
  match movenode st node dt with
  | Ok (true, st') => Ok (st', moved ++ [node], moved_netifs ++ [netif])
  | Ok (false, st') => Ok (st', moved, moved_netifs)
  | Err e => Err e
  end.

(** [run] up to its call of [runround]: the clock is set and the nodes
    are at their initial positions. *)
Definition run_entry (r : t) : t :=
  let '(reading, r) := time_time r in
  let m := set_timezero (model r) (Some reading) in
  let m := set_lasttime m (Some (reading - period r)) in
  let m := movenodesinitial m in
  set_model r m.

(** [run], given [runround]. *)
Definition run_with (runround : t → option (result t)) (r : t)
  : option (result t) :=
  match runround (run_entry r) with
  | Some (Ok r) => Some (m ← sendevent (model r); Ok (set_model r m))
  | other => other
  end.

(** [runround]; it calls [run], which calls it back: [fuel] bounds the
    depth of these calls, and [None] is a depth beyond it. *)
Fixpoint runround (fuel : nat) (r : t) : option (result t) :=
  match fuel with
  | O => None
  | S fuel' =>
    match state (model r) with
    | STATE_RUNNING =>
      let t := lasttime (model r) in
      let '(reading, r) := time_time r in
      let r := set_model r (set_lasttime (model r) (Some reading)) in
      match timezero (model r), t with
      | None, _ => Some (Err AttributeError)
      | Some _, None => Some (Err TypeError)
      | Some tz, Some t =>
        let now := reading - tz in
        let dt := reading - t in
        let r := set_model r (updatepoints (model r) now) in
        if decide (size (points (model r)) = 0%nat) then
          match queue (model r) with
          | first :: _ =>
            let nexttime := time first - now in
            let nexttime :=
              if Rgtb nexttime (period r) then nexttime - period r
              else nexttime in
            Some (Ok (add_event r nexttime))
          | [] =>
            if negb (empty_queue_stop r)
            then Some (Ok (add_event r (period r)))
            else
              let '(looping, m) := loopwaypoints (model r) in
              let r := set_model r m in
              if negb looping
              then Some (m ← stop (model r) false; Ok (set_model r m))
              else
                match queue (model r) with
                | [] => Some (Ok r)
                | _ :: _ => run_with (runround fuel') r
                end
          end
        else
          Some (acc ← for_each (moveround_body dt) (model r, [], [])
                        (wlan_netifs (model r));
                let '(m, moved, moved_netifs) := acc in
                let m := set_wlan_updates m
                           ((moved, moved_netifs) :: wlan_updates m) in
                Ok (add_event (set_model r m) (period r)))
      end
    | _ => Some (Ok r)
    end
  end.

Definition run (fuel : nat) (r : t) : option (result t) :=
  run_with (runround fuel) r.

Definition start (fuel : nat) (r : t) : option (result t) :=
  let laststate := state (model r) in
  let r := set_model r (set_state (model r) STATE_RUNNING) in
  match laststate with
  | STATE_PAUSED =>
    let '(now, r) := time_time r in
    match timezero (model r), lasttime (model r) with
    | None, _ => Some (Err AttributeError)
    | Some _, None => Some (Err TypeError)
    | Some tz, Some lt =>
      let m := set_timezero (model r) (Some (tz + (now - lt))) in
      let m := set_lasttime m (Some (now - period r)) in
      runround fuel (set_model r m)
    end
  | _ =>
    let m := snd (loopwaypoints (model r)) in
    let m := set_timezero m (Some 0) in
    let m := set_lasttime m (Some 0) in
    run fuel (set_model r m)
  end.

Definition pause (r : t) : t :=
  let '(now, r) := time_time r in
  set_model r (WayPointMobility.pause (model r) now).

End WayPointRun.

(** ** A running model without waypoints *)

Section RunScenario.
Import WayPointMobility.
Local Open Scope R_scope.

(** A running model on an empty network whose queue is empty, as an ns-3
    model keeps it: the rounds go on every 50 ms; the clock counts the
    readings. *)
Definition idle_runner : WayPointRun.t :=
  WayPointRun.mk
    (set_state (set_lasttime (set_timezero (init [] ∅) (Some 0)) (Some 0))
       STATE_RUNNING)
    50 false INR 0 [].


End RunScenario.

(** * Properties *)

(** ** Results and comparisons *)

Lemma for_each_app {S X : Type} (body : S → X → result S) st xs ys :
  for_each body st (xs ++ ys) = (st' ← for_each body st xs ; for_each body st' ys).
Proof.
  revert st; induction xs as [|x xs IH]; intros st; simpl; [done|].
  destruct (body st x); simpl; auto.
Qed.

Lemma Rgtb_true a b : (a > b)%R → Rgtb a b = true.
Proof. intros H; unfold Rgtb; destruct (Rgt_dec a b); [done | contradiction]. Qed.

Lemma Rgtb_false a b : (a <= b)%R → Rgtb a b = false.
Proof. intros H; unfold Rgtb; destruct (Rgt_dec a b); [lra | done]. Qed.

Lemma Rltb_true a b : (a < b)%R → Rltb a b = true.
Proof. intros H; unfold Rltb; destruct (Rlt_dec a b); [done | contradiction]. Qed.

Lemma Rltb_false a b : (b <= a)%R → Rltb a b = false.
Proof. intros H; unfold Rltb; destruct (Rlt_dec a b); [lra | done]. Qed.

Lemma Reqb_true a b : a = b → Reqb a b = true.
Proof. intros H; unfold Reqb; destruct (Req_dec_T a b); [done | contradiction]. Qed.

Lemma Reqb_false a b : a ≠ b → Reqb a b = false.
Proof. intros H; unfold Reqb; destruct (Req_dec_T a b); [contradiction | done]. Qed.

Lemma Rgtb_spec a b : reflect (a > b)%R (Rgtb a b).
Proof. unfold Rgtb; destruct (Rgt_dec a b); constructor; done. Qed.

Lemma Rltb_spec a b : reflect (a < b)%R (Rltb a b).
Proof. unfold Rltb; destruct (Rlt_dec a b); constructor; done. Qed.

Lemma Reqb_spec a b : reflect (a = b) (Reqb a b).
Proof. unfold Reqb; destruct (Req_dec_T a b); constructor; done. Qed.

(** ** The distance *)

Section Distance.
Import BasicRangeModel.
Local Open Scope R_scope.

Lemma hypot_nonneg a b : 0 <= hypot a b.
Proof. apply sqrt_pos. Qed.

Lemma hypot_hypot a b c :
  hypot (hypot a b) c = sqrt (a * a + b * b + c * c).
Proof.
  unfold hypot. rewrite sqrt_sqrt; [done|]. nra.
Qed.

Lemma calcdistance_sqrt (x1 y1 x2 y2 : R) (z1 z2 : option R) :
  calcdistance (x1, y1, z1) (x2, y2, z2) =
  sqrt ((x1 - x2) * (x1 - x2) + (y1 - y2) * (y1 - y2) +
        match z1, z2 with
        | Some v1, Some v2 => (v1 - v2) * (v1 - v2)
        | _, _ => 0
        end).
Proof.
  unfold calcdistance. rewrite hypot_hypot.
  destruct z1 as [v1|], z2 as [v2|]; f_equal; lra.
Qed.

(** C2, as the code has it: the distance is the square root of the sum of
    the squared differences, where the z difference is taken only when
    both z coordinates are present; when either one is absent the z term
    is 0. *)
Theorem calcdistance_formula (x1 y1 x2 y2 : R) (z1 z2 : option R) :
  calcdistance (x1, y1, z1) (x2, y2, z2) =
  sqrt ((x1 - x2)² + (y1 - y2)² +
        (match z1, z2 with
         | Some v1, Some v2 => v1 - v2
         | _, _ => 0
         end)²).
Proof.
  rewrite calcdistance_sqrt. unfold Rsqr.
  destruct z1, z2; f_equal; lra.
Qed.

(** C2 as stated fails: with z present on one side only, the code drops
    the z term, where the stated formula keeps the present value. *)
Lemma calcdistance_one_sided_z :
  calcdistance (0, 0, Some 3) (0, 0, None) = 0 ∧
  claimed_distance (0, 0, Some 3) (0, 0, None) = 3 ∧
  calcdistance (0, 0, Some 3) (0, 0, None)
    ≠ claimed_distance (0, 0, Some 3) (0, 0, None).
Proof.
  assert (H1 : calcdistance (0, 0, Some 3) (0, 0, None) = 0).
  { rewrite calcdistance_sqrt.
    replace ((0 - 0) * (0 - 0) + (0 - 0) * (0 - 0) + 0) with 0 by lra.
    apply sqrt_0. }
  assert (H2 : claimed_distance (0, 0, Some 3) (0, 0, None) = 3).
  { unfold claimed_distance; simpl.
    replace ((0 - 0) * (0 - 0) + (0 - 0) * (0 - 0) + (3 - 0) * (3 - 0))
      with (3 * 3) by lra.
    apply sqrt_square; lra. }
  rewrite H1, H2. repeat split; lra.
Qed.

(** C9: the distance is symmetric. *)
Theorem calcdistance_sym (A B : point) :
  calcdistance A B = calcdistance B A.
Proof.
  destruct A as [[x1 y1] z1], B as [[x2 y2] z2].
  rewrite !calcdistance_sqrt.
  destruct z1 as [v1|], z2 as [v2|]; f_equal; lra.
Qed.

End Distance.

(** ** The link rule *)

Section LinkRule.
Import BasicRangeModel.
Local Open Scope R_scope.

Lemma calcdistance_comm (A B : point) : calcdistance A B = calcdistance B A.
Proof.
  destruct A as [[x1 y1] z1], B as [[x2 y2] z2].
  rewrite !calcdistance_sqrt.
  destruct z1 as [v1|], z2 as [v2|]; f_equal; lra.
Qed.

Lemma calclink_placed st n1 n2 x1 y1 z1 x2 y2 z2 :
  n1 ≠ n2 →
  _netifs st !! n1 = Some (Some x1, Some y1, z1) →
  _netifs st !! n2 = Some (Some x2, Some y2, z2) →
  calclink st n1 n2
  = Ok (link_step st n1 n2 (calcdistance (x1, y1, z1) (x2, y2, z2))).
Proof.
  intros Hne H1 H2. unfold calclink, link_step.
  destruct (decide (n1 = n2)) as [|_]; [done|].
  cbn [_netifs add_call range]. rewrite H1, H2.
  change (wlan_linked (add_call st (n1, n2))) with (wlan_linked st).
  destruct (Rgtb _ _), (wlan_linked st _ _); reflexivity.
Qed.

Lemma calclink_same st n : calclink st n n = Ok (add_call st (n, n)).
Proof. unfold calclink. destruct (decide (n = n)); done. Qed.

Lemma calclink_unknown st n1 n2 :
  _netifs st !! n1 = None ∨ _netifs st !! n2 = None →
  calclink st n1 n2 = Ok (add_call st (n1, n2)).
Proof.
  intros H. unfold calclink. destruct (decide (n1 = n2)); [done|].
  cbn [_netifs add_call].
  destruct H as [-> | ->]; [done|].
  destruct (_netifs st !! n1) as [[[??]?]|]; done.
Qed.

Lemma link_step_netifs st n1 n2 d : _netifs (link_step st n1 n2 d) = _netifs st.
Proof. unfold link_step. destruct (Rgtb _ _), (wlan_linked _ _ _); done. Qed.

Lemma link_step_range st n1 n2 d : range (link_step st n1 n2 d) = range st.
Proof. unfold link_step. destruct (Rgtb _ _), (wlan_linked _ _ _); done. Qed.

Lemma link_step_calls st n1 n2 d :
  calls (link_step st n1 n2 d) = (n1, n2) :: calls st.
Proof. unfold link_step. destruct (Rgtb _ _), (wlan_linked _ _ _); done. Qed.

Lemma wlan_linked_unlink st a b : wlan_linked (wlan_unlink st a b) a b = false.
Proof. unfold wlan_linked, wlan_unlink; cbn. by rewrite lookup_insert_eq. Qed.

Lemma wlan_linked_link st a b : wlan_linked (wlan_link st a b) a b = true.
Proof. unfold wlan_linked, wlan_link; cbn. by rewrite lookup_insert_eq. Qed.

(** After one evaluation the pair is linked exactly when it is in range. *)
Lemma link_step_linked st n1 n2 d :
  wlan_linked (link_step st n1 n2 d) (Z.min n1 n2) (Z.max n1 n2)
  = negb (Rgtb d (range st)).
Proof.
  unfold link_step.
  destruct (Rgtb d (range st)) eqn:Hd, (wlan_linked st _ _) eqn:Hl; cbn [negb].
  - apply (wlan_linked_unlink (add_call st (n1, n2))).
  - exact Hl.
  - exact Hl.
  - apply (wlan_linked_link (add_call st (n1, n2))).
Qed.

Lemma link_step_stable st n1 n2 d :
  wlan_linked st (Z.min n1 n2) (Z.max n1 n2) = negb (Rgtb d (range st)) →
  link_step st n1 n2 d = add_call st (n1, n2).
Proof.
  intros H. unfold link_step. rewrite H. by destruct (Rgtb d (range st)).
Qed.

(** C1: one evaluation of the link rule on a placed pair emits at most
    one event, and exactly when the threshold is crossed: an unlink event
    when the pair is linked and out of range, a link event when it is not
    linked and in range, nothing otherwise; the pair is then linked
    exactly when in range, other pairs keep their state, and evaluating
    the pair again, in either order, emits nothing and changes no link. *)
Theorem calclink_threshold_rule st n1 n2 x1 y1 z1 x2 y2 z2 :
  n1 ≠ n2 →
  _netifs st !! n1 = Some (Some x1, Some y1, z1) →
  _netifs st !! n2 = Some (Some x2, Some y2, z2) →
  let d := calcdistance (x1, y1, z1) (x2, y2, z2) in
  let a := Z.min n1 n2 in
  let b := Z.max n1 n2 in
  ∃ st', calclink st n1 n2 = Ok st' ∧
    _netifs st' = _netifs st ∧ range st' = range st ∧
    (d > range st → wlan_linked st a b = true →
       events st' = mkLinkData DELETE a b :: events st ∧
       wlan_linked st' a b = false) ∧
    (d <= range st → wlan_linked st a b = false →
       events st' = mkLinkData ADD a b :: events st ∧
       wlan_linked st' a b = true) ∧
    (d > range st → wlan_linked st a b = false →
       events st' = events st ∧ _linked st' = _linked st) ∧
    (d <= range st → wlan_linked st a b = true →
       events st' = events st ∧ _linked st' = _linked st) ∧
    (∀ p, p ≠ (a, b) → _linked st' !! p = _linked st !! p) ∧
    (∀ m1 m2, (m1 = n1 ∧ m2 = n2) ∨ (m1 = n2 ∧ m2 = n1) →
       ∃ st'', calclink st' m1 m2 = Ok st'' ∧
         events st'' = events st' ∧ _linked st'' = _linked st').
Proof.
  intros Hne H1 H2 d a b.
  exists (link_step st n1 n2 d). split; [by apply calclink_placed|].
  split; [apply link_step_netifs|]. split; [apply link_step_range|].
  assert (Hstep := eq_refl (link_step st n1 n2 d)).
  unfold link_step at 2 in Hstep. fold a b in Hstep.
  split; [|split; [|split; [|split; [|split]]]].
  - intros Hd Hl. rewrite Hstep, Rgtb_true, Hl by done.
    split; [done|]. apply (wlan_linked_unlink (add_call st (n1, n2))).
  - intros Hd Hl. rewrite Hstep, Rgtb_false, Hl by done.
    split; [done|]. apply (wlan_linked_link (add_call st (n1, n2))).
  - intros Hd Hl. rewrite Hstep, Rgtb_true, Hl by done. done.
  - intros Hd Hl. rewrite Hstep, Rgtb_false, Hl by done. done.
  - intros p Hp. rewrite Hstep.
    destruct (Rgtb d (range st)), (wlan_linked st a b); cbn;
      rewrite ?lookup_insert_ne; done.
  - intros m1 m2 Hm.
    set (st' := link_step st n1 n2 d).
    assert (Hl : wlan_linked st' a b = negb (Rgtb d (range st')))
      by (unfold st'; rewrite link_step_range; apply link_step_linked).
    assert (G1 : _netifs st' !! n1 = Some (Some x1, Some y1, z1))
      by (unfold st'; by rewrite link_step_netifs).
    assert (G2 : _netifs st' !! n2 = Some (Some x2, Some y2, z2))
      by (unfold st'; by rewrite link_step_netifs).
    destruct Hm as [[-> ->] | [-> ->]].
    + exists (add_call st' (n1, n2)). split; [|done].
      rewrite (calclink_placed st' n1 n2 x1 y1 z1 x2 y2 z2) by done.
      f_equal. by apply link_step_stable.
    + exists (add_call st' (n2, n1)). split; [|done].
      rewrite (calclink_placed st' n2 n1 x2 y2 z2 x1 y1 z1) by done.
      f_equal. apply link_step_stable.
      rewrite Z.min_comm, Z.max_comm, calcdistance_comm. exact Hl.
Qed.

End LinkRule.

Section ScenarioA.
Import BasicRangeModel.
Local Open Scope R_scope.

Lemma distance_on_x_axis (x1 x2 : R) :
  x1 <= x2 → calcdistance (x1, 0, None) (x2, 0, None) = x2 - x1.
Proof.
  intros H. rewrite calcdistance_sqrt.
  replace ((x1 - x2) * (x1 - x2) + (0 - 0) * (0 - 0) + 0)
    with ((x2 - x1) * (x2 - x1)) by lra.
  apply sqrt_square. lra.
Qed.

Lemma calclink_threshold_rule_witness :
  ∃ st', calclink scenario_far 2 1 = Ok st' ∧ events st' = [] ∧
         wlan_linked st' 1 2 = false.
Proof.
  destruct (calclink_threshold_rule scenario_far 2 1 300 0 None 0 0 None)
    as (st' & Hc & _ & _ & _ & _ & Hfar & _); [done|reflexivity|reflexivity|].
  exists st'. split; [exact Hc|].
  destruct Hfar as [He Hl].
  - rewrite calcdistance_comm, distance_on_x_axis by lra. cbn. lra.
  - reflexivity.
  - split; [rewrite He; reflexivity|].
    unfold wlan_linked. change (Z.min 2 1, Z.max 2 1) with (1%Z, 2%Z) in *.
    by rewrite Hl.
Defined.

Lemma keys_two_placed x rng l e c :
  keys (mk (two_placed x) rng l e c) = [2%Z; 1%Z].
Proof. vm_compute. reflexivity. Qed.

Lemma two_placed_again x0 x : <[2%Z := on_x_axis x]> (two_placed x0) = two_placed x.
Proof. unfold two_placed. by rewrite insert_insert_eq. Qed.

Lemma link_step_events st n1 n2 d :
  events (link_step st n1 n2 d) = link_events st (Z.min n1 n2) (Z.max n1 n2) d.
Proof.
  unfold link_step, link_events.
  by destruct (Rgtb d (range st)), (wlan_linked st _ _).
Qed.

Lemma second_pass st x :
  0 <= x →
  <[2%Z := on_x_axis x]> (_netifs st) = two_placed x →
  for_each (fun st0 netif2 => calclink st0 2 netif2)
    (set_netifs st (two_placed x)) (keys (set_netifs st (two_placed x)))
  = Ok (link_step (add_call (set_netifs st (two_placed x)) (2, 2)%Z) 2 1 x).
Proof.
  intros Hx Hst. 
  unfold set_netifs at 2. rewrite keys_two_placed.
  cbn [for_each]. rewrite calclink_same. cbn [mbind result_bind].
  rewrite (calclink_placed _ 2 1 x 0 None 0 0 None); [|done|reflexivity|reflexivity].
  cbn [mbind result_bind]. 
  rewrite calcdistance_comm, distance_on_x_axis by done.
  by rewrite Rminus_0_r.
Qed.

Lemma second_pass_result st x :
  let st' := link_step (add_call (set_netifs st (two_placed x)) (2, 2)%Z) 2 1 x in
  _netifs st' = two_placed x ∧ range st' = range st ∧
    wlan_linked st' 1 2 = negb (Rgtb x (range st)) ∧
    events st' = link_events st 1 2 x.
Proof.
  intros st'. unfold st'. 
  rewrite link_step_netifs, link_step_range, link_step_events.
  split; [done|]. split; [done|]. split; [|done].
  apply (link_step_linked (add_call (set_netifs st (two_placed x)) (2, 2)%Z) 2 1 x).
Qed.

Lemma p2_moves_spec st x :
  0 <= x →
  <[2%Z := on_x_axis x]> (_netifs st) = two_placed x →
  ∃ st', p2_moves st x = Ok st' ∧
    _netifs st' = two_placed x ∧ range st' = range st ∧
    wlan_linked st' 1 2 = negb (Rgtb x (range st)) ∧
    events st' = link_events st 1 2 x.
Proof.
  intros Hx Hst. eexists. split; [|apply second_pass_result].
  unfold p2_moves, set_position. fold (on_x_axis x). rewrite Hst.
  by apply second_pass.
Qed.

Lemma update_p2_spec st x :
  0 <= x →
  _netifs st = two_placed x →
  ∃ st', update (fun _ => on_x_axis x) st [2%Z] = Ok (st', []) ∧
    _netifs st' = two_placed x ∧ range st' = range st ∧
    wlan_linked st' 1 2 = negb (Rgtb x (range st)) ∧
    events st' = link_events st 1 2 x.
Proof.
  intros Hx Hst. eexists. split; [|apply second_pass_result].
  unfold update. cbn [length update_loop pop last removelast].
  unfold update_body. rewrite Hst.
  destruct (decide _) as [_|[]]; [|by eexists].
  rewrite two_placed_again.
  cbn [mbind result_bind].
  replace (for_each _ _ _) with (for_each (fun st0 netif2 => calclink st0 2 netif2)
    (set_netifs st (two_placed x)) (keys (set_netifs st (two_placed x)))).
  - rewrite second_pass; [done|done|]. rewrite Hst. apply two_placed_again.
  - unfold set_netifs at 2 4. rewrite keys_two_placed. reflexivity.
Qed.

(** Scenario A of C1: with range 275, P1 at the origin and P2 at
    (300, 0) there is no link and no event; moving P2 to (200, 0) emits
    exactly one link event, moving it to (400, 0) exactly one unlink event,
    and repeating the last placement, through [set_position] or through
    [update], emits nothing more. *)
Lemma scenario_A :
  ∃ s1 s2 s3 s4 s5 s6,
    set_position (init 275) 1 (Some 0) (Some 0) None = Ok s1 ∧
    p2_moves s1 300 = Ok s2 ∧ events s2 = [] ∧
    p2_moves s2 200 = Ok s3 ∧ events s3 = [mkLinkData ADD 1 2] ∧
    p2_moves s3 400 = Ok s4 ∧
    events s4 = [mkLinkData DELETE 1 2; mkLinkData ADD 1 2] ∧
    p2_moves s4 400 = Ok s5 ∧ events s5 = events s4 ∧
    update (fun _ => on_x_axis 400) s5 [2%Z] = Ok (s6, []) ∧
    events s6 = events s4.
Proof.
  set (s1 := add_call (set_netifs (init 275) (<[1%Z := origin]> ∅)) (1, 1)%Z).
  destruct (p2_moves_spec s1 300) as (s2 & M2 & N2 & R2 & L2 & E2);
    [lra | reflexivity |].
  destruct (p2_moves_spec s2 200) as (s3 & M3 & N3 & R3 & L3 & E3);
    [lra | rewrite N2; apply two_placed_again |].
  destruct (p2_moves_spec s3 400) as (s4 & M4 & N4 & R4 & L4 & E4);
    [lra | rewrite N3; apply two_placed_again |].
  destruct (p2_moves_spec s4 400) as (s5 & M5 & N5 & R5 & L5 & E5);
    [lra | rewrite N4; apply two_placed_again |].
  destruct (update_p2_spec s5 400) as (s6 & M6 & N6 & R6 & L6 & E6);
    [lra | done |].
  rewrite R5, R4, R3, R2 in *. change (range s1) with 275 in *.
  unfold link_events in *. rewrite R5, R4, R3, R2 in *. change (range s1) with 275 in *.
  rewrite (Rgtb_true 300), (Rgtb_true 400), (Rgtb_false 200) in * by lra.
  cbn [negb] in *. 
  change (wlan_linked s1 1 2) with false in E2.
  rewrite L2 in E3. rewrite L3 in E4. rewrite L4 in E5. rewrite L5 in E6.
  exists s1, s2, s3, s4, s5, s6.
  rewrite E6, E5, E4, E3, E2. done.
Qed.

End ScenarioA.

(** ** The batch update *)

Section BatchUpdate.
Import BasicRangeModel.

Lemma pop_Some {A} (l r : list A) x : pop l = Some (x, r) ↔ l = r ++ [x].
Proof.
  unfold pop. split.
  - destruct (last l) eqn:E; [|done]. intros [= <- <-].
    apply last_Some in E as [l' ->]. by rewrite removelast_last.
  - intros ->. by rewrite last_snoc, removelast_last.
Qed.

Lemma pop_None {A} (l : list A) : pop l = None ↔ l = [].
Proof.
  unfold pop. destruct (last l) eqn:E.
  - split; [done|]. intros ->. done.
  - split; [|done]. intros _. by apply last_None.
Qed.

Lemma calclink_Ok st a b st' :
  calclink st a b = Ok st' →
  calls st' = (a, b) :: calls st ∧ _netifs st' = _netifs st.
Proof.
  unfold calclink. intros H.
  repeat (case_match; simplify_eq/=; try done).
Qed.

(** [calclink] raises only when its first interface is in the table
    without an x or a y. *)
Lemma calclink_total st a b :
  (∀ p, _netifs st !! a = Some p → is_Some (placed p)) →
  ∃ st', calclink st a b = Ok st'.
Proof.
  intros Hp. unfold calclink.
  destruct (decide (a = b)); [by eexists|]. cbn [_netifs add_call].
  destruct (_netifs st !! a) as [[[x y] z]|] eqn:Ea; [|by eexists].
  destruct (Hp _ eq_refl) as [q Hq].
  destruct x as [x|], y as [y|]; try done.
  destruct (_netifs st !! b) as [[[[x2|] [y2|]] z2]|]; try by eexists.
  destruct (Rgtb _ _), (wlan_linked _ _ _); by eexists.
Qed.


Lemma pass_total n rest ks : ∀ st,
  (∀ p, _netifs st !! n = Some p → is_Some (placed p)) →
  ∃ st', for_each (update_pair n rest) st ks = Ok st'.
Proof.
  induction ks as [|k ks IH]; intros st Hp; [by eexists|].
  cbn [for_each].
  assert (H1 : ∃ st1, update_pair n rest st k = Ok st1 ∧ _netifs st1 = _netifs st).
  { unfold update_pair. destruct (decide (k ∈ rest)); [by eexists|].
    destruct (calclink_total st n k Hp) as [st1 H1]. exists st1.
    split; [done|]. by apply calclink_Ok in H1 as [_ ->]. }
  destruct H1 as (st1 & -> & Hn). cbn [mbind result_bind].
  apply IH. by rewrite Hn.
Qed.

Lemma elem_of_keys st k : k ∈ keys st ↔ k ∈ dom (_netifs st).
Proof.
  unfold keys. rewrite elem_of_dom, list_elem_of_fmap. split.
  - intros [[k' p] [-> Hin]]. apply elem_of_map_to_list in Hin. by eexists.
  - intros [p Hp]. exists (k, p). split; [done|]. by apply elem_of_map_to_list.
Qed.

Lemma NoDup_keys st : NoDup (keys st).
Proof. apply NoDup_fst_map_to_list. Qed.


Lemma update_body_total gp st n rest :
  is_Some (placed (gp n)) →
  ∃ st', update_body gp st n rest = Ok st'.
Proof.
  intros Hp. unfold update_body.
  apply pass_total. destruct (decide (is_Some (_netifs st !! n))) as [Hs|Hs].
  - cbn. rewrite lookup_insert_eq. by intros p [= <-].
  - intros p Hp'. destruct Hs. by eexists.
Qed.


Lemma update_loop_total gp : ∀ fuel moved st,
  length moved ≤ fuel →
  (∀ n, n ∈ moved → is_Some (placed (gp n))) →
  ∃ st', update_loop fuel gp st moved = Ok (st', []).
Proof.
  induction fuel as [|fuel IH]; intros moved st Hlen Hp.
  - destruct moved; [|simpl in Hlen; lia]. by eexists.
  - cbn [update_loop]. destruct (pop moved) as [[n r]|] eqn:Hpop.
    + apply pop_Some in Hpop as ->.
      destruct (update_body_total gp st n r) as [st1 H1]; [apply Hp; set_solver|].
      rewrite H1. cbn. apply IH.
      * rewrite length_app in Hlen. simpl in Hlen. lia.
      * intros k Hk. apply Hp. set_solver.
    + apply pop_None in Hpop as ->. by eexists.
Qed.

Lemma update_loop_rest gp : ∀ fuel moved st st' rest,
  length moved ≤ fuel →
  update_loop fuel gp st moved = Ok (st', rest) → rest = [].
Proof.
  induction fuel as [|fuel IH]; intros moved st st' rest Hlen Hrun.
  - destruct moved; [|simpl in Hlen; lia]. by simplify_eq/=.
  - cbn [update_loop] in Hrun. destruct (pop moved) as [[n r]|] eqn:Hpop.
    + apply pop_Some in Hpop as ->.
      destruct (update_body gp st n r) as [st1|]; [|done].
      cbn [mbind result_bind] in Hrun.
      rewrite length_app in Hlen. simpl in Hlen.
      apply IH in Hrun; [done|lia].
    + apply pop_None in Hpop as ->. by simplify_eq/=.
Qed.



(** C10: [update] pops every element off the list it is given: when it
    returns, the list is empty, and it does return when the moved nodes
    have x and y coordinates. *)
Theorem update_consumes_moved gp st moved :
  (∀ st' rest, update gp st moved = Ok (st', rest) → rest = []) ∧
  ((∀ n, n ∈ moved → is_Some (placed (gp n))) →
   ∃ st', update gp st moved = Ok (st', [])).
Proof.
  split.
  - intros st' rest H. by apply update_loop_rest in H.
  - intros Hp. by apply update_loop_total.
Qed.

Lemma update_consumes_moved_witness :
  ∃ st', update scenario_positions scenario_far [1%Z; 2%Z] = Ok (st', []).
Proof.
  apply (update_consumes_moved scenario_positions scenario_far [1%Z; 2%Z]).
  intros n Hn. unfold scenario_positions.
  destruct (decide (n = 1%Z)); cbn; eauto.
Defined.






(** A consequence of C10 for the caller: [updatewlans] hands the one list
    to every model, so only the first model of a round sees the moved
    interfaces; a second model is left as it was. *)
Lemma updatewlans_second_model_idle gp m1 m2 moved m1' rest :
  update gp m1 moved = Ok (m1', rest) →
  MobilityManager.updatewlans gp [m1; m2] moved = Ok ([m1'; m2], []).
Proof.
  intros H. assert (Hr : rest = []) by (by apply update_loop_rest in H).
  subst rest. cbn [MobilityManager.updatewlans]. rewrite H. reflexivity.
Qed.

End BatchUpdate.

(** ** The binary heap *)

Section Indices.
Import Heapq.

Lemma parent_lt i : (0 < i)%nat → (parent i < i)%nat.
Proof.
  intros Hi. unfold parent.
  assert (H := Nat.div_mod_eq (i - 1) 2). lia.
Qed.

Lemma parent_left p : parent (2 * p + 1) = p.
Proof.
  unfold parent. replace (2 * p + 1 - 1)%nat with (p * 2)%nat by lia.
  apply Nat.div_mul. done.
Qed.

Lemma parent_right p : parent (2 * p + 1 + 1) = p.
Proof.
  unfold parent. replace (2 * p + 1 + 1 - 1)%nat with (1 + p * 2)%nat by lia.
  rewrite Nat.div_add by done. done.
Qed.

Lemma child_of_parent i :
  (0 < i)%nat → i = (2 * parent i + 1)%nat ∨ i = (2 * parent i + 1 + 1)%nat.
Proof.
  intros Hi. unfold parent.
  assert (H := Nat.div_mod_eq (i - 1) 2).
  assert (H2 := Nat.mod_upper_bound (i - 1) 2). lia.
Qed.

End Indices.

Section Swap.
Context {A : Type}.

Lemma insert_head_swap (t : list A) : ∀ j x y,
  (j < length t)%nat → y :: <[j := x]> t ≡ₚ x :: <[j := y]> t.
Proof.
  induction t as [|a t IH]; intros j x y Hj; [simpl in Hj; lia|].
  destruct j as [|j]; simpl.
  - apply perm_swap.
  - simpl in Hj. rewrite (perm_swap a y), (perm_swap a x).
    apply perm_skip, IH. lia.
Qed.

Lemma insert_swap (h : list A) : ∀ i j x y,
  i ≠ j → (i < length h)%nat → (j < length h)%nat →
  <[j := x]> (<[i := y]> h) ≡ₚ <[i := x]> (<[j := y]> h).
Proof.
  induction h as [|a h IH]; intros i j x y Hij Hi Hj; [simpl in Hi; lia|].
  destruct i as [|i], j as [|j]; simpl in *; try done.
  - apply insert_head_swap. lia.
  - symmetry. apply insert_head_swap. lia.
  - apply perm_skip, IH; lia.
Qed.

(** Writing [y], the item at [j], to [i] and then [x] to [j] permutes the
    list where [x] is written to [i]. *)
Lemma insert_move (h : list A) i j x y :
  i ≠ j → (i < length h)%nat → h !! j = Some y →
  <[j := x]> (<[i := y]> h) ≡ₚ <[i := x]> h.
Proof.
  intros Hij Hi Hj.
  rewrite <- (list_insert_id h j y) at 2 by done.
  apply insert_swap; [done..|]. by apply lookup_lt_Some in Hj.
Qed.

End Swap.

Section HeapOrder.
Import Heapq.
Context {A : Type} (lt : A → A → bool).
Hypothesis lt_asym : ∀ x y, lt x y = true → lt y x = false.
Hypothesis le_trans : ∀ x y z, le lt x y → le lt y z → le lt x z.

Lemma heap_le_refl x : le lt x x.
Proof.
  unfold le. destruct (lt x x) eqn:E; [|done]. by rewrite (lt_asym _ _ E) in E.
Qed.

Lemma heap_lt_le x y : lt x y = true → le lt x y.
Proof. apply lt_asym. Qed.

Lemma is_heap_nil : is_heap lt [].
Proof. intros i x p _ Hx. done. Qed.

(** The root is a least item. *)
Lemma is_heap_root h r :
  is_heap lt h → h !! 0%nat = Some r → ∀ i x, h !! i = Some x → le lt r x.
Proof.
  intros Hh Hr i. induction i as [i IH] using lt_wf_ind. intros x Hx.
  destruct (decide (i = 0%nat)) as [->|Hi].
  - simplify_eq. apply heap_le_refl.
  - assert (Hp : (parent i < i)%nat) by (apply parent_lt; lia).
    destruct (lookup_lt_is_Some_2 h (parent i)) as [p Hpp].
    { apply lookup_lt_Some in Hx. lia. }
    apply le_trans with p; [by apply (IH (parent i))|].
    apply (Hh i); [lia|done..].
Qed.

Lemma place_heap h pos newitem :
  hole_rising lt h pos newitem →
  (pos = 0%nat ∨ ∃ p, h !! parent pos = Some p ∧ le lt p newitem) →
  is_heap lt (<[pos := newitem]> h).
Proof.
  intros [Hb Ha Hbelow Hacross] Hup i x p Hi Hx Hp.
  destruct (decide (i = pos)) as [->|Hne].
  - rewrite list_lookup_insert_eq in Hx by done. simplify_eq.
    rewrite list_lookup_insert_ne in Hp by (apply parent_lt in Hi; lia).
    destruct Hup as [->|(q & Hq & Hle)]; [lia|]. by simplify_eq.
  - rewrite list_lookup_insert_ne in Hx by done.
    destruct (decide (parent i = pos)) as [E|Hnp].
    + rewrite E, list_lookup_insert_eq in Hp by done. simplify_eq.
      by apply (Hbelow i).
    + rewrite list_lookup_insert_ne in Hp by done. by apply (Ha i).
Qed.

Lemma rising_step h pos newitem q :
  hole_rising lt h pos newitem → (0 < pos)%nat →
  h !! parent pos = Some q → lt newitem q = true →
  hole_rising lt (<[pos := q]> h) (parent pos) newitem.
Proof.
  intros [Hb Ha Hbelow Hacross] Hpos Hq Hlt.
  assert (Hpp := parent_lt pos Hpos).
  split.
  - rewrite length_insert. lia.
  - intros i x p Hi Hne Hnp Hx Hp.
    destruct (decide (i = pos)) as [->|Hip]; [done|].
    rewrite list_lookup_insert_ne in Hx by done.
    destruct (decide (parent i = pos)) as [E|Hnpp].
    + rewrite E, list_lookup_insert_eq in Hp by done. simplify_eq.
      by apply (Hacross i).
    + rewrite list_lookup_insert_ne in Hp by done. by apply (Ha i).
  - intros c x Hc Hpc Hx.
    destruct (decide (c = pos)) as [->|Hcp].
    + rewrite list_lookup_insert_eq in Hx by done. simplify_eq.
      by apply heap_lt_le.
    + rewrite list_lookup_insert_ne in Hx by done.
      apply le_trans with q; [by apply heap_lt_le|].
      apply (Ha c); [done|done|lia|done|by rewrite Hpc].
  - intros c x g Hc Hpc Hppos Hx Hg.
    assert (Hgp := parent_lt _ Hppos).
    rewrite list_lookup_insert_ne in Hg by lia.
    assert (Hqg : le lt g q).
    { apply (Ha (parent pos)); [done|lia|lia|done|done]. }
    destruct (decide (c = pos)) as [->|Hcp].
    + rewrite list_lookup_insert_eq in Hx by done. by simplify_eq.
    + rewrite list_lookup_insert_ne in Hx by done.
      apply le_trans with q; [done|].
      apply (Ha c); [done|done|lia|done|by rewrite Hpc].
Qed.

Lemma siftdown_loop_heap newitem : ∀ fuel h pos,
  (pos ≤ fuel)%nat → hole_rising lt h pos newitem →
  is_heap lt (siftdown_loop lt fuel h 0 pos newitem).
Proof.
  induction fuel as [|fuel IH]; intros h pos Hfuel Hinv.
  - apply place_heap; [done|]. left. lia.
  - cbn [siftdown_loop]. destruct (decide (0 < pos)%nat) as [Hpos|Hpos].
    + assert (Hpp := parent_lt pos Hpos).
      destruct (lookup_lt_is_Some_2 h (parent pos)) as [q Hq].
      { destruct Hinv. lia. }
      change ((pos - 1) / 2)%nat with (parent pos). rewrite Hq.
      destruct (lt newitem q) eqn:Hlt.
      * apply IH; [lia|]. by apply rising_step.
      * apply place_heap; [done|]. right. by exists q.
    + apply place_heap; [done|]. left. lia.
Qed.

Lemma siftdown_loop_perm newitem : ∀ fuel h pos,
  (pos < length h)%nat →
  siftdown_loop lt fuel h 0 pos newitem ≡ₚ <[pos := newitem]> h.
Proof.
  induction fuel as [|fuel IH]; intros h pos Hpos; [done|].
  cbn [siftdown_loop]. destruct (decide (0 < pos)%nat) as [H0|H0]; [|done].
  assert (Hpp := parent_lt pos H0).
  change ((pos - 1) / 2)%nat with (parent pos).
  destruct (h !! parent pos) as [q|] eqn:Hq; [|done].
  destruct (lt newitem q); [|done].
  rewrite IH by (rewrite length_insert; lia).
  apply insert_move; [lia|done|done].
Qed.

Lemma siftdown_heap h pos newitem :
  h !! pos = Some newitem → hole_rising lt h pos newitem →
  is_heap lt (_siftdown lt h 0 pos) ∧ _siftdown lt h 0 pos ≡ₚ h.
Proof.
  intros Hn Hinv. unfold _siftdown. rewrite Hn. split.
  - by apply siftdown_loop_heap.
  - rewrite siftdown_loop_perm by (by destruct Hinv).
    by rewrite list_insert_id.
Qed.

Lemma heappush_heap h item :
  is_heap lt h →
  is_heap lt (heappush lt h item) ∧ heappush lt h item ≡ₚ item :: h.
Proof.
  intros Hh. unfold heappush.
  destruct (siftdown_heap (h ++ [item]) (length h) item) as [H1 H2].
  - by rewrite lookup_app_r, Nat.sub_diag.
  - split.
    + rewrite length_app. simpl. lia.
    + intros i x p Hi Hne Hnp Hx Hp.
      assert (i < length h)%nat.
      { apply lookup_lt_Some in Hx. rewrite length_app in Hx. simpl in Hx. lia. }
      assert (Hpi := parent_lt i Hi).
      rewrite lookup_app_l in Hx, Hp by lia. by apply (Hh i).
    + intros c x Hc Hpc Hx. apply lookup_lt_Some in Hx.
      rewrite length_app in Hx. simpl in Hx.
      destruct (child_of_parent c Hc); lia.
    + intros c x g Hc Hpc _ Hx _. apply lookup_lt_Some in Hx.
      rewrite length_app in Hx. simpl in Hx.
      destruct (child_of_parent c Hc); lia.
  - split; [done|]. rewrite H2. by rewrite Permutation_app_comm.
Qed.

Lemma smaller_child h pos :
  (2 * pos + 1 < length h)%nat →
  let m := match h !! (2 * pos + 1)%nat, h !! (2 * pos + 1 + 1)%nat with
           | Some l, Some r =>
             if negb (lt l r) then (2 * pos + 1 + 1)%nat else (2 * pos + 1)%nat
           | _, _ => (2 * pos + 1)%nat
           end in
  ∃ c, h !! m = Some c ∧ parent m = pos ∧ (pos < m)%nat ∧
    ∀ s x, (0 < s)%nat → parent s = pos → h !! s = Some x → le lt c x.
Proof.
  intros Hlen. destruct (lookup_lt_is_Some_2 h _ Hlen) as [l Hl]. rewrite Hl.
  assert (Hcases : ∀ s, (0 < s)%nat → parent s = pos →
            s = (2 * pos + 1)%nat ∨ s = (2 * pos + 1 + 1)%nat).
  { intros s Hs <-. by apply child_of_parent. }
  destruct (h !! (2 * pos + 1 + 1)%nat) as [r|] eqn:Hr.
  - destruct (lt l r) eqn:Hlr; cbn [negb].
    + exists l. split; [done|]. split; [apply parent_left|]. split; [lia|].
      intros s x Hs Hps Hx. destruct (Hcases s Hs Hps) as [-> | ->]; simplify_eq.
      * apply heap_le_refl.
      * by apply heap_lt_le.
    + exists r. split; [done|]. split; [apply parent_right|]. split; [lia|].
      intros s x Hs Hps Hx. destruct (Hcases s Hs Hps) as [-> | ->]; simplify_eq.
      * exact Hlr.
      * apply heap_le_refl.
  - exists l. split; [done|]. split; [apply parent_left|]. split; [lia|].
    intros s x Hs Hps Hx. destruct (Hcases s Hs Hps) as [-> | ->]; simplify_eq.
    apply heap_le_refl.
Qed.

Lemma sinking_step h pos m c :
  hole_sinking lt h pos →
  h !! m = Some c → parent m = pos → (pos < m)%nat →
  (∀ s x, (0 < s)%nat → parent s = pos → h !! s = Some x → le lt c x) →
  hole_sinking lt (<[pos := c]> h) m.
Proof.
  intros [Hb Ha Hacross] Hm Hpm Hlt Hmin. split.
  - rewrite length_insert. by apply lookup_lt_Some in Hm.
  - intros i x p Hi Hne Hnp Hx Hp.
    destruct (decide (i = pos)) as [->|Hip].
    + rewrite list_lookup_insert_eq in Hx by done. simplify_eq.
      rewrite list_lookup_insert_ne in Hp by (apply parent_lt in Hi; lia).
      apply (Hacross m); [lia|done|done|done|done].
    + rewrite list_lookup_insert_ne in Hx by done.
      destruct (decide (parent i = pos)) as [E|Hnpp].
      * rewrite E, list_lookup_insert_eq in Hp by done. simplify_eq.
        by apply (Hmin i).
      * rewrite list_lookup_insert_ne in Hp by done. by apply (Ha i).
  - intros s x g Hs Hps _ Hx Hg.
    assert (Hsm := parent_lt s Hs).
    rewrite list_lookup_insert_ne in Hx by lia.
    rewrite Hpm, list_lookup_insert_eq in Hg by done. injection Hg as <-.
    apply (Ha s); [done|lia|lia|done|by rewrite Hps].
Qed.

Lemma siftup_loop_spec : ∀ fuel h pos,
  (length h ≤ fuel + pos)%nat → hole_sinking lt h pos →
  ∃ h' pos', siftup_loop lt fuel h pos = (h', pos') ∧
    hole_sinking lt h' pos' ∧ (length h' ≤ 2 * pos' + 1)%nat ∧
    ∀ v, <[pos' := v]> h' ≡ₚ <[pos := v]> h.
Proof.
  induction fuel as [|fuel IH]; intros h pos Hfuel Hinv.
  - destruct Hinv. lia.
  - cbn [siftup_loop].
    destruct (decide (2 * pos + 1 < length h)%nat) as [Hc|Hc].
    + destruct (smaller_child h pos Hc) as (c & Hm & Hpm & Hlt & Hmin).
      cbv zeta in Hm, Hpm, Hlt.
      set (m := match h !! (2 * pos + 1)%nat with
                | Some l => _ | None => _ end) in *.
      rewrite Hm.
      destruct (IH (<[pos := c]> h) m) as (h' & pos' & Hrun & Hinv' & Hleaf & Hperm).
      * rewrite length_insert. lia.
      * by apply sinking_step.
      * exists h', pos'. split; [done|]. split; [done|]. split; [done|].
        intros v. rewrite Hperm.
        apply insert_move; [lia|by destruct Hinv|done].
    + exists h, pos. split; [done|]. split; [done|]. split; [lia|done].
Qed.

Lemma siftup_heap h newitem :
  h !! 0%nat = Some newitem → hole_sinking lt h 0 →
  is_heap lt (_siftup lt h 0) ∧ _siftup lt h 0 ≡ₚ h.
Proof.
  intros Hn Hinv. unfold _siftup. rewrite Hn.
  destruct (siftup_loop_spec (length h) h 0) as (h' & pos' & -> & Hinv' & Hleaf & Hperm);
    [lia|done|].
  destruct Hinv' as [Hb Ha _].
  destruct (siftdown_heap (<[pos' := newitem]> h') pos' newitem) as [H1 H2].
  - by rewrite list_lookup_insert_eq.
  - split.
    + by rewrite length_insert.
    + intros i x p Hi Hne Hnp Hx Hp.
      rewrite list_lookup_insert_ne in Hx, Hp by done. by apply (Ha i).
    + intros c x Hc Hpc Hx. apply lookup_lt_Some in Hx.
      rewrite length_insert in Hx. destruct (child_of_parent c Hc); lia.
    + intros c x g Hc Hpc _ Hx _. apply lookup_lt_Some in Hx.
      rewrite length_insert in Hx. destruct (child_of_parent c Hc); lia.
  - split; [done|]. rewrite H2, Hperm. by rewrite list_insert_id.
Qed.

Lemma heappop_None h : heappop lt h = None ↔ h = [].
Proof.
  unfold heappop. destruct (last h) as [x|] eqn:E.
  - split; [by destruct (removelast h)|]. intros ->. done.
  - split; [|done]. intros _. by apply last_None.
Qed.

Lemma heappop_heap h x h' :
  is_heap lt h → heappop lt h = Some (x, h') →
  is_heap lt h' ∧ h ≡ₚ x :: h' ∧ (∀ y, y ∈ h' → le lt x y).
Proof.
  intros Hh. unfold heappop.
  destruct (last h) as [lastelt|] eqn:E; [|done].
  apply last_Some in E as [l ->]. rewrite removelast_last.
  destruct l as [|r rest]; intros [= <- <-].
  - split; [apply is_heap_nil|]. split; [done|]. intros y Hy. by apply elem_of_nil in Hy.
  - destruct (siftup_heap (lastelt :: rest) lastelt) as [H1 H2]; [done| |].
    { split.
      - simpl. lia.
      - intros i x p Hi _ Hnp Hx Hp.
        assert (Hlen : (i < length (r :: rest))%nat)
          by (apply lookup_lt_Some in Hx; simpl in *; lia).
        assert (Hpi := parent_lt i Hi).
        apply (Hh i x p Hi).
        + rewrite lookup_app_l by done. by destruct i.
        + rewrite lookup_app_l by lia. by destruct (parent i).
      - intros c x g _ _ Hpos. lia. }
    assert (Hperm : (r :: rest) ++ [lastelt] ≡ₚ r :: _siftup lt (lastelt :: rest) 0).
    { rewrite H2. simpl. apply perm_skip.
      by rewrite Permutation_app_comm. }
    split; [done|]. split; [done|].
    intros y Hy.
    assert (Hin : y ∈ (r :: rest) ++ [lastelt]) by (rewrite Hperm; by right).
    apply list_elem_of_lookup in Hin as [i Hi].
    by apply (is_heap_root _ r Hh eq_refl i).
Qed.

Lemma drain_loop_sorted : ∀ fuel h,
  (length h ≤ fuel)%nat → is_heap lt h →
  StronglySorted (le lt) (drain_loop lt fuel h) ∧ drain_loop lt fuel h ≡ₚ h.
Proof.
  induction fuel as [|fuel IH]; intros h Hlen Hh.
  - destruct h; [|simpl in Hlen; lia]. split; [constructor|done].
  - cbn [drain_loop]. destruct (heappop lt h) as [[x h']|] eqn:Hpop.
    + destruct (heappop_heap h x h' Hh Hpop) as (Hh' & Hperm & Hmin).
      destruct (IH h') as [Hs Hp]; [|done|].
      { apply Permutation_length in Hperm. simpl in Hperm. lia. }
      split.
      * constructor; [done|]. apply Forall_forall. intros y Hy.
        apply Hmin. by rewrite <- Hp.
      * by rewrite Hperm, Hp.
    + apply heappop_None in Hpop as ->. split; [constructor|done].
Qed.

Lemma drain_sorted h :
  is_heap lt h → StronglySorted (le lt) (drain lt h) ∧ drain lt h ≡ₚ h.
Proof. intros Hh. by apply drain_loop_sorted. Qed.

End HeapOrder.

(** ** The waypoint queue *)

Section WaypointQueue.
Import WayPointMobility.

Lemma cmp_R_Gt a b : cmp_R a b = Gt ↔ (b < a)%R.
Proof.
  unfold cmp_R. destruct (Rltb_spec a b), (Rltb_spec b a); split; try done; lra.
Qed.

Lemma cmp_R_Eq a b : cmp_R a b = Eq ↔ a = b.
Proof.
  unfold cmp_R. destruct (Rltb_spec a b), (Rltb_spec b a); split; try done; lra.
Qed.

Lemma WayPoint_cmp_Gt x y :
  WayPoint_cmp x y = Gt ↔
  (time y < time x)%R ∨ (time x = time y ∧ (nodenum y < nodenum x)%Z).
Proof.
  unfold WayPoint_cmp. destruct (cmp_R (time x) (time y)) eqn:E.
  - apply cmp_R_Eq in E. rewrite Z.compare_gt_iff. split; [auto|].
    intros [?|[_ ?]]; [lra|done].
  - assert (¬ (time y < time x)%R) by (rewrite <- cmp_R_Gt; congruence).
    assert (time x ≠ time y) by (rewrite <- cmp_R_Eq; congruence).
    split; [done|]. intros [?|[? _]]; done.
  - apply cmp_R_Gt in E. split; auto.
Qed.

Lemma WayPoint_lt_spec x y :
  WayPoint_lt x y = true ↔
  (time x < time y)%R ∨ (time x = time y ∧ (nodenum x < nodenum y)%Z).
Proof.
  unfold WayPoint_lt.
  assert (H := WayPoint_cmp_Gt y x).
  assert (H' : WayPoint_cmp y x = Gt ↔
            (time x < time y)%R ∨ (time x = time y ∧ (nodenum x < nodenum y)%Z)).
  { rewrite H. split; (intros [?|[E ?]]; [by left|right; by rewrite E]). }
  destruct (WayPoint_cmp y x); split; try done.
  - intros G. by apply H' in G.
  - intros G. by apply H' in G.
  - intros _. by apply H'.
Qed.

Lemma heap_le_WayPoint_le x y : Heapq.le WayPoint_lt x y ↔ WayPoint_le x y.
Proof.
  unfold Heapq.le, WayPoint_le. rewrite <- not_true_iff_false, WayPoint_lt_spec.
  destruct (Rtotal_order (time x) (time y)) as [Hlt|[Heq|Hgt]]; split; intros G.
  - by left.
  - intros [?|[? ?]]; lra.
  - right. split; [done|].
    destruct (Z_lt_le_dec (nodenum y) (nodenum x)) as [Hn|Hn]; [|done].
    exfalso. apply G. right. by split.
  - intros [?|[_ ?]]; [lra|]. destruct G as [?|[_ ?]]; [lra|lia].
  - exfalso. apply G. left. lra.
  - destruct G as [?|[? _]]; lra.
Qed.

Lemma WayPoint_lt_asym x y : WayPoint_lt x y = true → WayPoint_lt y x = false.
Proof.
  rewrite <- not_true_iff_false, !WayPoint_lt_spec.
  intros [?|[? ?]] [?|[? ?]]; lra || lia.
Qed.

Lemma WayPoint_le_trans x y z :
  Heapq.le WayPoint_lt x y → Heapq.le WayPoint_lt y z → Heapq.le WayPoint_lt x z.
Proof.
  rewrite !heap_le_WayPoint_le. unfold WayPoint_le.
  intros [?|[? ?]] [?|[? ?]]; try (left; lra). right. split; [congruence|lia].
Qed.

Lemma StronglySorted_impl {A} (R1 R2 : A → A → Prop) l :
  (∀ x y, R1 x y → R2 x y) → StronglySorted R1 l → StronglySorted R2 l.
Proof.
  intros HR. induction 1 as [|x l Hs IH Hx]; constructor; [done|].
  eapply Forall_impl; [exact Hx|]. auto.
Qed.

Lemma queue_addwaypoints cs : ∀ st,
  Heapq.is_heap WayPoint_lt (queue st) →
  Heapq.is_heap WayPoint_lt (queue (addwaypoints st cs)) ∧
  queue (addwaypoints st cs) ≡ₚ rev (call_waypoint <$> cs) ++ queue st.
Proof.
  induction cs as [|c cs IH]; intros st Hh; [done|].
  cbn [addwaypoints foldl]. fold (addwaypoints (addwaypoint st (call_time c)
    (call_nodenum c) (call_x c) (call_y c) (call_z c) (call_speed c)) cs).
  destruct (heappush_heap WayPoint_lt WayPoint_lt_asym WayPoint_le_trans
              (queue st) (call_waypoint c) Hh) as [H1 H2].
  destruct (IH (addwaypoint st (call_time c) (call_nodenum c) (call_x c)
                  (call_y c) (call_z c) (call_speed c))) as [H3 H4]; [done|].
  split; [done|]. rewrite H4. cbn [queue addwaypoint set_queue].
  fold (call_waypoint c). rewrite H2. cbn [fmap list_fmap rev].
  rewrite <- app_assoc. done.
Qed.

Lemma drain_cons (q : list WayPoint) w q' :
  Heapq.is_heap WayPoint_lt q →
  Heapq.heappop WayPoint_lt q = Some (w, q') →
  Heapq.drain WayPoint_lt q = w :: Heapq.drain WayPoint_lt q'.
Proof.
  intros Hh Hpop.
  destruct (heappop_heap WayPoint_lt WayPoint_lt_asym WayPoint_le_trans q w q' Hh Hpop)
    as (_ & Hperm & _).
  apply Permutation_length in Hperm. simpl in Hperm.
  unfold Heapq.drain. rewrite Hperm. cbn [Heapq.drain_loop]. by rewrite Hpop.
Qed.

Lemma heappop_first (first : WayPoint) rest :
  ∃ q', Heapq.heappop WayPoint_lt (first :: rest) = Some (first, q').
Proof.
  unfold Heapq.heappop.
  destruct (last (first :: rest)) as [lastelt|] eqn:E.
  - apply last_Some in E as [l E]. rewrite E, removelast_last.
    destruct l as [|r l]; simplify_eq/=; by eexists.
  - by apply last_None in E.
Qed.

Lemma updatepoints_loop_drain now : ∀ fuel st,
  (length (queue st) ≤ fuel)%nat →
  Heapq.is_heap WayPoint_lt (queue st) →
  let st' := updatepoints_loop fuel st now in
  ∃ popped,
    Heapq.drain WayPoint_lt (queue st)
      = popped ++ Heapq.drain WayPoint_lt (queue st') ∧
    Forall (fun w => (time w <= now)%R) popped ∧
    Forall (fun w => (now < time w)%R) (queue st') ∧
    Heapq.is_heap WayPoint_lt (queue st') ∧
    points st' = promote (points st) popped.
Proof.
  induction fuel as [|fuel IH]; intros st Hlen Hh; cbv zeta.
  - exists []. destruct (queue st) eqn:E; [|simpl in Hlen; lia].
    cbn [updatepoints_loop]. rewrite E. done.
  - cbn [updatepoints_loop]. destruct (queue st) as [|first rest] eqn:E.
    + exists []. rewrite E. done.
    + destruct (Rgtb_spec (time first) now) as [Hgt|Hle].
      * exists []. rewrite E. split; [done|]. split; [done|]. split; [|done].
        apply Forall_forall. intros w Hw.
        apply list_elem_of_lookup in Hw as [i Hi].
        assert (Hle : Heapq.le WayPoint_lt first w).
        { rewrite <- E in Hh. apply (is_heap_root WayPoint_lt WayPoint_lt_asym
            WayPoint_le_trans (queue st) first Hh) with i; by rewrite E. }
        apply heap_le_WayPoint_le in Hle as [?|[? _]]; lra.
      * destruct (heappop_first first rest) as [q' Hpop]. rewrite Hpop.
        rewrite <- E in Hh.
        assert (Hpop' : Heapq.heappop WayPoint_lt (queue st) = Some (first, q'))
          by (by rewrite E).
        destruct (heappop_heap WayPoint_lt WayPoint_lt_asym WayPoint_le_trans
                    _ _ _ Hh Hpop') as (Hh' & Hperm & _).
        set (st1 := set_points (set_queue st q')
                      (<[nodenum first := first]> (points (set_queue st q')))).
        destruct (IH st1) as (popped & Hd & Hp1 & Hp2 & Hh2 & Hpts).
        { apply Permutation_length in Hperm. rewrite E in Hperm.
          simpl in *. lia. }
        { done. }
        exists (first :: popped). split; [|split; [|split; [|split]]].
        -- rewrite <- E, (drain_cons _ _ _ Hh Hpop'). cbn. f_equal. exact Hd.
        -- constructor; [lra|done].
        -- done.
        -- done.
        -- rewrite Hpts. done.
Qed.

Lemma init_heap netifs pos :
  Heapq.is_heap WayPoint_lt (queue (init netifs pos)).
Proof. apply is_heap_nil. Qed.

(** C8: after any sequence of [addwaypoint] calls, popping the queue
    until it is empty yields the waypoints that were added, ordered by
    time with ties by node id; [updatepoints] pops a prefix of that
    sequence, the waypoints whose time has come, and leaves a heap of the
    later ones. *)
Theorem waypoint_queue_drains_in_order netifs pos (cs : list addwaypoint_call) :
  let st := addwaypoints (init netifs pos) cs in
  StronglySorted WayPoint_le (Heapq.drain WayPoint_lt (queue st)) ∧
  Heapq.drain WayPoint_lt (queue st) ≡ₚ call_waypoint <$> cs ∧
  ∀ now, ∃ popped,
    Heapq.drain WayPoint_lt (queue st)
      = popped ++ Heapq.drain WayPoint_lt (queue (updatepoints st now)) ∧
    Forall (fun w => (time w <= now)%R) popped ∧
    Forall (fun w => (now < time w)%R) (queue (updatepoints st now)) ∧
    Heapq.is_heap WayPoint_lt (queue (updatepoints st now)) ∧
    points (updatepoints st now) = promote (points st) popped.
Proof.
  intros st.
  destruct (queue_addwaypoints cs (init netifs pos) (init_heap netifs pos))
    as [Hh Hperm]. fold st in Hh, Hperm.
  destruct (drain_sorted WayPoint_lt WayPoint_lt_asym WayPoint_le_trans
              (queue st) Hh) as [Hs Hp].
  split; [|split].
  - eapply StronglySorted_impl; [|exact Hs].
    intros x y. apply heap_le_WayPoint_le.
  - rewrite Hp, Hperm. cbn [queue init]. rewrite app_nil_r.
    symmetry. apply Permutation_rev.
  - intros now. by apply updatepoints_loop_drain.
Qed.

End WaypointQueue.

(** ** Stop and pause *)

Section Scheduler.
Import WayPointMobility.
Local Open Scope R_scope.

Lemma movenodesinitial_frame st : frame st (movenodesinitial st).
Proof.
  unfold movenodesinitial.
  assert (H : ∀ l acc, frame st acc.1.1 →
    frame st (foldl movenodesinitial_body acc l).1.1).
  { induction l as [|[netif node] l IH]; intros [[s m] mn] Hf; [done|].
    cbn [foldl]. apply IH. cbn [movenodesinitial_body].
    destruct (initial s !! node); exact Hf. }
  specialize (H (wlan_netifs st) (st, [], [])).
  destruct (foldl _ _ _) as [[s m] mn]. apply H. by repeat split.
Qed.

Lemma stop_frame st move_initial st' :
  stop st move_initial = Ok st' →
  state st' = STATE_STOPPED ∧ queue st' = queue_copy st ∧
  queue_copy st' = queue_copy st ∧ points st' = points st.
Proof.
  unfold stop, sendevent, loopwaypoints. cbn [snd].
  set (s1 := set_lasttime _ _).
  assert (Hf : frame s1 (if move_initial then movenodesinitial s1 else s1)).
  { destruct move_initial; [apply movenodesinitial_frame|by repeat split]. }
  destruct Hf as (H1 & H2 & H3 & H4 & _).
  set (s2 := if move_initial then movenodesinitial s1 else s1) in *.
  destruct (timezero s2), (lasttime s2), (endtime s2); intros [= <-]; cbn;
    rewrite ?H1, ?H2, ?H3, ?H4; done.
Qed.

Lemma stop_returns st move_initial e :
  endtime st = Some e → ∃ st', stop st move_initial = Ok st'.
Proof.
  intros He. unfold stop, sendevent, loopwaypoints. cbn [snd].
  set (s1 := set_lasttime _ _).
  assert (Hf : frame s1 (if move_initial then movenodesinitial s1 else s1)).
  { destruct move_initial; [apply movenodesinitial_frame|by repeat split]. }
  destruct Hf as (_ & _ & _ & _ & H5 & H6 & H7).
  set (s2 := if move_initial then movenodesinitial s1 else s1) in *.
  rewrite H5, H6, H7. cbn. rewrite He. by eexists.
Qed.

(** C3, as the code has it: [stop] leaves the scheduler stopped with the
    queue equal to the initial snapshot and the active-target table as it
    was; it returns when the end time is set.  [pause] leaves the queue and
    the active-target table as they were. *)
Theorem stop_and_pause_state st :
  (∀ move_initial st', stop st move_initial = Ok st' →
     state st' = STATE_STOPPED ∧ queue st' = queue_copy st ∧
     points st' = points st) ∧
  (∀ move_initial e, endtime st = Some e →
     ∃ st', stop st move_initial = Ok st') ∧
  (∀ now, state (pause st now) = STATE_PAUSED ∧
     queue (pause st now) = queue st ∧ points (pause st now) = points st).
Proof.
  split; [|split].
  - intros mi st' H. apply stop_frame in H. tauto.
  - intros mi e. apply stop_returns.
  - done.
Qed.

Lemma stop_and_pause_state_witness :
  ∃ st', stop stale_state true = Ok st' ∧ state st' = STATE_STOPPED ∧
    queue st' = [] ∧ points st' = points stale_state.
Proof.
  destruct (stop_and_pause_state stale_state) as (H1 & H2 & _).
  destruct (H2 true 0 eq_refl) as [st' Hs].
  exists st'. split; [exact Hs|]. exact (H1 true st' Hs).
Defined.

(** C3 as stated fails: [stop] does not empty the active-target table. *)
Lemma stop_keeps_targets :
  points stale_state ≠ ∅ ∧
  ∃ st', stop stale_state true = Ok st' ∧ points st' ≠ ∅.
Proof.
  assert (Hne : points stale_state ≠ ∅).
  { intros H. apply (f_equal (fun m => m !! 7%Z)) in H. done. }
  split; [done|].
  destruct (stop_returns stale_state true 0 eq_refl) as [st' Hs].
  exists st'. split; [done|]. apply stop_frame in Hs as (_ & _ & _ & ->). done.
Qed.

End Scheduler.

(** ** Movement *)

Section Movement.
Import WayPointMobility.
Local Open Scope R_scope.

Lemma getposition_set st node p :
  getposition (setnodeposition st node p) node = p.
Proof. unfold getposition, setnodeposition. cbn. by rewrite lookup_insert_eq. Qed.

(** A zero-speed waypoint places the node at the target as it is, also
    when the target has a negative coordinate. *)
Lemma movenode_instant_unclamped st node dt wp x2 y2 z2 :
  points st !! node = Some wp →
  coords wp = (x2, y2, z2) → speed wp = Scalar 0 →
  ∃ st', movenode st node dt = Ok (true, st') ∧
    getposition st' node = (x2, y2, z2) ∧ points st' !! node = None.
Proof.
  intros Hp Hc Hs. unfold movenode. rewrite Hp, Hc, Hs.
  destruct (getposition st node) as [[x1 y1] z1].
  cbn [speed_is_zero]. rewrite Reqb_true by done.
  eexists. split; [reflexivity|]. split; [apply getposition_set|].
  cbn. apply lookup_delete_eq.
Qed.

End Movement.

(** ** Movement on binary64 *)

Section MovementBinary64.
Import PrimFloat SpecFloat FloatOps FloatAxioms Binary64.
Local Open Scope float_scope.







(** The guard itself lets a rounding error through: from x = 0.3 with the
    target 0.9 a step of 100 is replaced by [0.9 - 0.3], which is
    0.6000000000000001, and [0.3 + 0.6000000000000001] is
    0.9000000000000001, just beyond the target. *)
Lemma movenode_rounds_past_target :
  movenode atan2_along_x cos_along_x sin_along_x
    0.3 0 None 0.9 0 None (Scalar 100) 1 = Step 0.9000000000000001 0 None ∧
  (0.9 - 0.3 =? 0.6000000000000001) = true ∧
  (0.9 <? 0.9000000000000001) = true ∧
  (0 <? 0.9 - 0.3) = true ∧ (0.9 - 0.9000000000000001 <? 0) = true.
Proof. vm_compute. done. Qed.

End MovementBinary64.

(** ** The node map *)

Section NodeMap.
Import Ns2ScriptedMobility.

Lemma parsemap_loop_wellformed : ∀ entries ps m,
  Forall2 (fun e p => parse_entry e = Some p) entries ps →
  parsemap_loop m entries = entries_map m ps.
Proof.
  induction entries as [|e es IH]; intros ps m H.
  - by apply Forall2_nil_inv_l in H as ->.
  - apply Forall2_cons_inv_l in H as (p & ps' & Hp & Hps & ->).
    cbn [parsemap_loop]. unfold parse_entry in Hp.
    destruct (PyStr.split_on ":" e) as [|p0 [|p1 [|]]]; try done.
    destruct (PyStr.int p1) as [v|]; [|done].
    destruct (PyStr.int p0) as [k|]; [|done].
    simplify_eq. cbn. by apply IH.
Qed.

Lemma parsemap_loop_malformed : ∀ pre ps bad post m,
  Forall2 (fun e p => parse_entry e = Some p) pre ps →
  parse_entry bad = None →
  parsemap_loop m (pre ++ bad :: post) = entries_map m ps.
Proof.
  induction pre as [|e es IH]; intros ps bad post m H Hbad.
  - apply Forall2_nil_inv_l in H as ->. cbn [app parsemap_loop].
    unfold parse_entry in Hbad.
    destruct (PyStr.split_on ":" bad) as [|p0 [|p1 [|]]]; try done.
    destruct (PyStr.int p1) as [v|]; [|done].
    destruct (PyStr.int p0) as [k|]; done.
  - apply Forall2_cons_inv_l in H as (p & ps' & Hp & Hps & ->).
    cbn [app parsemap_loop]. unfold parse_entry in Hp.
    destruct (PyStr.split_on ":" e) as [|p0 [|p1 [|]]]; try done.
    destruct (PyStr.int p1) as [v|]; [|done].
    destruct (PyStr.int p0) as [k|]; [|done].
    simplify_eq. cbn. by apply IH.
Qed.

Lemma entries_map_snoc m ps p :
  entries_map m (ps ++ [p]) = <[p.1 := p.2]> (entries_map m ps).
Proof. unfold entries_map. by rewrite foldl_app. Qed.

(** The last pair for a source decides; a source without a pair keeps
    what the table had. *)
Lemma entries_map_lookup ps : ∀ m k,
  entries_map m ps !! k =
  match last (filter (fun p => p.1 = k) ps) with
  | Some p => Some p.2
  | None => m !! k
  end.
Proof.
  induction ps as [|p ps IH] using rev_ind; intros m k; [done|].
  rewrite entries_map_snoc, filter_app, filter_cons, filter_nil.
  destruct (decide (p.1 = k)) as [<-|Hne].
  - rewrite last_snoc. apply lookup_insert_eq.
  - rewrite app_nil_r, lookup_insert_ne by done. apply IH.
Qed.

Lemma parsemap_nodemap self mapstr :
  PyStr.strip mapstr ≠ EmptyString →
  nodemap (parsemap self mapstr) = parsemap_loop ∅ (PyStr.split_on "," mapstr).
Proof.
  intros H. unfold parsemap.
  destruct (String.eqb_spec (PyStr.strip mapstr) EmptyString); done.
Qed.

(** C5, as the code has it: parsing a node-map string that is not blank
    stops at the first malformed entry and keeps the entries before it;
    when every entry is well formed all are kept, and a source maps to
    the destination of its last entry; an id found in the table maps to
    its destination and any other id passes through unchanged. *)
Theorem parsemap_keeps_wellformed_prefix self mapstr :
  PyStr.strip mapstr ≠ EmptyString →
  let self' := parsemap self mapstr in
  (∀ pre ps bad post,
     PyStr.split_on "," mapstr = pre ++ bad :: post →
     Forall2 (fun e p => parse_entry e = Some p) pre ps →
     parse_entry bad = None →
     nodemap self' = entries_map ∅ ps) ∧
  (∀ ps,
     Forall2 (fun e p => parse_entry e = Some p) (PyStr.split_on "," mapstr) ps →
     nodemap self' = entries_map ∅ ps ∧
     ∀ before src dst after,
       ps = before ++ (src, dst) :: after → src ∉ after.*1 →
       nodemap self' !! src = Some dst) ∧
  (∀ s n dst, PyStr.int s = Ok n → nodemap self' !! n = Some dst →
     map self' (Some s) = Ok dst) ∧
  (∀ s n, PyStr.int s = Ok n → nodemap self' !! n = None →
     map self' (Some s) = Ok n).
Proof.
  intros Hne self'. unfold self'. rewrite parsemap_nodemap by done.
  split; [|split; [|split]].
  - intros pre ps bad post -> Hpre Hbad. by apply parsemap_loop_malformed.
  - intros ps Hps. rewrite (parsemap_loop_wellformed _ ps) by done.
    split; [done|]. intros before src dst after -> Hsrc.
    rewrite entries_map_lookup, filter_app, filter_cons.
    rewrite decide_True by done.
    replace (filter (λ p : Z * Z, p.1 = src) after) with (@nil (Z * Z)).
    + by rewrite last_snoc.
    + destruct (filter _ after) as [|p l] eqn:E; [done|]. exfalso.
      assert (Hp : p ∈ filter (fun p : Z * Z => p.1 = src) after)
        by (rewrite E; by left).
      apply list_elem_of_filter in Hp as [<- Hp]. apply Hsrc.
      by apply list_elem_of_fmap_2.
  - intros s n dst Hs Hl. unfold map. rewrite Hs. cbn.
    rewrite parsemap_nodemap by done. by rewrite Hl.
  - intros s n Hs Hl. unfold map. rewrite Hs. cbn.
    rewrite parsemap_nodemap by done. by rewrite Hl.
Qed.

Lemma parsemap_keeps_wellformed_prefix_witness :
  nodemap (parsemap empty_model "0:5,bad,1:2") = entries_map ∅ [(0, 5)%Z] ∧
  map (parsemap empty_model "0:5,bad,1:2") (Some "0"%string) = Ok 5%Z ∧
  map (parsemap empty_model "0:5,bad,1:2") (Some "1"%string) = Ok 1%Z.
Proof.
  destruct (parsemap_keeps_wellformed_prefix empty_model "0:5,bad,1:2")
    as (H1 & _ & H3 & H4); [done|].
  assert (E : nodemap (parsemap empty_model "0:5,bad,1:2")
              = entries_map ∅ [(0, 5)%Z]).
  { apply (H1 ["0:5"%string] [(0, 5)%Z] "bad"%string ["1:2"%string]).
    - reflexivity.
    - repeat constructor.
    - reflexivity. }
  split; [exact E|]. split.
  - apply (H3 "0"%string 0%Z 5%Z); [reflexivity|]. rewrite E. reflexivity.
  - apply (H4 "1"%string 1%Z); [reflexivity|]. rewrite E. reflexivity.
Defined.

(** C5 as stated fails: the entries before a malformed one stay in the
    table, so an id mapped by them does not pass through. *)
Lemma parsemap_malformed_not_empty :
  nodemap (parsemap empty_model "0:5,bad,1:2") !! 0%Z = Some 5%Z ∧
  nodemap (parsemap empty_model "0:5,bad,1:2") ≠ ∅ ∧
  map (parsemap empty_model "0:5,bad,1:2") (Some "0"%string) = Ok 5%Z.
Proof.
  assert (H : nodemap (parsemap empty_model "0:5,bad,1:2") !! 0%Z = Some 5%Z)
    by (vm_compute; reflexivity).
  split; [exact H|]. split.
  - intros E. by rewrite E in H.
  - vm_compute. reflexivity.
Qed.

End NodeMap.

(** ** The trace reader *)

Section TraceReader.
Import Ns2ScriptedMobility.
Variable float : string → result R.

Lemma except_ValueError_other body s s' e :
  except_ValueError body s = (s', Err e) → e ≠ ValueError.
Proof.
  unfold except_ValueError. destruct (body s) as [s1 [[]|[]]]; intros [= <- <-]; done.
Qed.

(** A line on which the body raises [ValueError] is skipped: no
    [ValueError] leaves the loop body. *)
Lemma readline_skips_ValueError line s s' e :
  readline float line s = (s', Err e) → e ≠ ValueError.
Proof.
  unfold readline. destruct (negb _); [done|]. apply except_ValueError_other.
Qed.

(** C4 fails on the code: a scheduled-movement line that ends after
    ["at"] raises [IndexError], which the [except ValueError] clause does
    not catch; the function ends there and no later line is read. *)
Theorem readscriptfile_short_line_aborts self rest :
  readscriptfile float self (Some (short_line :: rest)) = (self, Err IndexError).
Proof. reflexivity. Qed.

End TraceReader.

(** The lines after the short one are lost: read on their own they give
    node 1 its initial position, behind the short line they give none. *)
Lemma readscriptfile_later_lines_lost :
  WayPointMobility.initial
    (Ns2ScriptedMobility.base
       (Ns2ScriptedMobility.readscriptfile float_of_int empty_model
          (Some initial_lines)).1) !! 1%Z
  = Some (WayPointMobility.mkWayPoint 0 1 (Some 10%R, Some 20%R, None)
            (WayPointMobility.Scalar 0)) ∧
  (Ns2ScriptedMobility.readscriptfile float_of_int empty_model
     (Some initial_lines)).2 = Ok () ∧
  WayPointMobility.initial
    (Ns2ScriptedMobility.base
       (Ns2ScriptedMobility.readscriptfile float_of_int empty_model
          (Some (short_line :: initial_lines))).1) !! 1%Z = None.
Proof.
  split; [|split]. 
  - cbv -[IZR Rplus Rmult Rminus Ropp Rinv]. reflexivity.
  - reflexivity. 
  - reflexivity.
Qed.

(** ** The range model: events and link table *)

Section RangeModelMore.
Import BasicRangeModel.
Local Open Scope R_scope.

(** [calclink], case by case. *)
Lemma calclink_result st a b :
  calclink st a b =
  if decide (a = b) then Ok (add_call st (a, b))
  else match _netifs st !! a, _netifs st !! b with
       | Some pa, Some pb =>
         match placed pb with
         | None => Ok (add_call st (a, b))
         | Some qb =>
           match placed pa with
           | None => Err TypeError
           | Some qa => Ok (link_step st a b (calcdistance qa qb))
           end
         end
       | _, _ => Ok (add_call st (a, b))
       end.
Proof.
  unfold calclink, link_step. destruct (decide (a = b)); [done|].
  cbn [_netifs add_call range].
  change (wlan_linked (add_call st (a, b))) with (wlan_linked st).
  destruct (_netifs st !! a) as [[[[xa|] [ya|]] za]|],
    (_netifs st !! b) as [[[[xb|] [yb|]] zb]|]; cbn [placed]; try done;
    destruct (Rgtb _ _), (wlan_linked st _ _); done.
Qed.

Lemma link_step_other st a b d p :
  p ≠ (Z.min a b, Z.max a b) →
  _linked (link_step st a b d) !! p = _linked st !! p.
Proof.
  intros Hp. unfold link_step.
  destruct (Rgtb _ _), (wlan_linked _ _ _); cbn; rewrite ?lookup_insert_ne; done.
Qed.

Lemma link_step_swap st a b d :
  events (link_step st a b d) = events (link_step st b a d) ∧
  _linked (link_step st a b d) = _linked (link_step st b a d).
Proof.
  unfold link_step. rewrite (Z.min_comm b a), (Z.max_comm b a).
  destruct (Rgtb _ _), (wlan_linked _ _ _); done.
Qed.


Lemma add_call_consistent st c : consistent st → consistent (add_call st c).
Proof. done. Qed.



Lemma for_each_invariant {S X} (P : S → Prop) (body : S → X → result S) xs :
  (∀ st x st', body st x = Ok st' → P st → P st') →
  ∀ st st', for_each body st xs = Ok st' → P st → P st'.
Proof.
  intros Hb. induction xs as [|x xs IH]; intros st st' H HP; [by simplify_eq/=|].
  cbn [for_each] in H. destruct (body st x) as [st1|] eqn:E; [|done].
  cbn in H. eapply IH; [done|]. by eapply Hb.
Qed.


Lemma set_netifs_consistent st m : consistent st → consistent (set_netifs st m).
Proof. done. Qed.






End RangeModelMore.

(** ** The range model: positions and distances *)

Section RangeGeometry.
Import BasicRangeModel.
Local Open Scope R_scope.

Lemma for_each_ext {S X} (f g : S → X → result S) xs :
  (∀ st x, f st x = g st x) → ∀ st, for_each f st xs = for_each g st xs.
Proof.
  intros H. induction xs as [|x xs IH]; intros st; [done|].
  cbn [for_each]. rewrite H. destruct (g st x); cbn; auto.
Qed.

Lemma update_pair_nil n st k : update_pair n [] st k = calclink st n k.
Proof. unfold update_pair. destruct (decide (k ∈ [])) as [H|]; [|done]. by apply elem_of_nil in H. Qed.

Lemma pair_key_inj (n k k' : Z) :
  (Z.min n k, Z.max n k) = (Z.min n k', Z.max n k') → k = k'.
Proof. intros [= H1 H2]. lia. Qed.

Lemma pair_key_member (n k u v : Z) :
  (u, v) = (Z.min n k, Z.max n k) → (u = n ∨ v = n) ∧ (u = k ∨ v = k).
Proof. intros [= -> ->]. lia. Qed.

Lemma update_pair_effect n rest st k st' :
  update_pair n rest st k = Ok st' →
  _netifs st' = _netifs st ∧ range st' = range st ∧
  (∀ p, k ∈ rest ∨ k = n ∨ p ≠ (Z.min n k, Z.max n k) →
        _linked st' !! p = _linked st !! p) ∧
  (∀ xn yn zn xk yk zk, k ∉ rest → k ≠ n →
     _netifs st !! n = Some (Some xn, Some yn, zn) →
     _netifs st !! k = Some (Some xk, Some yk, zk) →
     wlan_linked st' (Z.min n k) (Z.max n k)
     = negb (Rgtb (calcdistance (xn, yn, zn) (xk, yk, zk)) (range st))).
Proof.
  unfold update_pair. destruct (decide (k ∈ rest)) as [Hin|Hout].
  { intros [= <-]. repeat split; done. }
  rewrite calclink_result. destruct (decide (n = k)) as [<-|Hne].
  { intros [= <-]. repeat split; done. }
  destruct (_netifs st !! n) as [pn|] eqn:En, (_netifs st !! k) as [pk|] eqn:Ek;
    try (intros [= <-]; repeat split; done).
  destruct (placed pk) as [qk|] eqn:Pk.
  2:{ intros [= <-]. split; [done|]. split; [done|]. split; [done|].
      intros ?????? _ _ _ [= ->]. done. }
  destruct (placed pn) as [qn|] eqn:Pn; [|done].
  intros [= <-]. split; [apply link_step_netifs|]. split; [apply link_step_range|].
  split.
  - intros p [?|[?|Hp]]; [done|congruence|]. by apply link_step_other.
  - intros xn yn zn xk yk zk _ _ [= ->] [= ->]. cbn in Pk, Pn. simplify_eq.
    apply link_step_linked.
Qed.

Lemma wlan_linked_ext st st' a b :
  _linked st' !! (a, b) = _linked st !! (a, b) →
  wlan_linked st' a b = wlan_linked st a b.
Proof. unfold wlan_linked. by intros ->. Qed.

Lemma pass_effect n rest : ∀ ks st st',
  NoDup ks →
  for_each (update_pair n rest) st ks = Ok st' →
  _netifs st' = _netifs st ∧ range st' = range st ∧
  (∀ p, (∀ k, k ∈ ks → k ∉ rest → k ≠ n → p ≠ (Z.min n k, Z.max n k)) →
        _linked st' !! p = _linked st !! p) ∧
  (∀ k xn yn zn xk yk zk, k ∈ ks → k ∉ rest → k ≠ n →
     _netifs st !! n = Some (Some xn, Some yn, zn) →
     _netifs st !! k = Some (Some xk, Some yk, zk) →
     wlan_linked st' (Z.min n k) (Z.max n k)
     = negb (Rgtb (calcdistance (xn, yn, zn) (xk, yk, zk)) (range st))).
Proof.
  induction ks as [|k ks IH]; intros st st' Hnd Hrun.
  { simplify_eq/=. repeat split; try done. intros k ?????? Hk. by apply elem_of_nil in Hk. }
  apply NoDup_cons in Hnd as [Hk Hnd]. cbn [for_each] in Hrun.
  destruct (update_pair n rest st k) as [st1|] eqn:E1; [|done].
  cbn [mbind result_bind] in Hrun.
  apply update_pair_effect in E1 as (N1 & R1 & U1 & A1).
  destruct (IH _ _ Hnd Hrun) as (N2 & R2 & U2 & A2).
  split; [congruence|]. split; [congruence|]. split.
  - intros p Hp. rewrite U2, U1; [done| |].
    + destruct (decide (k ∈ rest)); [by left|]. destruct (decide (k = n)); [auto|].
      right. right. apply Hp; [by left|done..].
    + intros k' Hk' ??. apply Hp; [by right|done..].
  - intros k0 xn yn zn xk yk zk Hk0 Hr Hn En Ek.
    apply elem_of_cons in Hk0 as [->|Hk0].
    + rewrite <- (A1 xn yn zn xk yk zk) by done.
      apply wlan_linked_ext, U2. intros k' Hk' _ _ Heq.
      apply pair_key_inj in Heq. congruence.
    + rewrite <- R1. apply (A2 k0); try done; congruence.
Qed.

Lemma set_position_effect st n x y z st' :
  set_position st n (Some x) (Some y) z = Ok st' →
  _netifs st' = <[n := (Some x, Some y, z)]> (_netifs st) ∧
  range st' = range st ∧
  (∀ k xk yk zk, k ≠ n →
     _netifs st !! k = Some (Some xk, Some yk, zk) →
     wlan_linked st' (Z.min n k) (Z.max n k)
     = negb (Rgtb (calcdistance (x, y, z) (xk, yk, zk)) (range st))) ∧
  (∀ u v, u ≠ n → v ≠ n → _linked st' !! (u, v) = _linked st !! (u, v)).
Proof.
  unfold set_position. set (st0 := set_netifs st _).
  rewrite (for_each_ext _ (update_pair n [])) by (intros; by rewrite update_pair_nil).
  intros Hrun. apply pass_effect in Hrun as (N & Rg & U & A); [|apply NoDup_keys].
  split; [done|]. split; [done|]. split.
  - intros k xk yk zk Hk Ek.
    apply (A k x y z xk yk zk); [|apply not_elem_of_nil|done| |].
    + apply elem_of_keys, elem_of_dom. cbn. rewrite lookup_insert_ne by done. by eexists.
    + cbn. by rewrite lookup_insert_eq.
    + cbn. by rewrite lookup_insert_ne.
  - intros u v Hu Hv. rewrite U; [done|].
    intros k _ _ _ Heq. apply pair_key_member in Heq as [[?|?] _]; done.
Qed.

Lemma set_position_total st n x y z :
  ∃ st', set_position st n x y z = Ok st'.
Proof.
  unfold set_position. destruct x as [x|], y as [y|]; try by eexists.
  set (st0 := set_netifs st _).
  rewrite (for_each_ext _ (update_pair n [])) by (intros; by rewrite update_pair_nil).
  apply pass_total. cbn. rewrite lookup_insert_eq. intros p [= <-]. by eexists.
Qed.

Lemma set_position_netifs st n x y z st' :
  set_position st n x y z = Ok st' →
  _netifs st' = <[n := (x, y, z)]> (_netifs st) ∧ range st' = range st.
Proof.
  destruct x as [x|], y as [y|];
    try (unfold set_position; intros [= <-]; done).
  intros H. apply set_position_effect in H. tauto.
Qed.

Lemma update_body_effect gp st n rest st' :
  update_body gp st n rest = Ok st' →
  range st' = range st ∧
  _netifs st' = (if decide (is_Some (_netifs st !! n))
                 then <[n := gp n]> (_netifs st) else _netifs st) ∧
  (∀ u v, u ≠ n → v ≠ n → _linked st' !! (u, v) = _linked st !! (u, v)) ∧
  (∀ k xn yn zn xk yk zk, k ∉ rest → k ≠ n →
     _netifs st' !! n = Some (Some xn, Some yn, zn) →
     _netifs st' !! k = Some (Some xk, Some yk, zk) →
     wlan_linked st' (Z.min n k) (Z.max n k)
     = negb (Rgtb (calcdistance (xn, yn, zn) (xk, yk, zk)) (range st))).
Proof.
  unfold update_body. set (st0 := if decide _ then _ else _).
  intros Hrun. apply pass_effect in Hrun as (N & Rg & U & A); [|apply NoDup_keys].
  assert (R0 : range st0 = range st) by (unfold st0; by destruct (decide _)).
  assert (L0 : _linked st0 = _linked st) by (unfold st0; by destruct (decide _)).
  assert (N0 : _netifs st0 = if decide (is_Some (_netifs st !! n))
                 then <[n := gp n]> (_netifs st) else _netifs st)
    by (unfold st0; by destruct (decide _)).
  split; [congruence|]. split; [congruence|]. split.
  - intros u v Hu Hv. rewrite U, L0; [done|].
    intros k _ _ _ Heq. apply pair_key_member in Heq as [[?|?] _]; done.
  - intros k xn yn zn xk yk zk Hk Hkn En Ek. rewrite N in En, Ek.
    rewrite <- R0. apply (A k); try done.
    apply elem_of_keys, elem_of_dom. by eexists.
Qed.

Lemma update_body_lookup gp st n rest st' k :
  update_body gp st n rest = Ok st' →
  _netifs st' !! k =
  if decide (k = n ∧ is_Some (_netifs st !! k)) then Some (gp k)
  else _netifs st !! k.
Proof.
  intros H. apply update_body_effect in H as (_ & -> & _).
  destruct (decide (is_Some (_netifs st !! n))) as [Hs|Hs].
  - destruct (decide (k = n)) as [->|Hk].
    + rewrite lookup_insert_eq. by rewrite decide_True.
    + rewrite lookup_insert_ne by done. rewrite decide_False; [done|]. tauto.
  - destruct (decide (k = n ∧ _)) as [[-> ?]|]; done.
Qed.

(** What a whole pass does: positions, untouched pairs, and the pairs it
    brings in line with the geometry. *)
Lemma update_loop_effect gp : ∀ fuel moved st st' rest,
  length moved ≤ fuel → NoDup moved →
  update_loop fuel gp st moved = Ok (st', rest) →
  range st' = range st ∧
  (∀ k, _netifs st' !! k =
        if decide (k ∈ moved ∧ is_Some (_netifs st !! k)) then Some (gp k)
        else _netifs st !! k) ∧
  (∀ u v, u ∉ moved → v ∉ moved →
     _linked st' !! (u, v) = _linked st !! (u, v)) ∧
  (∀ a b xa ya za xb yb zb, a ∈ moved → a ≠ b →
     _netifs st' !! a = Some (Some xa, Some ya, za) →
     _netifs st' !! b = Some (Some xb, Some yb, zb) →
     wlan_linked st' (Z.min a b) (Z.max a b)
     = negb (Rgtb (calcdistance (xa, ya, za) (xb, yb, zb)) (range st))).
Proof.
  induction fuel as [|fuel IH]; intros moved st st' rest Hlen Hnd Hrun.
  { destruct moved; [|simpl in Hlen; lia]. simplify_eq/=.
    repeat split; try done. intros a ??????? Ha. by apply elem_of_nil in Ha. }
  cbn [update_loop] in Hrun. destruct (pop moved) as [[n r]|] eqn:Hpop.
  2:{ apply pop_None in Hpop as ->. simplify_eq/=.
      repeat split; try done. intros a ??????? Ha. by apply elem_of_nil in Ha. }
  apply pop_Some in Hpop as ->.
  destruct (update_body gp st n r) as [st1|] eqn:Hb; [|done].
  cbn [mbind result_bind] in Hrun.
  apply NoDup_app in Hnd as (Hr & Hdisj & _).
  assert (Hnr : n ∉ r) by (intros Hin; apply (Hdisj n Hin); by left).
  rewrite length_app in Hlen. simpl in Hlen.
  assert (Hlook := fun k => update_body_lookup gp st n r st1 k Hb).
  apply update_body_effect in Hb as (R1 & _ & U1 & A1).
  apply IH in Hrun as (R2 & N2 & U2 & A2); [|lia|done].
  assert (Hpos : ∀ k, _netifs st' !! k =
        if decide (k ∈ r ++ [n] ∧ is_Some (_netifs st !! k)) then Some (gp k)
        else _netifs st !! k).
  { intros k. rewrite N2, Hlook.
    destruct (decide (k = n)) as [->|Hkn].
    - rewrite (decide_False (P := n ∈ r ∧ _)) by tauto.
      destruct (decide (n = n ∧ _)) as [[_ Hs]|Hs].
      + rewrite decide_True; [done|]. split; [set_solver|done].
      + rewrite decide_False; [done|]. tauto.
    - rewrite (decide_False (P := k = n ∧ _)) by tauto.
      destruct (decide (k ∈ r ∧ _)) as [[Hk Hs]|Hs].
      + rewrite decide_True; [done|]. split; [set_solver|done].
      + rewrite decide_False; [done|]. set_solver. }
  split; [congruence|]. split; [exact Hpos|]. split.
  - intros u v Hu Hv. rewrite U2, U1; set_solver.
  - intros a b xa ya za xb yb zb Ha Hab Ea Eb.
    apply elem_of_app in Ha as [Ha|Ha].
    { rewrite <- R1. by apply (A2 a b). }
    apply list_elem_of_singleton in Ha as ->.
    destruct (decide (b ∈ r)) as [Hbr|Hbr].
    + rewrite Z.min_comm, Z.max_comm, calcdistance_comm, <- R1.
      apply (A2 b n); done.
    + assert (E1 : ∀ k, k ∉ r → _netifs st' !! k = _netifs st1 !! k).
      { intros k Hk. rewrite N2. rewrite decide_False; [done|]. tauto. }
      rewrite E1 in Ea, Eb by done.
      rewrite <- (A1 b xa ya za xb yb zb) by done.
      apply wlan_linked_ext, U2.
      * destruct (Z.min_spec n b) as [[_ ->]|[_ ->]]; done.
      * destruct (Z.max_spec n b) as [[_ ->]|[_ ->]]; done.
Qed.

End RangeGeometry.

(** ** The range model: one call *)

Section RangeModelProperties.
Import BasicRangeModel.
Local Open Scope R_scope.

Lemma negb_Rgtb_true d r : negb (Rgtb d r) = true ↔ d <= r.
Proof.
  destruct (Rle_or_lt d r) as [H|H].
  - rewrite Rgtb_false by done. done.
  - rewrite Rgtb_true by lra. cbn. split; [done|lra].
Qed.

(** X1: [calclink] does nothing but count the call when the two
    interfaces are the same, when one of them is not in the position
    table, or when the second has no x or no y: it returns, and the
    events, the link table, the positions and the range are as before. *)
Theorem calclink_skips st a b :
  a = b ∨ _netifs st !! a = None ∨ _netifs st !! b = None ∨
  (∃ pb, _netifs st !! b = Some pb ∧ placed pb = None) →
  ∃ st', calclink st a b = Ok st' ∧
    events st' = events st ∧ _linked st' = _linked st ∧
    _netifs st' = _netifs st ∧ range st' = range st.
Proof.
  intros H. exists (add_call st (a, b)). split; [|done].
  rewrite calclink_result. destruct (decide (a = b)); [done|].
  destruct H as [?|[->|[->|(pb & -> & Hp)]]]; try done.
  - by destruct (_netifs st !! a).
  - destruct (_netifs st !! a); [|done]. by rewrite Hp.
Qed.

Lemma calclink_skips_witness :
  ∃ st', calclink scenario_far 1 3 = Ok st' ∧
    events st' = events scenario_far ∧ _linked st' = _linked scenario_far ∧
    _netifs st' = _netifs scenario_far ∧ range st' = range scenario_far.
Proof.
  apply (calclink_skips scenario_far 1 3). right. right. left. reflexivity.
Defined.

(** X2: the one way [calclink] fails: the interfaces differ, both are in
    the position table, the second is placed and the first has no x or
    no y; the exception is then a [TypeError]. *)
Theorem calclink_raises st a b e :
  calclink st a b = Err e ↔
  e = TypeError ∧ a ≠ b ∧
  ∃ pa pb, _netifs st !! a = Some pa ∧ _netifs st !! b = Some pb ∧
           placed pa = None ∧ is_Some (placed pb).
Proof.
  rewrite calclink_result. split.
  - destruct (decide (a = b)); [done|].
    destruct (_netifs st !! a) as [pa|] eqn:Ea, (_netifs st !! b) as [pb|] eqn:Eb;
      try done.
    destruct (placed pb) as [qb|] eqn:Pb; [|done].
    destruct (placed pa) as [qa|] eqn:Pa; [done|].
    intros [= <-]. split; [done|]. split; [done|].
    exists pa, pb. rewrite Pb. eauto.
  - intros (-> & Hab & pa & pb & -> & -> & -> & [qb ->]).
    by destruct (decide (a = b)).
Qed.

(** X3: the order of the two arguments of [calclink] does not matter for
    the outcome: when both calls return, they send the same events and
    leave the same link table. *)
Theorem calclink_order_independent st a b s1 s2 :
  calclink st a b = Ok s1 → calclink st b a = Ok s2 →
  events s1 = events s2 ∧ _linked s1 = _linked s2.
Proof.
  rewrite !calclink_result.
  destruct (decide (a = b)) as [->|Hab].
  { rewrite decide_True by done. by intros [= <-] [= <-]. }
  rewrite (decide_False (P := b = a)) by congruence.
  destruct (_netifs st !! a) as [pa|], (_netifs st !! b) as [pb|];
    try (by intros [= <-] [= <-]).
  destruct (placed pb) as [qb|], (placed pa) as [qa|];
    try (by intros [= <-] [= <-]); try done.
  intros [= <-] [= <-]. rewrite (calcdistance_comm qb qa).
  apply link_step_swap.
Qed.

Lemma calclink_order_independent_witness :
  ∃ s1 s2, calclink scenario_far 1 2 = Ok s1 ∧ calclink scenario_far 2 1 = Ok s2 ∧
    events s1 = events s2 ∧ _linked s1 = _linked s2.
Proof.
  destruct (calclink_total scenario_far 1 2) as [s1 H1].
  { intros p [= <-]. by eexists. }
  destruct (calclink_total scenario_far 2 1) as [s2 H2].
  { intros p [= <-]. by eexists. }
  exists s1, s2. split; [exact H1|]. split; [exact H2|].
  exact (calclink_order_independent scenario_far 1 2 s1 s2 H1 H2).
Defined.

(** X4: [set_position] always returns; [get_position] then gives the
    reported coordinates for that interface and what it gave before for
    every other one, the range is kept, and a report without x or without
    y evaluates no pair: no event, no change of the link table. *)
Theorem set_position_records st n x y z :
  ∃ st', set_position st n x y z = Ok st' ∧
    get_position st' n = Ok (x, y, z) ∧
    (∀ k, k ≠ n → get_position st' k = get_position st k) ∧
    range st' = range st ∧
    (x = None ∨ y = None →
     events st' = events st ∧ _linked st' = _linked st ∧ calls st' = calls st).
Proof.
  destruct (set_position_total st n x y z) as [st' H]. exists st'.
  split; [done|].
  destruct (set_position_netifs _ _ _ _ _ _ H) as [N Rg].
  unfold get_position. rewrite N.
  split; [by rewrite lookup_insert_eq|].
  split; [intros k Hk; by rewrite lookup_insert_ne|].
  split; [done|].
  intros Hxy. unfold set_position in H.
  destruct x, y; try (by destruct Hxy); by simplify_eq.
Qed.

(** X5: after [set_position] has placed an interface, it is linked to
    each other placed interface exactly when their distance is within the
    range, and the link state of the pairs that do not contain it is as
    before. *)
Theorem set_position_links_by_distance st n x y z st' :
  set_position st n (Some x) (Some y) z = Ok st' →
  (∀ k xk yk zk, k ≠ n →
     _netifs st !! k = Some (Some xk, Some yk, zk) →
     (wlan_linked st' (Z.min n k) (Z.max n k) = true ↔
      calcdistance (x, y, z) (xk, yk, zk) <= range st)) ∧
  (∀ u v, u ≠ n → v ≠ n → _linked st' !! (u, v) = _linked st !! (u, v)).
Proof.
  intros H. apply set_position_effect in H as (_ & _ & A & U).
  split; [|exact U].
  intros k xk yk zk Hk Ek. rewrite (A k xk yk zk) by done.
  apply negb_Rgtb_true.
Qed.

Lemma set_position_links_by_distance_witness :
  ∃ st', set_position scenario_far 2 (Some 200) (Some 0) None = Ok st' ∧
    wlan_linked st' 1 2 = true.
Proof.
  destruct (set_position_total scenario_far 2 (Some 200) (Some 0) None) as [st' H].
  exists st'. split; [exact H|].
  destruct (set_position_links_by_distance _ _ _ _ _ _ H) as [A _].
  apply (A 1%Z 0 0 None); [done|reflexivity|].
  rewrite calcdistance_comm, distance_on_x_axis by lra. cbn. lra.
Defined.

(** X6: a batch [update] over a list without duplicates keeps the range
    and the set of known interfaces, refreshes the position of every
    moved interface that is known, leaves the positions of the others,
    and leaves the link state of the pairs without a moved member. *)
Theorem update_refreshes_positions gp st moved st' rest :
  NoDup moved →
  update gp st moved = Ok (st', rest) →
  range st' = range st ∧
  dom (_netifs st') = dom (_netifs st) ∧
  (∀ k, k ∈ moved → is_Some (_netifs st !! k) → _netifs st' !! k = Some (gp k)) ∧
  (∀ k, k ∉ moved → _netifs st' !! k = _netifs st !! k) ∧
  (∀ u v, u ∉ moved → v ∉ moved →
     _linked st' !! (u, v) = _linked st !! (u, v)).
Proof.
  intros Hnd H. apply update_loop_effect in H as (Rg & N & U & _); [|done..].
  split; [done|]. split; [|split; [|split]].
  - apply set_eq. intros k. rewrite !elem_of_dom, N.
    destruct (decide _) as [[_ Hs]|Hn]; [|done]. split; [done|by eexists].
  - intros k Hk Hs. rewrite N. by rewrite decide_True.
  - intros k Hk. rewrite N. rewrite decide_False; [done|]. tauto.
  - exact U.
Qed.

Lemma update_refreshes_positions_witness :
  ∃ st', update scenario_positions scenario_far [1%Z; 2%Z] = Ok (st', []) ∧
    _netifs st' !! 2%Z = Some (on_x_axis 200) ∧
    _netifs st' !! 3%Z = None.
Proof.
  destruct (update_loop_total scenario_positions 2 [1%Z; 2%Z] scenario_far)
    as [st' Hrun]; [done| |].
  { intros n Hn. unfold scenario_positions.
    destruct (decide (n = 1%Z)); cbn; eauto. }
  destruct (update_refreshes_positions scenario_positions scenario_far
              [1%Z; 2%Z] st' [])
    as (_ & _ & H1 & H2 & _); [|exact Hrun|].
  { apply NoDup_cons. split; [set_solver|]. apply NoDup_singleton. }
  exists st'. split; [exact Hrun|]. split.
  - rewrite (H1 2%Z); [reflexivity|set_solver|by eexists].
  - rewrite (H2 3%Z); [reflexivity|set_solver].
Defined.

(** X7: after a batch [update] over a list without duplicates, a moved
    interface is linked to another interface, both placed, exactly when
    their distance is within the range. *)
Theorem update_links_by_distance gp st moved st' rest :
  NoDup moved →
  update gp st moved = Ok (st', rest) →
  ∀ a b xa ya za xb yb zb,
    a ∈ moved → a ≠ b →
    _netifs st' !! a = Some (Some xa, Some ya, za) →
    _netifs st' !! b = Some (Some xb, Some yb, zb) →
    (wlan_linked st' (Z.min a b) (Z.max a b) = true ↔
     calcdistance (xa, ya, za) (xb, yb, zb) <= range st').
Proof.
  intros Hnd H a b xa ya za xb yb zb Ha Hab Ea Eb.
  apply update_loop_effect in H as (Rg & _ & _ & A); [|done..].
  rewrite (A a b xa ya za xb yb zb) by done. rewrite Rg.
  apply negb_Rgtb_true.
Qed.

Lemma update_links_by_distance_witness :
  ∃ st', update scenario_positions scenario_far [1%Z; 2%Z] = Ok (st', []) ∧
    wlan_linked st' 1 2 = true.
Proof.
  destruct (update_loop_total scenario_positions 2 [1%Z; 2%Z] scenario_far)
    as [st' Hrun]; [done| |].
  { intros n Hn. unfold scenario_positions.
    destruct (decide (n = 1%Z)); cbn; eauto. }
  assert (Hnd : NoDup [1%Z; 2%Z]).
  { apply NoDup_cons. split; [set_solver|]. apply NoDup_singleton. }
  destruct (update_loop_effect scenario_positions 2 [1%Z; 2%Z] scenario_far st' [])
    as (Rg & N & _ & _); [done|done|exact Hrun|].
  exists st'. split; [exact Hrun|].
  apply (update_links_by_distance scenario_positions scenario_far [1%Z; 2%Z]
           st' [] Hnd Hrun 1%Z 2%Z 0 0 None 200 0 None).
  - set_solver.
  - done.
  - rewrite N. reflexivity.
  - rewrite N. reflexivity.
  - rewrite distance_on_x_axis by lra. rewrite Rg. cbn. lra.
Defined.

End RangeModelProperties.

(** ** The range model: sequences of reports *)

Section RangeModelSequences.
Import BasicRangeModel.
Local Open Scope R_scope.


Lemma update_loop_range gp : ∀ fuel st moved st' rest,
  update_loop fuel gp st moved = Ok (st', rest) → range st' = range st.
Proof.
  induction fuel as [|fuel IH]; intros st moved st' rest H; [by simplify_eq/=|].
  cbn [update_loop] in H. destruct (pop moved) as [[n r]|]; [|by simplify_eq].
  destruct (update_body gp st n r) as [st1|] eqn:E; [|done]. cbn in H.
  apply IH in H. apply update_body_effect in E as [? _]. congruence.
Qed.

Lemma agrees_set_position st n x y z st' :
  set_position st n x y z = Ok st' → agrees st → agrees st'.
Proof.
  intros H Hag a b xa ya za xb yb zb Hab Ea Eb.
  destruct (set_position_netifs _ _ _ _ _ _ H) as [N Rg].
  rewrite N in Ea, Eb. rewrite Rg.
  destruct x as [x|], y as [y|].
  - apply set_position_effect in H as (_ & _ & A & U).
    destruct (decide (a = n)) as [->|Han]; [|destruct (decide (b = n)) as [->|Hbn]].
    + rewrite lookup_insert_eq in Ea. rewrite lookup_insert_ne in Eb by done.
      simplify_eq. by apply A.
    + rewrite lookup_insert_eq in Eb. rewrite lookup_insert_ne in Ea by done.
      simplify_eq. rewrite Z.min_comm, Z.max_comm, calcdistance_comm. by apply A.
    + rewrite lookup_insert_ne in Ea, Eb by done.
      rewrite <- (Hag a b) by done. apply wlan_linked_ext, U; lia.
  - unfold set_position in H. simplify_eq.
    destruct (decide (a = n)) as [->|Han]; [by rewrite lookup_insert_eq in Ea|].
    destruct (decide (b = n)) as [->|Hbn]; [by rewrite lookup_insert_eq in Eb|].
    rewrite lookup_insert_ne in Ea, Eb by done. by apply (Hag a b).
  - unfold set_position in H. simplify_eq.
    destruct (decide (a = n)) as [->|Han]; [by rewrite lookup_insert_eq in Ea|].
    destruct (decide (b = n)) as [->|Hbn]; [by rewrite lookup_insert_eq in Eb|].
    rewrite lookup_insert_ne in Ea, Eb by done. by apply (Hag a b).
  - unfold set_position in H. simplify_eq.
    destruct (decide (a = n)) as [->|Han]; [by rewrite lookup_insert_eq in Ea|].
    destruct (decide (b = n)) as [->|Hbn]; [by rewrite lookup_insert_eq in Eb|].
    rewrite lookup_insert_ne in Ea, Eb by done. by apply (Hag a b).
Qed.

Lemma agrees_update gp st moved st' rest :
  NoDup moved → update gp st moved = Ok (st', rest) → agrees st → agrees st'.
Proof.
  intros Hnd H Hag a b xa ya za xb yb zb Hab Ea Eb.
  apply update_loop_effect in H as (Rg & N & U & A); [|done..].
  rewrite Rg.
  destruct (decide (a ∈ moved)) as [Ha|Ha].
  { by apply A. }
  destruct (decide (b ∈ moved)) as [Hb|Hb].
  { rewrite Z.min_comm, Z.max_comm, calcdistance_comm. by apply A. }
  rewrite N in Ea, Eb. rewrite decide_False in Ea by tauto.
  rewrite decide_False in Eb by tauto.
  rewrite <- (Hag a b) by done. apply wlan_linked_ext, U.
  - destruct (Z.min_spec a b) as [[_ ->]|[_ ->]]; done.
  - destruct (Z.max_spec a b) as [[_ ->]|[_ ->]]; done.
Qed.

Lemma agrees_exec st c st' :
  duplicate_free c → exec st c = Ok st' → agrees st → agrees st'.
Proof.
  destruct c as [n x y z|gp moved]; cbn [exec duplicate_free]; intros Hd.
  - apply agrees_set_position.
  - destruct (update gp st moved) as [[s r]|] eqn:E; [|done].
    intros [= <-]. by eapply agrees_update.
Qed.

Lemma agrees_run cs : ∀ st st',
  Forall duplicate_free cs → run_commands st cs = Ok st' → agrees st → agrees st'.
Proof.
  induction cs as [|c cs IH]; intros st st' Hd H Hag.
  { unfold run_commands in H. cbn in H. by simplify_eq. }
  apply Forall_cons in Hd as [Hc Hd]. unfold run_commands in H. cbn [for_each] in H.
  destruct (exec st c) as [st1|] eqn:E; [|done]. cbn in H.
  eapply IH; [done|exact H|]. by eapply agrees_exec.
Qed.

Lemma init_agrees rng : agrees (init rng).
Proof. intros a b ??????? Ea. cbn in Ea. by rewrite lookup_empty in Ea. Qed.

Lemma run_commands_range cs st st' :
  run_commands st cs = Ok st' → range st' = range st.
Proof.
  intros H.
  refine (for_each_invariant (fun s => range s = range st) exec cs _ st st' H eq_refl).
  intros s c s' E <-. destruct c as [n x y z|gp moved]; cbn [exec] in E.
  - by apply set_position_netifs in E as [_ ?].
  - destruct (update gp s moved) as [[s1 r]|] eqn:E1; [|done].
    simplify_eq/=. by apply update_loop_range in E1.
Qed.


(** X10: whatever positions are reported to a new model, by
    [set_position] or by batches without duplicates, two placed
    interfaces are linked exactly when their distance is within the
    range the model was made with. *)
Theorem link_state_agrees_with_geometry rng cs st :
  Forall duplicate_free cs →
  run_commands (init rng) cs = Ok st →
  range st = rng ∧
  ∀ a b xa ya za xb yb zb,
    a ≠ b →
    _netifs st !! a = Some (Some xa, Some ya, za) →
    _netifs st !! b = Some (Some xb, Some yb, zb) →
    (wlan_linked st (Z.min a b) (Z.max a b) = true ↔
     calcdistance (xa, ya, za) (xb, yb, zb) <= rng).
Proof.
  intros Hd H.
  assert (Rg : range st = rng) by (by apply run_commands_range in H).
  split; [done|].
  intros a b xa ya za xb yb zb Hab Ea Eb.
  apply agrees_run in H; [|done|apply init_agrees].
  rewrite (H a b xa ya za xb yb zb) by done. rewrite Rg.
  apply negb_Rgtb_true.
Qed.


Lemma for_each_cons_Ok {S X} (body : S → X → result S) st x xs st1 :
  body st x = Ok st1 → for_each body st (x :: xs) = for_each body st1 xs.
Proof. intros H. cbn [for_each]. by rewrite H. Qed.

Lemma two_reports_run rng x1 y1 z1 x2 y2 z2 :
  ∃ st, run_commands (init rng)
          [SetPosition 1 (Some x1) (Some y1) z1; SetPosition 2 (Some x2) (Some y2) z2]
        = Ok st ∧
        _netifs st !! 1%Z = Some (Some x1, Some y1, z1) ∧
        _netifs st !! 2%Z = Some (Some x2, Some y2, z2).
Proof.
  destruct (set_position_total (init rng) 1 (Some x1) (Some y1) z1) as [s1 H1].
  destruct (set_position_total s1 2 (Some x2) (Some y2) z2) as [s2 H2].
  exists s2. split.
  - unfold run_commands.
    rewrite (for_each_cons_Ok exec _ _ _ s1) by exact H1.
    rewrite (for_each_cons_Ok exec _ _ _ s2) by exact H2. done.
  - apply set_position_netifs in H1 as [N1 _], H2 as [N2 _].
    rewrite N2, N1. cbn. split; reflexivity.
Qed.


Lemma link_state_agrees_with_geometry_witness :
  ∃ st, run_commands (init 275)
          [SetPosition 1 (Some 0) (Some 0) None; SetPosition 2 (Some 200) (Some 0) None]
        = Ok st ∧ wlan_linked st 1 2 = true.
Proof.
  destruct (two_reports_run 275 0 0 None 200 0 None) as (st & H & N1 & N2).
  exists st. split; [exact H|].
  assert (Hd : Forall duplicate_free
    [SetPosition 1 (Some 0) (Some 0) None; SetPosition 2 (Some 200) (Some 0) None]).
  { repeat constructor. }
  destruct (link_state_agrees_with_geometry 275 _ st Hd H) as [_ A].
  apply (A 1%Z 2%Z 0 0 None 200 0 None); [done|exact N1|exact N2|].
  rewrite distance_on_x_axis by lra. lra.
Defined.



(** X11: [updatewlans] updates the first model only: its [update] eats
    the shared list of moved interfaces, so every later model is handed
    an empty list and stays as it was. *)
Theorem updatewlans_only_first_model gp m ms moved :
  MobilityManager.updatewlans gp (m :: ms) moved
  = r ← update gp m moved; Ok (r.1 :: ms, []).
Proof.
  cbn [MobilityManager.updatewlans].
  destruct (update gp m moved) as [[m' rest]|e] eqn:H; [|done].
  assert (Hr : rest = []) by (by apply update_loop_rest in H). subst rest.
  cbn. clear H. induction ms as [|m2 ms IH]; [done|].
  cbn [MobilityManager.updatewlans].
  replace (update gp m2 []) with (Ok (m2, @nil NetIf) : result (t * list NetIf)).
  - cbn. cbn in IH.
    destruct (MobilityManager.updatewlans gp ms []) as [[ms' r']|] eqn:E; [|done].
    cbn in *. by simplify_eq.
  - reflexivity.
Qed.

End RangeModelSequences.

(** ** One move *)

Section MovementMore.
Import WayPointMobility.
Local Open Scope R_scope.

Lemma guarded_zero d : guarded d 0 = 0.
Proof.
  unfold guarded. destruct (Rgtb_spec (Rabs d) (Rabs 0)) as [H|H]; [done|].
  rewrite Rabs_R0 in H. assert (H' := Rabs_pos d).
  assert (E : Rabs d = 0) by lra.
  destruct (Req_dec d 0) as [->|Hd]; [done|]. by apply Rabs_no_R0 in Hd.
Qed.

Lemma movenode_effect st node dt moved st' :
  movenode st node dt = Ok (moved, st') →
  (state st' = state st ∧ queue st' = queue st ∧ queue_copy st' = queue_copy st ∧
   initial st' = initial st ∧ lasttime st' = lasttime st ∧
   timezero st' = timezero st ∧ wlan_updates st' = wlan_updates st ∧
   mobility_events st' = mobility_events st) ∧
  (∀ k, k ≠ node →
     points st' !! k = points st !! k ∧ getposition st' k = getposition st k) ∧
  (points st' !! node = None ∨ points st' !! node = points st !! node) ∧
  (if moved
   then node_events st' = (node, getposition st' node) :: node_events st
   else node_events st' = node_events st ∧ nodepos st' = nodepos st).
Proof.
  unfold movenode. destruct (points st !! node) as [wp|] eqn:Hp.
  2:{ intros [= <- <-]. split; [done|]. split; [done|]. split; [by right|done]. }
  destruct (getposition st node) as [[x1 y1] z1] eqn:Hg.
  destruct (coords wp) as [[x2 y2] z2].
  destruct (speed_is_zero (speed wp)).
  { intros [= <- <-]. split; [done|]. split; [|split].
    - intros k Hk. cbn. rewrite lookup_delete_ne by done. split; [done|].
      unfold getposition. cbn. by rewrite lookup_insert_ne.
    - left. cbn. apply lookup_delete_eq.
    - unfold getposition. cbn. by rewrite lookup_insert_eq. }
  destruct x1 as [x1|], y1 as [y1|], x2 as [x2|], y2 as [y2|]; try done.
  destruct (match speed wp with Scalar s => _ | Vector vx vy => _ end) as [sx sy].
  destruct (Reqb _ 0 && Reqb _ 0).
  - destruct (timezero st) as [tz|] eqn:Htz; [|done].
    destruct (lasttime st) as [lt|] eqn:Hlt; [|done].
    intros [= <- <-]. destruct (none_lt (endtime st) (lt - tz)); cbn.
    + split; [done|]. split; [|split; [|done]].
      * intros k Hk. by rewrite lookup_delete_ne.
      * left. apply lookup_delete_eq.
    + split; [done|]. split; [|split; [|done]].
      * intros k Hk. by rewrite lookup_delete_ne.
      * left. apply lookup_delete_eq.
  - intros [= <- <-]. split; [done|]. split; [|split].
    + intros k Hk. split; [done|]. unfold getposition. cbn.
      by rewrite lookup_insert_ne.
    + by right.
    + unfold getposition. cbn. by rewrite lookup_insert_eq.
Qed.

(** X12: [movenode] touches one node only.  When it returns, the state,
    the queue and its copy, the initial positions and the two clock
    fields are as before and nothing is sent to the range models or as a
    mobility event; every other node keeps its target and its position;
    the node itself keeps its target or loses it, never gets another; and
    the result is [True] exactly when one position of the node was
    broadcast, the position table being untouched otherwise. *)
Theorem movenode_touches_one_node st node dt moved st' :
  movenode st node dt = Ok (moved, st') →
  (state st' = state st ∧ queue st' = queue st ∧ queue_copy st' = queue_copy st ∧
   initial st' = initial st ∧ lasttime st' = lasttime st ∧
   timezero st' = timezero st ∧ wlan_updates st' = wlan_updates st ∧
   mobility_events st' = mobility_events st) ∧
  (∀ k, k ≠ node →
     points st' !! k = points st !! k ∧ getposition st' k = getposition st k) ∧
  (points st' !! node = None ∨ points st' !! node = points st !! node) ∧
  (if moved
   then node_events st' = (node, getposition st' node) :: node_events st
   else node_events st' = node_events st ∧ nodepos st' = nodepos st).
Proof. apply movenode_effect. Qed.

Lemma movenode_returns st node dt wp x1 y1 z1 x2 y2 z2 tz lt :
  points st !! node = Some wp →
  coords wp = (Some x2, Some y2, z2) →
  getposition st node = (Some x1, Some y1, z1) →
  timezero st = Some tz → lasttime st = Some lt →
  ∃ moved st', movenode st node dt = Ok (moved, st').
Proof.
  intros Hp Hc Hg Htz Hlt. unfold movenode. rewrite Hp, Hg, Hc.
  destruct (speed_is_zero (speed wp)); [by eexists _, _|].
  destruct (match speed wp with Scalar s => _ | Vector vx vy => _ end) as [sx sy].
  destruct (Reqb _ 0 && Reqb _ 0); [|by eexists _, _].
  rewrite Htz, Hlt. by eexists _, _.
Qed.

Lemma movenode_touches_one_node_witness :
  ∃ moved st', movenode moving_state 7 (1 / 20) = Ok (moved, st') ∧
    queue st' = queue moving_state ∧
    (∀ k, k ≠ 7%Z → getposition st' k = getposition moving_state k).
Proof.
  destruct (movenode_returns moving_state 7 (1 / 20) stale_target
              0 0 None 5 5 None 0 1) as (moved & st' & H); [reflexivity..|].
  exists moved, st'. split; [exact H|].
  destruct (movenode_touches_one_node _ _ _ _ _ H) as ((_ & Hq & _) & Hk & _).
  split; [exact Hq|]. intros k Hne. exact (proj2 (Hk k Hne)).
Defined.

(** X13: a node that stands on its target, the speed not being zero, is
    retired: [movenode] returns [False], removes the target, moves and
    broadcasts nothing, and the end time becomes the larger of what it
    was and the script time [lasttime - timezero] (an end time that is
    not set counts as smaller). *)
Theorem movenode_retires_arrived_node st node dt wp x y z1 z2 tz lt :
  points st !! node = Some wp →
  speed_is_zero (speed wp) = false →
  coords wp = (Some x, Some y, z2) →
  getposition st node = (Some x, Some y, z1) →
  timezero st = Some tz → lasttime st = Some lt →
  ∃ st' e,
    movenode st node dt = Ok (false, st') ∧
    points st' = delete node (points st) ∧
    nodepos st' = nodepos st ∧ node_events st' = node_events st ∧
    endtime st' = Some e ∧ lt - tz <= e ∧
    (e = lt - tz ∨ endtime st = Some e) ∧
    (∀ e0, endtime st = Some e0 → e0 <= e).
Proof.
  intros Hp Hz Hc Hg Htz Hlt. unfold movenode. rewrite Hp, Hg, Hc, Hz.
  destruct (match speed wp with Scalar s => _ | Vector vx vy => _ end) as [sx sy].
  replace (x - x) with 0 by lra. replace (y - y) with 0 by lra.
  fold (guarded (sx * dt) 0). fold (guarded (sy * dt) 0).
  rewrite !guarded_zero, Reqb_true by done. cbn [andb].
  rewrite Htz, Hlt. unfold none_lt.
  destruct (endtime st) as [e0|] eqn:He.
  - destruct (Rltb_spec e0 (lt - tz)) as [Hlt'|Hge].
    + exists (set_points (set_endtime st (Some (lt - tz))) (delete node (points st))),
        (lt - tz).
      repeat split; [lra|by left|]. intros e1 [= <-]. lra.
    + exists (set_points st (delete node (points st))), e0.
      repeat split; [done|lra|by right|]. intros e1 [= <-]. lra.
  - exists (set_points (set_endtime st (Some (lt - tz))) (delete node (points st))),
      (lt - tz).
    repeat split; [lra|by left|done].
Qed.

Lemma movenode_retires_arrived_node_witness :
  ∃ st' e, movenode arrived_state 7 (1 / 20) = Ok (false, st') ∧
    points st' = delete 7%Z (points arrived_state) ∧ endtime st' = Some e ∧ 1 - 0 <= e.
Proof.
  destruct (movenode_retires_arrived_node arrived_state 7 (1 / 20) stale_target
              5 5 None None 0 1)
    as (st' & e & H & Hp & _ & _ & He & Hle & _);
    [reflexivity| |reflexivity..|].
  { cbn. apply Reqb_false. lra. }
  exists st', e. done.
Defined.



End MovementMore.

(** ** The queue and the end time *)

Section QueueMore.
Import WayPointMobility.
Local Open Scope R_scope.

(** Pushing an item that is not earlier than any item of the heap: every
    item that moves has the time of the new one, and one of them ends at
    the last index. *)
Lemma siftdown_loop_latest T newitem : ∀ fuel heap pos,
  time newitem = T →
  (∀ w, w ∈ heap → time w <= T) →
  (pos < length heap)%nat →
  let h' := Heapq.siftdown_loop WayPoint_lt fuel heap 0 pos newitem in
  length h' = length heap ∧
  (∀ w, w ∈ h' → time w <= T) ∧
  (∃ w, h' !! pos = Some w ∧ time w = T) ∧
  (∀ i, (pos < i)%nat → h' !! i = heap !! i).
Proof.
  assert (Hplace : ∀ heap pos, (∀ w, w ∈ heap → time w <= T) → time newitem = T →
    (pos < length heap)%nat →
    length (<[pos := newitem]> heap) = length heap ∧
    (∀ w, w ∈ <[pos := newitem]> heap → time w <= T) ∧
    (∃ w, <[pos := newitem]> heap !! pos = Some w ∧ time w = T) ∧
    (∀ i, (pos < i)%nat → <[pos := newitem]> heap !! i = heap !! i)).
  { intros heap pos Hall HT Hpos. split; [apply length_insert|]. split; [|split].
    - intros w Hw. apply list_elem_of_lookup in Hw as [i Hi].
      destruct (decide (i = pos)) as [->|Hne].
      + rewrite list_lookup_insert_eq in Hi by done. simplify_eq. lra.
      + rewrite list_lookup_insert_ne in Hi by done.
        apply Hall. by eapply list_elem_of_lookup_2.
    - exists newitem. by rewrite list_lookup_insert_eq.
    - intros i Hi. apply list_lookup_insert_ne. lia. }
  induction fuel as [|fuel IH]; intros heap pos HT Hall Hpos; cbv zeta.
  { by apply Hplace. }
  cbn [Heapq.siftdown_loop]. destruct (decide (0 < pos)%nat) as [Hp|Hp].
  2:{ by apply Hplace. }
  destruct (heap !! ((pos - 1) / 2)%nat) as [parent|] eqn:Epar.
  2:{ by apply Hplace. }
  destruct (WayPoint_lt newitem parent) eqn:Hlt.
  2:{ by apply Hplace. }
  assert (Hpt : time parent = T).
  { assert (time parent <= T) by (apply Hall; by eapply list_elem_of_lookup_2).
    apply WayPoint_lt_spec in Hlt as [?|[? _]]; lra. }
  assert (Hpp : ((pos - 1) / 2 < pos)%nat).
  { apply (parent_lt pos Hp). }
  destruct (IH (<[pos := parent]> heap) ((pos - 1) / 2)%nat) as (L & A & _ & K).
  - done.
  - intros w Hw. apply list_elem_of_lookup in Hw as [i Hi].
    destruct (decide (i = pos)) as [->|Hne].
    + rewrite list_lookup_insert_eq in Hi by done. simplify_eq. lra.
    + rewrite list_lookup_insert_ne in Hi by done.
      apply Hall. by eapply list_elem_of_lookup_2.
  - rewrite length_insert. lia.
  - rewrite length_insert in L. split; [done|]. split; [done|]. split.
    + exists parent. rewrite K by done. by rewrite list_lookup_insert_eq.
    + intros i Hi. rewrite K by lia. apply list_lookup_insert_ne. lia.
Qed.

Lemma heappush_latest q wp :
  (∀ w, w ∈ q → time w <= time wp) →
  (∀ w, w ∈ Heapq.heappush WayPoint_lt q wp → time w <= time wp) ∧
  ∃ w, last (Heapq.heappush WayPoint_lt q wp) = Some w ∧ time w = time wp.
Proof.
  intros Hall. unfold Heapq.heappush, Heapq._siftdown.
  rewrite lookup_app_r, Nat.sub_diag by done. cbn [lookup list_lookup].
  destruct (siftdown_loop_latest (time wp) wp (length q) (q ++ [wp]) (length q))
    as (L & A & (w & Hw & Ht) & _).
  - done.
  - intros w [Hw|Hw]%elem_of_app; [by apply Hall|].
    apply list_elem_of_singleton in Hw as ->. lra.
  - rewrite length_app. simpl. lia.
  - split; [done|]. exists w. split; [|done].
    rewrite last_lookup, L, length_app. simpl.
    by replace (Init.Nat.pred (length q + 1)) with (length q) by lia.
Qed.

Lemma addwaypoints_snoc st cs c :
  addwaypoints st (cs ++ [c]) =
  addwaypoint (addwaypoints st cs) (call_time c) (call_nodenum c)
    (call_x c) (call_y c) (call_z c) (call_speed c).
Proof. unfold addwaypoints. by rewrite foldl_app. Qed.

Lemma Sorted_Rle_snoc l x :
  Sorted Rle (l ++ [x]) → Sorted Rle l ∧ ∀ t, t ∈ l → t <= x.
Proof.
  intros Hs. apply Sorted_StronglySorted in Hs; [|intros a b c; apply Rle_trans].
  induction l as [|a l IH]; cbn in Hs.
  - split; [constructor|]. intros t Ht. by apply elem_of_nil in Ht.
  - apply StronglySorted_inv in Hs as [Hs Ha]. destruct (IH Hs) as [I1 I2].
    rewrite Forall_app, Forall_singleton in Ha. destruct Ha as [Ha Hx].
    split.
    + apply StronglySorted_Sorted. constructor.
      * apply Sorted_StronglySorted; [intros ???; apply Rle_trans|done].
      * done.
    + intros t [->|Ht]%elem_of_cons; [done|by apply I2].
Qed.

Lemma addwaypoints_in_order cs : ∀ st,
  queue st = [] →
  Sorted Rle (call_time <$> cs) →
  let q := queue (addwaypoints st cs) in
  (∀ w, w ∈ q → time w <= default 0 (last (call_time <$> cs))) ∧
  (time <$> last q) = last (call_time <$> cs).
Proof.
  induction cs as [|c cs IH] using rev_ind; intros st Hq Hs; cbv zeta.
  { cbn. rewrite Hq. split; [|done]. intros w Hw. by apply elem_of_nil in Hw. }
  rewrite addwaypoints_snoc, fmap_app.
  change (call_time <$> [c]) with [call_time c]. rewrite last_snoc. cbn [default].
  rewrite fmap_app in Hs. change (call_time <$> [c]) with [call_time c] in Hs.
  assert (Hs' := Sorted_Rle_snoc _ _ Hs).
  destruct Hs' as [Hs1 Hs2].
  destruct (IH st Hq Hs1) as [A B]. cbn [queue addwaypoint set_queue].
  set (wp := mkWayPoint _ _ _ _).
  destruct (heappush_latest (queue (addwaypoints st cs)) wp) as [H1 (w & H2 & H3)].
  - intros w Hw. specialize (A w Hw). cbn.
    destruct (last (call_time <$> cs)) as [t|] eqn:El.
    + cbn in A. assert (t <= call_time c); [|lra].
      apply Hs2. apply last_Some in El as [l ->]. set_solver.
    + apply last_None in El. apply fmap_nil_inv in El. subst cs.
      cbn in Hw. rewrite Hq in Hw. by apply elem_of_nil in Hw.
  - split; [exact H1|]. rewrite H2. cbn. by rewrite H3.
Qed.

(** X15: [setendtime] reads the last slot of the heap, which in general
    is not the latest waypoint; for a script whose waypoints are added in
    the order of their times, as a trace sorted by time does, it is: the
    end time is the time of the last waypoint added, no queued waypoint
    is later, and an empty script gives 0. *)
Theorem setendtime_latest_of_ordered_script netifs pos cs :
  Sorted Rle (call_time <$> cs) →
  let st := setendtime (addwaypoints (init netifs pos) cs) in
  endtime st = Some (default 0 (last (call_time <$> cs))) ∧
  ∀ w e, w ∈ queue st → endtime st = Some e → time w <= e.
Proof.
  intros Hs. cbv zeta.
  destruct (addwaypoints_in_order cs (init netifs pos) eq_refl Hs) as [A B].
  cbv zeta in A, B. unfold setendtime.
  destruct (last (queue (addwaypoints (init netifs pos) cs))) as [wl|] eqn:El;
    cbn in B |- *.
  - rewrite <- B. cbn. split; [done|]. intros w e Hw [= <-].
    specialize (A w Hw). by rewrite <- B in A.
  - rewrite <- B. cbn. split; [done|]. intros w e Hw [= <-].
    specialize (A w Hw). by rewrite <- B in A.
Qed.

Lemma setendtime_latest_of_ordered_script_witness :
  endtime (setendtime (addwaypoints (init [] ∅)
             [mkCall 1 7 (Some 5) (Some 5) None (Scalar 1);
              mkCall 2 3 (Some 0) (Some 9) None (Scalar 1)])) = Some 2.
Proof.
  refine (proj1 (setendtime_latest_of_ordered_script [] ∅
             [mkCall 1 7 (Some 5) (Some 5) None (Scalar 1);
              mkCall 2 3 (Some 0) (Some 9) None (Scalar 1)] _)).
  cbn. repeat constructor. lra.
Defined.

Lemma cmp_R_Lt a b : cmp_R a b = Lt ↔ a < b.
Proof.
  unfold cmp_R. destruct (Rltb_spec a b), (Rltb_spec b a); split; try done; lra.
Qed.

Lemma cmp_R_opp a b : cmp_R b a = CompOpp (cmp_R a b).
Proof.
  unfold cmp_R. destruct (Rltb_spec a b), (Rltb_spec b a); try done; lra.
Qed.

(** X23: [WayPoint.__cmp__] is a total order on (time, node id): swapping
    the arguments reverses the result, the result is 0 exactly for equal
    time and node id, negative exactly for an earlier time or an equal
    time and a smaller node id, and not-greater is transitive. *)
Theorem WayPoint_cmp_total_order x y z :
  WayPoint_cmp y x = CompOpp (WayPoint_cmp x y) ∧
  (WayPoint_cmp x y = Eq ↔ time x = time y ∧ nodenum x = nodenum y) ∧
  (WayPoint_cmp x y = Lt ↔
   time x < time y ∨ (time x = time y ∧ (nodenum x < nodenum y)%Z)) ∧
  (WayPoint_cmp x y ≠ Gt → WayPoint_cmp y z ≠ Gt → WayPoint_cmp x z ≠ Gt).
Proof.
  split; [|split; [|split]].
  - unfold WayPoint_cmp. rewrite (cmp_R_opp (time x) (time y)).
    destruct (cmp_R (time x) (time y)); cbn; [|done..].
    apply Z.compare_antisym.
  - unfold WayPoint_cmp. destruct (cmp_R (time x) (time y)) eqn:E.
    + apply cmp_R_Eq in E. rewrite Z.compare_eq_iff. tauto.
    + apply cmp_R_Lt in E. split; [done|]. intros [? _]. lra.
    + apply cmp_R_Gt in E. split; [done|]. intros [? _]. lra.
  - unfold WayPoint_cmp. destruct (cmp_R (time x) (time y)) eqn:E.
    + apply cmp_R_Eq in E. rewrite Z.compare_lt_iff. split; [auto|].
      intros [?|[_ ?]]; [lra|done].
    + apply cmp_R_Lt in E. split; auto.
    + apply cmp_R_Gt in E. split; [done|]. intros [?|[? _]]; lra.
  - rewrite !WayPoint_cmp_Gt. intros H1 H2 [H3|[H3 H4]].
    + destruct (Rtotal_order (time x) (time y)) as [?|[?|?]]; [| |tauto].
      * destruct (Rtotal_order (time y) (time z)) as [?|[?|?]]; [lra|lra|tauto].
      * destruct (Rtotal_order (time y) (time z)) as [?|[?|?]]; [lra|lra|tauto].
    + destruct (Z_lt_le_dec (nodenum y) (nodenum x)) as [Hn|Hn].
      * apply H1. destruct (Rtotal_order (time x) (time y)) as [?|[?|?]];
          [|by right|by left].
        exfalso. apply H2. left. lra.
      * apply H2. destruct (Rtotal_order (time y) (time z)) as [?|[?|?]];
          [|right; split; [done|lia]|by left].
        exfalso. apply H1. left. lra.
Qed.

Lemma promote_snoc m ws w :
  promote m (ws ++ [w]) = <[nodenum w := w]> (promote m ws).
Proof. unfold promote. by rewrite foldl_app. Qed.

(** The last waypoint promoted for a node is its target; a node for which
    none was promoted keeps what it had. *)
Lemma promote_lookup ws : ∀ m n,
  promote m ws !! n =
  match last (filter (fun w => nodenum w = n) ws) with
  | Some w => Some w
  | None => m !! n
  end.
Proof.
  induction ws as [|w ws IH] using rev_ind; intros m n; [done|].
  rewrite promote_snoc, filter_app, filter_cons, filter_nil.
  destruct (decide (nodenum w = n)) as [<-|Hne].
  - rewrite last_snoc. apply lookup_insert_eq.
  - rewrite app_nil_r, lookup_insert_ne by done. apply IH.
Qed.

Lemma StronglySorted_last {A} (R : A → A → Prop) l x y :
  (∀ a, R a a) → StronglySorted R l → x ∈ l → last l = Some y → R x y.
Proof.
  intros Hrefl Hs Hx Hl. apply last_Some in Hl as [l' ->].
  apply elem_of_app in Hx as [Hx|Hx].
  - induction l' as [|a l' IH]; [by apply elem_of_nil in Hx|].
    cbn in Hs. apply StronglySorted_inv in Hs as [Hs Ha].
    apply elem_of_cons in Hx as [->|Hx]; [|by apply IH].
    rewrite Forall_app, Forall_singleton in Ha. by destruct Ha.
  - apply list_elem_of_singleton in Hx as ->. apply Hrefl.
Qed.

Lemma StronglySorted_filter {A} (R : A → A → Prop) (P : A → Prop)
    `{∀ x, Decision (P x)} l :
  StronglySorted R l → StronglySorted R (filter P l).
Proof.
  induction 1 as [|a l Hs IH Ha]; [constructor|].
  rewrite filter_cons. destruct (decide (P a)); [|done].
  constructor; [done|]. apply Forall_forall. intros x [_ Hx]%list_elem_of_filter.
  by eapply Forall_forall in Ha.
Qed.

Lemma StronglySorted_app_l {A} (R : A → A → Prop) l1 l2 :
  StronglySorted R (l1 ++ l2) → StronglySorted R l1.
Proof.
  induction l1 as [|a l1 IH]; [constructor|]. cbn.
  intros [Hs Ha]%StronglySorted_inv. constructor; [by apply IH|].
  rewrite Forall_app in Ha. by destruct Ha.
Qed.

(** X16: when several waypoints of a node have come due by the time of
    [updatepoints], the node heads for the latest of them and the earlier
    ones are dropped: the target of a node with a due waypoint is a due
    waypoint of that node from the queue, with a time not before that of
    any other; a node without a due waypoint keeps the target it had; and
    the queue keeps exactly the waypoints that are not due. *)
Theorem updatepoints_latest_due st now :
  Heapq.is_heap WayPoint_lt (queue st) →
  let st' := updatepoints st now in
  (∀ w, w ∈ queue st → time w <= now →
     ∃ w', points st' !! nodenum w = Some w' ∧
           w' ∈ queue st ∧ nodenum w' = nodenum w ∧
           time w <= time w' ∧ time w' <= now) ∧
  (∀ n, (∀ w, w ∈ queue st → nodenum w = n → now < time w) →
     points st' !! n = points st !! n) ∧
  (∀ w, w ∈ queue st' ↔ w ∈ queue st ∧ now < time w).
Proof.
  intros Hh. cbv zeta.
  destruct (updatepoints_loop_drain now (length (queue st)) st (le_n _) Hh)
    as (popped & Hd & Hdue & Hlater & Hh' & Hpts).
  fold (updatepoints st now) in Hd, Hlater, Hh', Hpts.
  destruct (drain_sorted WayPoint_lt WayPoint_lt_asym WayPoint_le_trans _ Hh)
    as [Hs Hp].
  destruct (drain_sorted WayPoint_lt WayPoint_lt_asym WayPoint_le_trans _ Hh')
    as [_ Hp'].
  assert (Hperm : queue st ≡ₚ popped ++ queue (updatepoints st now)).
  { by rewrite <- Hp, Hd, Hp'. }
  rewrite Hd in Hs. apply StronglySorted_app_l in Hs.
  rewrite Forall_forall in Hdue, Hlater.
  assert (Hin : ∀ w, w ∈ popped ↔ w ∈ queue st ∧ time w <= now).
  { intros w. rewrite Hperm, elem_of_app. split.
    - intros Hw. split; [by left|by apply Hdue].
    - intros [[Hw|Hw] Ht]; [done|]. apply Hlater in Hw. lra. }
  split; [|split].
  - intros w Hw Ht. rewrite Hpts, promote_lookup.
    assert (Hwp : w ∈ filter (fun w' => nodenum w' = nodenum w) popped).
    { apply list_elem_of_filter. split; [done|]. by apply Hin. }
    destruct (last (filter _ popped)) as [w'|] eqn:El.
    2:{ apply last_None in El. rewrite El in Hwp. by apply elem_of_nil in Hwp. }
    assert (Hw' : w' ∈ filter (fun w' => nodenum w' = nodenum w) popped).
    { apply last_Some in El as [l ->]. set_solver. }
    apply list_elem_of_filter in Hw' as [Hn Hw'].
    apply Hin in Hw' as [Hq Hnow].
    exists w'. split; [done|]. split; [done|]. split; [done|]. split; [|done].
    assert (Hle : Heapq.le WayPoint_lt w w').
    { apply (StronglySorted_last _ (filter (fun w' => nodenum w' = nodenum w) popped)).
      - apply (heap_le_refl _ WayPoint_lt_asym).
      - by apply StronglySorted_filter.
      - done.
      - done. }
    apply heap_le_WayPoint_le in Hle as [?|[? _]]; lra.
  - intros n Hn. rewrite Hpts, promote_lookup.
    destruct (last (filter _ popped)) as [w'|] eqn:El; [|done].
    assert (Hw' : w' ∈ filter (fun w' => nodenum w' = n) popped).
    { apply last_Some in El as [l ->]. set_solver. }
    apply list_elem_of_filter in Hw' as [Hn' Hw'].
    apply Hin in Hw' as [Hq Hnow]. specialize (Hn w' Hq Hn'). lra.
  - intros w. split.
    + intros Hw. split; [|by apply Hlater]. rewrite Hperm, elem_of_app. by right.
    + intros [Hw Ht]. rewrite Hperm, elem_of_app in Hw.
      destruct Hw as [Hw|Hw]; [|done]. apply Hdue in Hw. lra.
Qed.

Lemma updatepoints_latest_due_witness :
  ∃ w', points (updatepoints
                  (addwaypoints (init [] ∅)
                     [mkCall 1 7 (Some 5) (Some 5) None (Scalar 1);
                      mkCall 2 7 (Some 0) (Some 9) None (Scalar 1)]) 3)
          !! 7%Z = Some w' ∧ 2 <= time w' ∧ time w' <= 3.
Proof.
  set (st := addwaypoints (init [] ∅)
               [mkCall 1 7 (Some 5) (Some 5) None (Scalar 1);
                mkCall 2 7 (Some 0) (Some 9) None (Scalar 1)]).
  assert (Hh : Heapq.is_heap WayPoint_lt (queue st))
    by apply queue_addwaypoints, init_heap.
  destruct (proj1 (updatepoints_latest_due st 3 Hh)
              (mkWayPoint 2 7 (Some 0, Some 9, None) (Scalar 1)))
    as (w' & Hw & _ & _ & Ht & Hn).
  - destruct (queue_addwaypoints
                [mkCall 1 7 (Some 5) (Some 5) None (Scalar 1);
                 mkCall 2 7 (Some 0) (Some 9) None (Scalar 1)]
                (init [] ∅) (init_heap [] ∅)) as [_ Hp].
    fold st in Hp. rewrite Hp. cbn. set_solver.
  - cbn. lra.
  - exists w'. cbn in *. done.
Defined.

End QueueMore.

(** ** The trace reader, statement by statement *)

Section ReaderMore.
Import WayPointMobility Ns2ScriptedMobility.
Variable float : string → result R.

Lemma number_error l e : PyStr.number l = Err e → e = ValueError.
Proof.
  unfold PyStr.number. destruct l; [by intros [= <-]|].
  destruct (PyStr.digits _ _); [done|by intros [= <-]].
Qed.

Lemma int_error s e : PyStr.int s = Err e → e = ValueError.
Proof.
  unfold PyStr.int. intros H.
  repeat case_match; simplify_eq;
    try (by eapply number_error);
    try (match goal with
         | H : (_ ≫= _) = Err _ |- _ =>
             let E := fresh in
             destruct (PyStr.number _) eqn:E in H; [done|];
             cbn in H; simplify_eq; by eapply number_error
         end).
Qed.

Lemma index_from_error c l : ∀ i e,
  PyStr.index_from i c l = Err e → e = ValueError.
Proof.
  induction l as [|d l IH]; intros i e; cbn; [by intros [= <-]|].
  destruct (Ascii.eqb d c); [done|apply IH].
Qed.

Lemma between_parens_error part e :
  between_parens part = Err e → e = ValueError.
Proof.
  unfold between_parens, PyStr.index.
  destruct (PyStr.index_from 0 "(" _) eqn:E1; cbn.
  - destruct (PyStr.index_from 0 ")" _) eqn:E2; cbn; [done|].
    intros [= <-]. by eapply index_from_error.
  - intros [= <-]. by eapply index_from_error.
Qed.

Lemma getitem_error parts i e :
  PyStr.getitem parts i = Err e → e = IndexError ∧ (length parts ≤ i)%nat.
Proof.
  unfold PyStr.getitem. destruct (parts !! i) eqn:E; [done|].
  intros [= <-]. split; [done|]. by apply lookup_ge_None.
Qed.

Lemma map_error self s e : map self (Some s) = Err e → e = ValueError.
Proof.
  unfold map. destruct (PyStr.int s) eqn:E; cbn; [done|].
  intros [= <-]. by eapply int_error.
Qed.

(** *** Rules *)

Lemma triple_bind {X Y} P (m : M X) Q (f : X → M Y) R E :
  triple P m Q E → (∀ x, triple (Q x) (f x) R E) → triple P (m ≫= f) R E.
Proof.
  intros Hm Hf s Hs. specialize (Hm s Hs). unfold mbind, M_bind.
  destruct (m s) as [s1 [x|e]]; [|done]. by apply Hf.
Qed.

Lemma triple_ret {X} (P : Ns2ScriptedMobility.t * locals → Prop) (x : X) E :
  triple P (mret x) (fun _ => P) E.
Proof. by intros s Hs. Qed.

Lemma triple_lift {X} (P : Ns2ScriptedMobility.t * locals → Prop)
    (r : result X) E :
  (∀ e s, r = Err e → P s → E e s) →
  triple P (lift r) (fun _ => P) E.
Proof. intros H s Hs. unfold lift. destruct r; [done|by apply H]. Qed.

Lemma triple_weaken {X} P (m : M X) (Q Q' : X → _ → Prop) (E E' : exn → _ → Prop) :
  triple P m Q E → (∀ x s, Q x s → Q' x s) → (∀ e s, E e s → E' e s) →
  triple P m Q' E'.
Proof.
  intros Hm HQ HE s Hs. specialize (Hm s Hs).
  destruct (m s) as [s1 [x|e]]; auto.
Qed.

Lemma triple_pre {X} (P P' : _ → Prop) (m : M X) Q E :
  triple P m Q E → (∀ s, P' s → P s) → triple P' m Q E.
Proof. intros Hm HP s Hs. apply Hm. by apply HP. Qed.

Lemma triple_except P body (Q : unit → _ → Prop) (E : exn → _ → Prop) :
  triple P body Q E →
  triple P (except_ValueError body)
    (fun x s => Q x s ∨ E ValueError s)
    (fun e s => e ≠ ValueError ∧ E e s).
Proof.
  intros Hb s Hs. specialize (Hb s Hs). unfold except_ValueError.
  destruct (body s) as [s1 [[]|[]]]; auto.
Qed.

(** *** The statements of the loop body *)

Lemma kept_addinitial self0 self loc n x y z loc' :
  kept self0 (self, loc) →
  kept self0 (set_base self (addinitial (base self) n x y z), loc').
Proof. intros (H1 & H2 & H3). done. Qed.

Lemma kept_addwaypoint self0 self loc time n x y z speed :
  kept self0 (self, loc) →
  kept self0 (set_base self (addwaypoint (base self) time n x y z speed), loc).
Proof.
  intros (H1 & H2 & H3). split; [done|]. split; [done|].
  intros Hh. cbn.
  apply (heappush_heap WayPoint_lt WayPoint_lt_asym WayPoint_le_trans). auto.
Qed.

Lemma kept_locals self0 self loc loc' :
  kept self0 (self, loc) → kept self0 (self, loc').
Proof. done. Qed.

Lemma commit_initial_spec self0 line n :
  triple (reading self0) (commit_initial (Some n)) (fun _ => reading self0)
    (raised float self0 line).
Proof.
  intros [self loc] Hs. unfold commit_initial.
  destruct (map self (Some n)) as [k|e] eqn:E.
  - destruct Hs as [Hk _]. split; [by eapply kept_addinitial|].
    intros [[? [=]]|[? [=]]].
  - split; [done|]. left. by eapply map_error.
Qed.

Lemma commit_pending_spec self0 line :
  triple (reading self0) commit_pending (fun _ => reading self0)
    (raised float self0 line).
Proof.
  intros [self loc] Hs. unfold commit_pending. cbn [snd].
  destruct (ix loc) as [x|] eqn:Ex; [|done].
  destruct (iy loc) as [y|] eqn:Ey; [|done].
  destruct Hs as [Hk Hp]. destruct Hp as [n Hn].
  { left. cbn. rewrite Ex. by eexists. }
  cbn in Hn. rewrite Hn.
  apply (commit_initial_spec self0 line n (self, loc)). by split; [|exists n].
Qed.

Lemma add_mapped_waypoint_spec self0 line time n x y speed :
  triple (reading self0) (add_mapped_waypoint time n x y speed)
    (fun _ => reading self0) (raised float self0 line).
Proof.
  intros [self loc] Hs. unfold add_mapped_waypoint. cbn [fst snd].
  destruct (map self (Some n)) as [k|e] eqn:E.
  - destruct Hs as [Hk Hp]. split; [by apply kept_addwaypoint|done].
  - split; [done|]. left. by eapply map_error.
Qed.

Lemma lift_float_spec self0 line str :
  triple (reading self0) (lift (float str)) (fun _ => reading self0)
    (raised float self0 line).
Proof.
  apply triple_lift. intros e s He Hs. split; [done|]. right. left. by exists str.
Qed.

Lemma lift_parens_spec self0 line part :
  triple (reading self0) (lift (between_parens part)) (fun _ => reading self0)
    (raised float self0 line).
Proof.
  apply triple_lift. intros e s He Hs. split; [done|]. left.
  by eapply between_parens_error.
Qed.

Lemma lift_getitem_spec self0 line parts i :
  ((length parts ≤ i)%nat → ¬ enough_fields line) →
  triple (reading self0) (lift (PyStr.getitem parts i)) (fun _ => reading self0)
    (raised float self0 line).
Proof.
  intros Hshort. apply triple_lift. intros e s He Hs. split; [done|].
  apply getitem_error in He as [-> Hlen]. right. right. auto.
Qed.

Lemma set_inodenum_spec self0 n E :
  triple (kept self0) (set_inodenum (Some n)) (fun _ => reading self0) E.
Proof.
  intros [self loc] Hs. unfold set_inodenum. split; [done|].
  intros _. by eexists.
Qed.

Lemma set_ix_spec self0 v E :
  triple (reading self0) (set_ix v) (fun _ => kept self0) E.
Proof. by intros [self loc] [Hs _]. Qed.

Lemma set_iy_spec self0 v E :
  triple (reading self0) (set_iy v) (fun _ => kept self0) E.
Proof. by intros [self loc] [Hs _]. Qed.

Lemma set_iz_spec self0 v E :
  triple (reading self0) (set_iz v) (fun _ => reading self0) E.
Proof. by intros [self loc] [Hs Hp]. Qed.

Ltac reader_step self0 line :=
  first
    [ apply (commit_pending_spec self0 line)
    | apply (commit_initial_spec self0 line)
    | apply (add_mapped_waypoint_spec self0 line)
    | apply (lift_float_spec self0 line)
    | apply (lift_parens_spec self0 line)
    | apply (set_iz_spec self0)
    | apply (lift_getitem_spec self0 line) ].

Lemma readline_spec self0 line :
  triple (reading self0) (readline float line) (fun _ => reading self0)
    (fun e s => e ≠ ValueError ∧ raised float self0 line e s).
Proof.
  unfold readline. destruct (negb _).
  { apply triple_ret. }
  eapply triple_weaken;
    [apply (triple_except _ _ (fun _ => reading self0) (raised float self0 line))
    | |].
  2:{ intros [] s [H|[H _]]; exact H. }
  2:{ intros e s H. exact H. }
  destruct (String.eqb (PyStr.prefix 8 line) "$ns_ at ") eqn:Hns.
  { assert (Hshort : ∀ i, (i < 8)%nat →
      (length (PyStr.split line) ≤ i)%nat → ¬ enough_fields line).
    { intros i Hi Hlen. unfold enough_fields. rewrite Hns. lia. }
    repeat (eapply triple_bind;
            [reader_step self0 line; try (apply Hshort; lia)|intros ?]).
    reader_step self0 line. }
  destruct (String.eqb (PyStr.prefix 7 line) "$node_(") eqn:Hnode.
  2:{ apply triple_lift. intros e s [= <-] Hs. split; [done|by left]. }
  assert (Hshort : ∀ i, (i < 4)%nat →
    (length (PyStr.split line) ≤ i)%nat → ¬ enough_fields line).
  { intros i Hi Hlen. unfold enough_fields. rewrite Hns, Hnode. lia. }
  do 3 (eapply triple_bind;
          [reader_step self0 line; try (apply Hshort; lia)|intros ?]).
  eapply triple_bind; [|intros ?; apply set_inodenum_spec].
  repeat case_match.
  - repeat (eapply triple_bind;
            [reader_step self0 line; try (apply Hshort; lia)|intros ?]).
    apply set_ix_spec.
  - repeat (eapply triple_bind;
            [reader_step self0 line; try (apply Hshort; lia)|intros ?]).
    apply set_iy_spec.
  - eapply triple_weaken with (Q := fun _ => reading self0)
                              (E := raised float self0 line).
    + repeat (eapply triple_bind;
              [reader_step self0 line; try (apply Hshort; lia)|intros ?]).
      reader_step self0 line.
    + by intros _ s [Hk _].
    + done.
  - eapply triple_weaken; [apply triple_ret| |done].
    by intros _ s [Hk _].
Qed.

Lemma readlines_spec self0 lines :
  triple (reading self0) (readlines float lines) (fun _ => reading self0)
    (fun e s => reading self0 s ∧ e ≠ ValueError ∧
       ((∃ str, float str = Err e) ∨
        (e = IndexError ∧ Exists (fun line => ¬ enough_fields line) lines))).
Proof.
  induction lines as [|line lines IH]; [apply triple_ret|].
  cbn [readlines]. eapply triple_bind.
  - eapply triple_weaken; [apply readline_spec|done|].
    intros e s (Hne & Hr & [?|[?|[-> ?]]]); [done|by auto|].
    split; [done|]. split; [done|]. right. split; [done|]. by left.
  - intros []. eapply triple_weaken; [apply IH|done|].
    intros e s (Hr & Hne & [?|[-> ?]]); [by auto|].
    split; [done|]. split; [done|]. right. split; [done|]. by right.
Qed.

Lemma reading_start self : reading self (self, no_locals).
Proof.
  split; [by repeat split|]. intros [[? [=]]|[? [=]]].
Qed.

Lemma enough_fields_empty : enough_fields EmptyString.
Proof. exact I. Qed.

(** X19: [readscriptfile] changes the queue and the initial positions
    only: whatever the file holds, and also when an exception ends the
    reading, the node map, the state, the active targets, the clock
    fields, the node positions and everything sent so far are as before,
    and a queue that was a heap is a heap. *)
Theorem readscriptfile_frame self file :
  let self' := (readscriptfile float self file).1 in
  nodemap self' = nodemap self ∧
  reader_frame (base self) (base self') ∧
  (Heapq.is_heap WayPoint_lt (queue (base self)) →
   Heapq.is_heap WayPoint_lt (queue (base self'))).
Proof.
  cbv zeta. destruct file as [lines|]; [|by repeat split].
  unfold readscriptfile.
  assert (H := readlines_spec self lines (self, no_locals) (reading_start self)).
  unfold mbind, M_bind. fold no_locals.
  destruct (readlines float lines (self, no_locals)) as [s1 [[]|e]].
  - assert (H2 := commit_pending_spec self EmptyString s1 H).
    destruct (commit_pending s1) as [[s2 l2] [[]|e]]; cbn [fst].
    + by destruct H2 as [? _].
    + by destruct H2 as [[? _] _].
  - destruct s1 as [s1 l1]. cbn [fst]. by destruct H as [[? _] _].
Qed.

Hypothesis float_error : ∀ str e, float str = Err e → e = ValueError.

(** X17: the only exceptions that leave [readscriptfile] are
    [IndexError] and [ValueError], given that [float] raises nothing but
    [ValueError]: in particular the pending node number is always set
    when a pending initial position is committed, so [int(None)] is never
    evaluated. *)
Theorem readscriptfile_raises_only self file self' e :
  readscriptfile float self file = (self', Err e) →
  e = IndexError ∨ e = ValueError.
Proof.
  destruct file as [lines|]; [|done]. unfold readscriptfile.
  assert (H := readlines_spec self lines (self, no_locals) (reading_start self)).
  unfold mbind, M_bind. fold no_locals.
  destruct (readlines float lines (self, no_locals)) as [s1 [[]|e1]].
  - assert (H2 := commit_pending_spec self EmptyString s1 H).
    destruct (commit_pending s1) as [[s2 l2] [[]|e2]]; [done|].
    intros [= <- <-]. destruct H2 as [_ [?|[[str ?]|[_ Hn]]]].
    + by right.
    + right. by eapply float_error.
    + destruct Hn. apply enough_fields_empty.
  - destruct s1 as [s1 l1]. intros [= <- <-].
    destruct H as (_ & Hne & [[str ?]|[? _]]); [|by left].
    destruct Hne. by eapply float_error.
Qed.

(** X18: a trace in which every scheduled-movement line has at least
    eight fields and every initial-position line at least four is read to
    its last line; [readscriptfile] then returns, or raises the
    [ValueError] of a pending initial position whose node is not a
    number, which the final commit does outside the [try]. *)
Theorem readscriptfile_reads_every_line self lines :
  Forall enough_fields lines →
  (∃ s, readlines float lines (self, no_locals) = (s, Ok ())) ∧
  ((readscriptfile float self (Some lines)).2 = Ok () ∨
   (readscriptfile float self (Some lines)).2 = Err ValueError).
Proof.
  intros Hall.
  assert (H := readlines_spec self lines (self, no_locals) (reading_start self)).
  unfold readscriptfile, mbind, M_bind. fold no_locals.
  destruct (readlines float lines (self, no_locals)) as [s1 [[]|e1]].
  - split; [by eexists|].
    assert (H2 := commit_pending_spec self EmptyString s1 H).
    destruct (commit_pending s1) as [[s2 l2] [[]|e2]]; cbn [snd]; [by left|].
    right. destruct H2 as [_ [->|[[str ?]|[_ Hn]]]].
    + done.
    + f_equal. by eapply float_error.
    + destruct Hn. apply enough_fields_empty.
  - exfalso. destruct H as (_ & Hne & [[str ?]|[_ Hex]]).
    + destruct Hne. by eapply float_error.
    + apply Exists_exists in Hex as (line & Hin & Hn). apply Hn.
      rewrite Forall_forall in Hall. by apply Hall.
Qed.

End ReaderMore.

Section ReaderScenarios.
Import WayPointMobility Ns2ScriptedMobility.

Lemma float_of_int_error str e : float_of_int str = Err e → e = ValueError.
Proof.
  unfold float_of_int. destruct (PyStr.int str) eqn:E; cbn; [done|].
  intros [= <-]. by eapply int_error.
Qed.

Lemma readscriptfile_raises_only_witness :
  readscriptfile float_of_int empty_model (Some [short_line])
    = (empty_model, Err IndexError) ∧
  (IndexError = IndexError ∨ IndexError = ValueError).
Proof.
  assert (H : readscriptfile float_of_int empty_model (Some [short_line])
              = (empty_model, Err IndexError)) by reflexivity.
  split; [exact H|].
  exact (readscriptfile_raises_only float_of_int float_of_int_error
           empty_model (Some [short_line]) empty_model IndexError H).
Defined.

Lemma readscriptfile_reads_every_line_witness :
  (readscriptfile float_of_int empty_model (Some initial_lines)).2 = Ok () ∨
  (readscriptfile float_of_int empty_model (Some initial_lines)).2 = Err ValueError.
Proof.
  refine (proj2 (readscriptfile_reads_every_line float_of_int float_of_int_error
                   empty_model initial_lines _)).
  repeat constructor; unfold enough_fields; cbn; lia.
Defined.

End ReaderScenarios.

(** ** The rounds *)

Section HeapLength.
Import Heapq.
Context {A : Type} (lt : A → A → bool).

Lemma siftdown_loop_length newitem : ∀ fuel h startpos pos,
  length (siftdown_loop lt fuel h startpos pos newitem) = length h.
Proof.
  induction fuel as [|fuel IH]; intros h startpos pos; cbn [siftdown_loop].
  { apply length_insert. }
  repeat case_match; rewrite ?IH; apply length_insert.
Qed.

Lemma siftdown_length h startpos pos :
  length (_siftdown lt h startpos pos) = length h.
Proof.
  unfold _siftdown. destruct (h !! pos); [apply siftdown_loop_length|done].
Qed.

Lemma siftup_loop_length : ∀ fuel h pos,
  length (siftup_loop lt fuel h pos).1 = length h.
Proof.
  induction fuel as [|fuel IH]; intros h pos; cbn [siftup_loop]; [done|].
  destruct (decide _); [|done].
  match goal with |- context [siftup_loop lt fuel _ ?p] => generalize p end.
  intros childpos. destruct (h !! childpos); [|done].
  rewrite IH. apply length_insert.
Qed.

Lemma siftup_length h pos : length (_siftup lt h pos) = length h.
Proof.
  unfold _siftup. destruct (h !! pos); [|done].
  assert (H := siftup_loop_length (length h) h pos).
  destruct (siftup_loop lt (length h) h pos) as [h' pos']. cbn in H.
  by rewrite siftdown_length, length_insert.
Qed.

Lemma heappop_length h x h' :
  heappop lt h = Some (x, h') → length h = S (length h').
Proof.
  unfold heappop. destruct (last h) as [lastelt|] eqn:El; [|done].
  apply last_Some in El as [l ->]. rewrite removelast_last, length_app.
  destruct l as [|a l]; intros [= <- <-]; [done|].
  rewrite siftup_length. simpl. lia.
Qed.

End HeapLength.

Section Rounds.
Import WayPointMobility WayPointRun.
Local Open Scope R_scope.

Lemma period_pos r : (0 < refresh_ms r)%Z → 0 < period r.
Proof.
  intros H. unfold period. apply IZR_lt in H.
  apply Rmult_lt_0_compat; lra.
Qed.

Lemma updatepoints_loop_head now : ∀ fuel st first rest,
  (length (queue st) ≤ fuel)%nat →
  queue (updatepoints_loop fuel st now) = first :: rest → now < time first.
Proof.
  induction fuel as [|fuel IH]; intros st first rest Hlen.
  - cbn. destruct (queue st); [done|simpl in Hlen; lia].
  - cbn [updatepoints_loop]. destruct (queue st) as [|w q] eqn:E.
    + by rewrite E.
    + destruct (Rgtb_spec (time w) now) as [Hgt|Hle].
      * rewrite E. intros [= <- <-]. lra.
      * destruct (heappop_first w q) as [q' Hpop]. rewrite Hpop.
        apply IH. cbn. apply heappop_length in Hpop. simpl in *. lia.
Qed.

Lemma updatepoints_loop_points_grow now k : ∀ fuel st,
  is_Some (points st !! k) →
  is_Some (points (updatepoints_loop fuel st now) !! k).
Proof.
  induction fuel as [|fuel IH]; intros st Hk; [done|].
  cbn [updatepoints_loop]. destruct (queue st) as [|w q]; [done|].
  destruct (Rgtb (time w) now); [done|].
  destruct (Heapq.heappop WayPoint_lt (w :: q)) as [[wp q']|]; [|done].
  apply IH. cbn. destruct (decide (nodenum wp = k)) as [->|Hne].
  - rewrite lookup_insert_eq. by eexists.
  - by rewrite lookup_insert_ne.
Qed.

Lemma updatepoints_nonempty st now :
  queue st ≠ [] → size (points (updatepoints st now)) = 0%nat →
  queue (updatepoints st now) ≠ [].
Proof.
  intros Hq Hsz. unfold updatepoints in *.
  destruct (queue st) as [|w q] eqn:E; [done|]. cbn [length] in *.
  cbn [updatepoints_loop] in *. rewrite E in *.
  destruct (Rgtb (time w) now); [by rewrite E|].
  destruct (heappop_first w q) as [q' Hpop]. rewrite Hpop in *.
  exfalso. apply map_size_empty_iff in Hsz.
  destruct (updatepoints_loop_points_grow now (nodenum w) (length q)
    (set_points (set_queue st q') (<[nodenum w := w]> (points (set_queue st q')))))
    as [x Hx].
  { cbn. rewrite lookup_insert_eq. by eexists. }
  by rewrite Hsz in Hx.
Qed.

(** [updatepoints] reads and writes the queue and the active targets
    only. *)
Lemma updatepoints_loop_frame now : ∀ fuel st,
  let st' := updatepoints_loop fuel st now in
  state st' = state st ∧ queue_copy st' = queue_copy st ∧
  lasttime st' = lasttime st ∧ timezero st' = timezero st ∧
  endtime st' = endtime st ∧ loop st' = loop st ∧
  wlan_netifs st' = wlan_netifs st ∧ initial st' = initial st ∧
  nodepos st' = nodepos st ∧ wlan_updates st' = wlan_updates st ∧
  mobility_events st' = mobility_events st ∧ node_events st' = node_events st.
Proof.
  induction fuel as [|fuel IH]; intros st; cbv zeta; [by repeat split|].
  cbn [updatepoints_loop]. destruct (queue st) as [|w q]; [by repeat split|].
  destruct (Rgtb (time w) now); [by repeat split|].
  destruct (Heapq.heappop WayPoint_lt (w :: q)) as [[wp q']|]; [|by repeat split].
  specialize (IH (set_points (set_queue st q')
                    (<[nodenum wp := wp]> (points (set_queue st q'))))).
  cbv zeta in IH. exact IH.
Qed.



Lemma moveround_frame dt l : ∀ m moved moved_netifs m' moved' moved_netifs',
  for_each (moveround_body dt) (m, moved, moved_netifs) l
    = Ok (m', moved', moved_netifs') →
  state m' = state m ∧ queue m' = queue m ∧ queue_copy m' = queue_copy m ∧
  lasttime m' = lasttime m ∧ timezero m' = timezero m.
Proof.
  induction l as [|[netif node] l IH]; intros m a b m' a' b' H.
  { cbn in H. by simplify_eq. }
  cbn [for_each] in H.
  destruct (moveround_body dt (m, a, b) (netif, node)) as [[[m1 a1] b1]|] eqn:E;
    [|done].
  cbn in H. apply IH in H as (H1 & H2 & H3 & H4 & H5).
  unfold moveround_body in E.
  destruct (movenode m node dt) as [[changed m2]|] eqn:Em; [|done].
  apply movenode_effect in Em as ((F1 & F2 & F3 & _ & F5 & F6 & _) & _).
  destruct changed; simplify_eq; rewrite H1, H2, H3, H4, H5; done.
Qed.

End Rounds.

Section Rounds2.
Import WayPointMobility WayPointRun.
Local Open Scope R_scope.

Lemma timezero_set_lasttime m v : timezero (set_lasttime m v) = timezero m.
Proof. done. Qed.

Ltac round_unfold :=
  cbn [runround time_time set_model model refresh_ms empty_queue_stop
       clock readings evq add_event];
  rewrite ?timezero_set_lasttime.

Lemma run_entry_state r :
  state (model (run_entry r)) = state (model r) ∧
  queue (model (run_entry r)) = queue (model r) ∧
  points (model (run_entry r)) = points (model r) ∧
  evq (run_entry r) = evq r ∧ refresh_ms (run_entry r) = refresh_ms r.
Proof.
  unfold run_entry. round_unfold.
  destruct (movenodesinitial_frame
    (set_lasttime (set_timezero (model r) (Some (clock r (readings r))))
       (Some (clock r (readings r) - period
          {| model := model r; refresh_ms := refresh_ms r;
             empty_queue_stop := empty_queue_stop r; clock := clock r;
             readings := S (readings r); evq := evq r |}))))
    as (H1 & H2 & _ & H4 & _).
  rewrite H1, H2, H4. done.
Qed.

(** A round that starts with a waypoint in the queue does not come to
    calling [run]. *)
Lemma runround_queued n n' r :
  state (model r) = STATE_RUNNING → queue (model r) ≠ [] →
  runround (S n) r = runround (S n') r ∧ is_Some (runround (S n) r).
Proof.
  intros Hs Hq. round_unfold. rewrite Hs.
  destruct (timezero (model r)) as [tz|]; [|by split; [|eexists]].
  destruct (lasttime (model r)) as [t0|]; [|by split; [|eexists]].
  set (m1 := updatepoints _ _).
  destruct (decide (size (points m1) = 0%nat)) as [Hsz|Hsz];
    [|by split; [|eexists]].
  destruct (queue m1) as [|first rest] eqn:Eq; [|by split; [|eexists]].
  exfalso. by apply (updatepoints_nonempty
    (set_lasttime (model r) (Some (clock r (readings r)))) _ Hq Hsz).
Qed.

Lemma run_with_queued n n' r :
  state (model r) = STATE_RUNNING → queue (model r) ≠ [] →
  run_with (runround (S n)) r = run_with (runround (S n')) r ∧
  is_Some (run_with (runround (S n)) r).
Proof.
  intros Hs Hq. unfold run_with.
  destruct (run_entry_state r) as (E1 & E2 & _).
  destruct (runround_queued n n' (run_entry r)) as [-> [x Hx]]; [congruence..|].
  split; [done|]. destruct (runround (S n') (run_entry r)) as [[r'|e]|]; by eexists.
Qed.

Lemma runround_deep n r :
  runround (S (S n)) r = runround 2 r ∧ is_Some (runround 2 r).
Proof.
  remember (S n) as k eqn:Hk. change 2%nat with (S 1).
  remember 1%nat as k1 eqn:Hk1.
  round_unfold. destruct (state (model r)) eqn:Hs; try (by split; [|eexists]).
  destruct (timezero (model r)) as [tz|]; [|by split; [|eexists]].
  destruct (lasttime (model r)) as [t0|]; [|by split; [|eexists]].
  assert (Hs1 : state (updatepoints
             (set_lasttime (model r) (Some (clock r (readings r))))
             (clock r (readings r) - tz)) = STATE_RUNNING).
  { unfold updatepoints.
    by destruct (updatepoints_loop_frame (clock r (readings r) - tz)
      (length (queue (set_lasttime (model r) (Some (clock r (readings r))))))
      (set_lasttime (model r) (Some (clock r (readings r))))) as (-> & _). }
  remember (updatepoints _ _) as m1 eqn:Em1. clear Em1.
  destruct (decide (size (points m1) = 0%nat)) as [Hsz|Hsz];
    [|by split; [|eexists]].
  destruct (queue m1) as [|first rest] eqn:Eq; [|by split; [|eexists]].
  destruct (negb (empty_queue_stop r)); [by split; [|eexists]|].
  unfold loopwaypoints. round_unfold.
  destruct (negb (loop m1)); [by split; [|eexists]|].
  change (queue (set_queue m1 (queue_copy m1))) with (queue_copy m1).
  destruct (queue_copy m1) as [|w q] eqn:Ec; [by split; [|eexists]|].
  subst k k1.
  match goal with |- run_with _ ?r1 = _ ∧ _ =>
    destruct (run_with_queued n 0 r1) as [H1 H2];
    [done|by cbn|destruct (run_with_queued 0 0 r1) as [_ H3];
                    [done|by cbn|by split]] end.
Qed.

Lemma run_deep n r :
  run (S (S n)) r = run 2 r ∧ is_Some (run 2 r).
Proof.
  unfold run, run_with.
  destruct (runround_deep n (run_entry r)) as [-> [x Hx]]. split; [done|].
  rewrite Hx. destruct x; by eexists.
Qed.

(** X20: [runround] and [run] call each other, but never more than one
    level deep: the [runround] that [run] starts on behalf of a round
    finds a waypoint in the queue and does not call [run] again.  So a
    depth of two is enough for [runround], [run] and [start] on every
    state, and more depth changes nothing. *)
Theorem rounds_nest_once fuel r :
  (runround (2 + fuel) r = runround 2 r ∧ is_Some (runround 2 r)) ∧
  (run (2 + fuel) r = run 2 r ∧ is_Some (run 2 r)) ∧
  (start (2 + fuel) r = start 2 r ∧ is_Some (start 2 r)).
Proof.
  split; [apply runround_deep|]. split; [apply run_deep|].
  unfold start. destruct (state (model r)).
  - apply run_deep.
  - apply run_deep.
  - cbn [time_time set_model model].
    destruct (timezero _); [|by split; [|eexists]].
    destruct (lasttime _); [|by split; [|eexists]].
    apply runround_deep.
Qed.

Lemma sendevent_frame st st' :
  sendevent st = Ok st' → state st' = state st.
Proof.
  unfold sendevent. destruct (timezero st), (lasttime st), (endtime st);
    intros [= <-]; done.
Qed.

Lemma updatepoints_frame st now :
  state (updatepoints st now) = state st ∧
  queue_copy (updatepoints st now) = queue_copy st ∧
  loop (updatepoints st now) = loop st ∧
  timezero (updatepoints st now) = timezero st ∧
  lasttime (updatepoints st now) = lasttime st.
Proof.
  unfold updatepoints.
  destruct (updatepoints_loop_frame now (length (queue st)) st)
    as (H1 & H2 & H3 & H4 & _ & H6 & _).
  by rewrite H1, H2, H3, H4, H6.
Qed.

Lemma updatepoints_head st now first rest :
  queue (updatepoints st now) = first :: rest → now < time first.
Proof. unfold updatepoints. by apply updatepoints_loop_head. Qed.

(** A round that starts with a waypoint in the queue books the next
    one. *)
Lemma runround_queued_books n r r' :
  (0 < refresh_ms r)%Z →
  state (model r) = STATE_RUNNING → queue (model r) ≠ [] →
  runround (S n) r = Some (Ok r') →
  ∃ delay, evq r' = delay :: evq r ∧ 0 < delay ∧
           state (model r') = STATE_RUNNING.
Proof.
  intros Hr Hs Hq. round_unfold. rewrite Hs.
  destruct (timezero (model r)) as [tz|]; [|done].
  destruct (lasttime (model r)) as [t0|]; [|done].
  assert (Hp := period_pos r Hr).
  destruct (updatepoints_frame
              (set_lasttime (model r) (Some (clock r (readings r))))
              (clock r (readings r) - tz)) as (Hs1 & _).
  assert (Hne := updatepoints_nonempty
    (set_lasttime (model r) (Some (clock r (readings r))))
    (clock r (readings r) - tz) Hq).
  assert (Hhd := updatepoints_head
    (set_lasttime (model r) (Some (clock r (readings r))))
    (clock r (readings r) - tz)).
  remember (updatepoints _ _) as m1 eqn:Em1. clear Em1.
  change (state (set_lasttime (model r) (Some (clock r (readings r)))))
    with (state (model r)) in Hs1.
  destruct (decide (size (points m1) = 0%nat)) as [Hsz|Hsz].
  - destruct (queue m1) as [|first rest] eqn:Eq; [by destruct (Hne Hsz)|].
    specialize (Hhd first rest eq_refl).
    intros [= <-]. eexists. split; [reflexivity|]. split; [|cbn; congruence].
    unfold period in *. cbn [refresh_ms set_model] in *.
    destruct (Rgtb_spec (time first - (clock r (readings r) - tz))
                (0.001 * IZR (refresh_ms r))); lra.
  - destruct (for_each _ _ _) as [[[m' moved] moved_netifs]|] eqn:Ef; [|done].
    cbn. intros [= <-]. exists (period r). split; [done|]. split; [done|].
    apply moveround_frame in Ef as (Ef & _). cbn. congruence.
Qed.

(** X21: with a positive refresh period, a round of a running model that
    returns books exactly one next round, after a positive delay, or
    books none because the script has ended: the model is then stopped
    (no loop), or it loops over an empty script and stays running
    without a next round.  A round of a model that is not running does
    nothing. *)
Theorem runround_books_or_ends fuel r r' :
  (0 < refresh_ms r)%Z →
  runround fuel r = Some (Ok r') →
  match state (model r) with
  | STATE_RUNNING =>
    (∃ delay, evq r' = delay :: evq r ∧ 0 < delay ∧
              state (model r') = STATE_RUNNING) ∨
    (evq r' = evq r ∧ loop (model r) = false ∧
     state (model r') = STATE_STOPPED) ∨
    (evq r' = evq r ∧ loop (model r) = true ∧ queue_copy (model r) = [] ∧
     state (model r') = STATE_RUNNING)
  | _ => r' = r
  end.
Proof.
  intros Hr. destruct fuel as [|k]; [done|].
  round_unfold. destruct (state (model r)) eqn:Hs; try (by intros [= <-]).
  destruct (timezero (model r)) as [tz|]; [|done].
  destruct (lasttime (model r)) as [t0|]; [|done].
  assert (Hp := period_pos r Hr).
  destruct (updatepoints_frame
              (set_lasttime (model r) (Some (clock r (readings r))))
              (clock r (readings r) - tz)) as (Hs1 & Hc1 & Hl1 & _).
  assert (Hhd := updatepoints_head
    (set_lasttime (model r) (Some (clock r (readings r))))
    (clock r (readings r) - tz)).
  remember (updatepoints _ _) as m1 eqn:Em1. clear Em1.
  change (state (set_lasttime (model r) (Some (clock r (readings r)))))
    with (state (model r)) in Hs1.
  change (queue_copy (set_lasttime (model r) (Some (clock r (readings r)))))
    with (queue_copy (model r)) in Hc1.
  change (loop (set_lasttime (model r) (Some (clock r (readings r)))))
    with (loop (model r)) in Hl1.
  destruct (decide (size (points m1) = 0%nat)) as [Hsz|Hsz].
  2:{ destruct (for_each _ _ _) as [[[m' moved] moved_netifs]|] eqn:Ef; [|done].
      cbn. intros [= <-]. left. exists (period r). split; [done|]. split; [done|].
      apply moveround_frame in Ef as (Ef & _). cbn. congruence. }
  destruct (queue m1) as [|first rest] eqn:Eq.
  2:{ specialize (Hhd first rest eq_refl).
      intros [= <-]. left. eexists. split; [reflexivity|].
      split; [|cbn; congruence].
      unfold period in *. cbn [refresh_ms set_model] in *.
      destruct (Rgtb_spec (time first - (clock r (readings r) - tz))
                  (0.001 * IZR (refresh_ms r))); lra. }
  destruct (negb (empty_queue_stop r)).
  { intros [= <-]. left. exists (period r). split; [done|]. split; [done|].
    cbn. congruence. }
  unfold loopwaypoints. round_unfold.
  destruct (loop m1) eqn:El; cbn [negb].
  2:{ destruct (stop _ false) as [m'|] eqn:Est; [|done]. cbn.
      intros [= <-]. right. left. split; [done|]. split; [congruence|].
      apply stop_frame in Est as (Est & _). done. }
  change (queue (set_queue m1 (queue_copy m1))) with (queue_copy m1).
  destruct (queue_copy m1) as [|w q] eqn:Ec.
  { intros [= <-]. right. right. split; [done|]. split; [congruence|].
    split; [congruence|]. cbn. congruence. }
  unfold run_with.
  match goal with |- context [run_entry ?r1] => set (r2 := r1) end.
  destruct (run_entry_state r2) as (E1 & E2 & _ & E4 & E5).
  destruct (runround k (run_entry r2)) as [[r3|e]|] eqn:Er; [|done..].
  destruct k as [|k]; [done|].
  apply runround_queued_books in Er as (delay & Hd & Hpos & Hst).
  - destruct (sendevent (model r3)) as [m'|] eqn:Ese; [|done]. cbn.
    intros [= <-]. left. exists delay. cbn. rewrite Hd, E4.
    split; [done|]. split; [done|]. apply sendevent_frame in Ese. congruence.
  - by rewrite E5.
  - rewrite E1. cbn. congruence.
  - rewrite E2. by cbn.
Qed.

End Rounds2.

Section Rounds3.
Import WayPointMobility WayPointRun.
Local Open Scope R_scope.

Ltac round_unfold :=
  cbn [runround time_time set_model model refresh_ms empty_queue_stop
       clock readings evq add_event];
  rewrite ?timezero_set_lasttime.

Lemma idle_runner_round :
  runround 1 idle_runner
  = Some (Ok (add_event
       (set_model (snd (time_time idle_runner))
          (set_lasttime (model idle_runner) (Some (INR 0))))
       (period idle_runner))).
Proof. vm_compute. reflexivity. Qed.

Lemma runround_books_or_ends_witness :
  ∃ r' delay, runround 1 idle_runner = Some (Ok r') ∧
    evq r' = delay :: evq idle_runner ∧ 0 < delay.
Proof.
  eexists. 
  assert (H := runround_books_or_ends 1 idle_runner _ eq_refl idle_runner_round).
  cbn [state model idle_runner set_state] in H.
  destruct H as [(delay & H1 & H2 & _)|[(_ & _ & H)|(_ & H & _)]]; [|done..].
  exists delay. split; [apply idle_runner_round|]. by split.
Defined.








End Rounds3.
